(** * hr/mute: a shallow embedding of the mute plugin and its properties

    The plugin keeps a module-level [Map] from connection strings to
    muted player objects, parses command arguments with [parseId],
    persists the map as JSON, and answers chat events.  The JavaScript
    built-ins the plugin relies on (strings, numeric conversion of strings
    and its inverse, [Map], property order of plain objects,
    [JSON.stringify] / [JSON.parse]) are embedded first; the plugin's
    functions follow in source order.

    Conventions of the embedding.
    - A JavaScript string is a [string]: a sequence of 16-bit code units.
    - A JavaScript number is [NaN], an infinity, or a finite double, which
      is given by its exact rational value.  Conversion of text to a number
      rounds to the nearest double, ties to the even significand, and
      overflows to an infinity, as IEEE 754 binary64 does.  The two zeros are
      one value: no operation the plugin uses ([===], [isNaN], unary [+],
      conversion to a string, [JSON.stringify]) tells them apart.
    - Player ids and team numbers are integers, as the room hands them out. *)

From Stdlib Require Import NArith ZArith QArith Qround Qreduction List Ascii Bool Lia.
From Stdlib Require Import Permutation.
Import ListNotations.

#[local] Open Scope Z_scope.

(** ** Strings: sequences of 16-bit code units *)

(** A code unit, as its high and its low byte. *)
Inductive char16 : Set :=
| Char16 (hi lo : ascii).

Module Char16.

Definition code (c : char16) : N :=
  match c with
  | Char16 h l => (N_of_ascii h * 256 + N_of_ascii l)%N
  end.

Definition of_code (n : N) : char16 :=
  Char16 (ascii_of_N (n / 256)) (ascii_of_N (n mod 256)).

Definition eqb (a b : char16) : bool :=
  match a, b with
  | Char16 h l, Char16 h' l' => (Ascii.eqb h h' && Ascii.eqb l l')%bool
  end.

(** The low byte of a code unit below 256. *)
Definition latin1 (c : char16) : option N :=
  match c with
  | Char16 h l =>
      match N_of_ascii h with
      | 0%N => Some (N_of_ascii l)
      | _ => None
      end
  end.

(** Literals are written in ASCII. *)
Definition of_byte (b : Byte.byte) : option char16 :=
  match ascii_of_byte b with
  | Ascii _ _ _ _ _ _ _ true => None
  | a => Some (Char16 zero a)
  end.

Definition to_byte (c : char16) : option Byte.byte :=
  match c with
  | Char16 (Ascii false false false false false false false false) a =>
      match a with
      | Ascii _ _ _ _ _ _ _ true => None
      | _ => Some (byte_of_ascii a)
      end
  | _ => None
  end.

End Char16.

Declare Scope char16_scope.
Delimit Scope char16_scope with char16.
Bind Scope char16_scope with char16.
String Notation char16 Char16.of_byte Char16.to_byte : char16_scope.

Inductive string : Set :=
| EmptyString
| String (c : char16) (s : string).

Module String.

Fixpoint of_bytes (l : list Byte.byte) : option string :=
  match l with
  | [] => Some EmptyString
  | b :: r =>
      match Char16.of_byte b, of_bytes r with
      | Some c, Some s => Some (String c s)
      | _, _ => None
      end
  end.

Fixpoint to_bytes (s : string) : option (list Byte.byte) :=
  match s with
  | EmptyString => Some []
  | String c r =>
      match Char16.to_byte c, to_bytes r with
      | Some b, Some l => Some (b :: l)
      | _, _ => None
      end
  end.

Fixpoint eqb (a b : string) : bool :=
  match a, b with
  | EmptyString, EmptyString => true
  | String c a', String d b' => (Char16.eqb c d && eqb a' b')%bool
  | _, _ => false
  end.

Fixpoint append (a b : string) : string :=
  match a with
  | EmptyString => b
  | String c a' => String c (append a' b)
  end.

Fixpoint length (s : string) : nat :=
  match s with
  | EmptyString => O
  | String _ r => S (length r)
  end.

(** [prefix p s]: [s] starts with [p]. *)
Fixpoint prefix (p s : string) : bool :=
  match p with
  | EmptyString => true
  | String a p' =>
      match s with
      | EmptyString => false
      | String b s' => (Char16.eqb a b && prefix p' s')%bool
      end
  end.

(** [Array.prototype.join] on strings. *)
Fixpoint concat (sep : string) (l : list string) : string :=
  match l with
  | [] => EmptyString
  | [x] => x
  | x :: r => append x (append sep (concat sep r))
  end.

Fixpoint to_list (s : string) : list char16 :=
  match s with
  | EmptyString => []
  | String c r => c :: to_list r
  end.

End String.

Definition char16_dec (a b : char16) : {a = b} + {a <> b}.
Proof. decide equality; apply ascii_dec. Defined.

Definition string_dec (a b : string) : {a = b} + {a <> b}.
Proof. decide equality. apply char16_dec. Defined.

Declare Scope str_scope.
Delimit Scope str_scope with str.
Bind Scope str_scope with string.
String Notation string String.of_bytes String.to_bytes : str_scope.
Infix "++" := String.append (right associativity, at level 60) : str_scope.
#[local] Open Scope str_scope.

(** ** JavaScript numbers and primitive values *)

Inductive number : Type :=
| NaN
| Infinity (negative : bool)
| Fin (q : Q).

Definition isNaN (n : number) : bool :=
  match n with NaN => true | _ => false end.

Definition of_Z (z : Z) : number := Fin (inject_Z z).

(** [a === b] on two numbers: [NaN] differs from everything. *)
Definition number_eqb (a b : number) : bool :=
  match a, b with
  | Fin p, Fin q => Qeq_bool p q
  | Infinity s, Infinity t => Bool.eqb s t
  | _, _ => false
  end.

Definition negate (n : number) : number :=
  match n with
  | NaN => NaN
  | Infinity s => Infinity (negb s)
  | Fin q => Fin (Qopp q)
  end.

(** The primitive values a command argument can be. *)
Inductive value : Type :=
| VUndefined
| VNull
| VBool (b : bool)
| VNum (n : number)
| VStr (s : string).

(** ** The Number value of a rational

    The double nearest to an exact value: 53 significant bits, exponents
    of the least bit from -1074 (subnormals included) to 971, ties to the
    even significand, and an infinity from 2^1024 - 2^970 on. *)

(** The whole part of the binary logarithm of a / b. *)
Definition binade (a b : positive) : Z :=
  let d := Z.log2 (Zpos a) - Z.log2 (Zpos b) in
  if Zpos b * 2 ^ Z.max 0 d <=? Zpos a * 2 ^ Z.max 0 (- d) then d else d - 1.

(** m * 2^e as a fraction in lowest terms. *)
Definition dyadic (m e : Z) : Q :=
  if 0 <=? e then inject_Z (m * 2 ^ e)
  else Qred (Qmake m (Z.to_pos (2 ^ (- e)))).

Definition Number_value_pos (a b : positive) : number :=
  let e := Z.max (binade a b - 52) (-1074) in
  let n := Zpos a * 2 ^ Z.max 0 (- e) in
  let d := Zpos b * 2 ^ Z.max 0 e in
  let q := n / d in
  let r := n mod d in
  let m := if 2 * r <? d then q
           else if d <? 2 * r then q + 1
           else if Z.even q then q else q + 1 in
  if ((971 <? e) || ((e =? 971) && (m =? 2 ^ 53)))%bool then Infinity false
  else Fin (dyadic m e).

Definition Number_value (q : Q) : number :=
  match Qred q with
  | Qmake Z0 _ => Fin 0
  | Qmake (Zpos a) b => Number_value_pos a b
  | Qmake (Zneg a) b => negate (Number_value_pos a b)
  end.

(** The same Number value, [NaN] included. *)
Definition same_number (a b : number) : bool :=
  match a, b with
  | NaN, NaN => true
  | Infinity s, Infinity t => Bool.eqb s t
  | Fin p, Fin q => ((Qnum p =? Qnum q) && (Qden p =? Qden q)%positive)%bool
  | _, _ => false
  end.

(** ** [String.prototype.startsWith] and [slice(1)] *)

Definition startsWith (s prefix : string) : bool := String.prefix prefix s.

Definition slice1 (s : string) : string :=
  match s with
  | EmptyString => EmptyString
  | String _ r => r
  end.

(** ** Numeric conversion of strings (the unary [+] on a string)

    The grammar is ECMAScript's StringNumericLiteral: optional white space
    around an optional literal; the empty literal converts to 0; a literal is
    a signed decimal with optional fraction and exponent, [Infinity], or an
    unsigned 0x / 0o / 0b integer.  Anything else converts to [NaN].  The
    result is the Number value of the literal's exact mathematical value. *)

(** WhiteSpace and LineTerminator: TAB, LF, VT, FF, CR, SP, NBSP, U+1680,
    U+2000 to U+200A, U+2028, U+2029, U+202F, U+205F, U+3000, U+FEFF. *)
Definition is_StrWhiteSpaceChar (c : char16) : bool :=
  match c with
  | Char16 h l =>
      match N_of_ascii h, N_of_ascii l with
      | 0, (9 | 10 | 11 | 12 | 13 | 32 | 160) => true
      | 22, 128 => true
      | 32, (0 | 1 | 2 | 3 | 4 | 5 | 6 | 7 | 8 | 9 | 10 | 40 | 41 | 47 | 95) => true
      | 48, 0 => true
      | 254, 255 => true
      | _, _ => false
      end%N
  end.

Fixpoint trimStart (s : string) : string :=
  match s with
  | String c r => if is_StrWhiteSpaceChar c then trimStart r else s
  | EmptyString => EmptyString
  end.

Fixpoint trimEnd (s : string) : string :=
  match s with
  | String c r =>
      match trimEnd r with
      | EmptyString => if is_StrWhiteSpaceChar c then EmptyString else String c EmptyString
      | r' => String c r'
      end
  | EmptyString => EmptyString
  end.

Definition trim (s : string) : string := trimEnd (trimStart s).

Definition DecimalDigit (c : char16) : option N :=
  match c with
  | "0" => Some 0%N | "1" => Some 1%N | "2" => Some 2%N | "3" => Some 3%N
  | "4" => Some 4%N | "5" => Some 5%N | "6" => Some 6%N | "7" => Some 7%N
  | "8" => Some 8%N | "9" => Some 9%N
  | _ => None
  end%char16.

(** The longest prefix of decimal digits, and what follows it. *)
Fixpoint DecimalDigits (s : string) : list N * string :=
  match s with
  | String c r =>
      match DecimalDigit c with
      | Some d => let (ds, r') := DecimalDigits r in (d :: ds, r')
      | None => ([], s)
      end
  | EmptyString => ([], EmptyString)
  end.

(** The mathematical value of a sequence of decimal digits. *)
Definition MV (ds : list N) : N :=
  fold_left (fun acc d => acc * 10 + d)%N ds 0%N.

Definition digit_in_base (base : N) (c : char16) : option N :=
  match Char16.latin1 c with
  | Some n =>
      let v := if (48 <=? n)%N && (n <=? 57)%N then Some (n - 48)%N
               else if (97 <=? n)%N && (n <=? 102)%N then Some (n - 87)%N
               else if (65 <=? n)%N && (n <=? 70)%N then Some (n - 55)%N
               else None in
      match v with
      | Some d => if (d <? base)%N then Some d else None
      | None => None
      end
  | None => None
  end.

(** All of [s] read as digits in [base], or [None] if [s] has a foreign character. *)
Fixpoint digits_in_base (base : N) (acc : N) (s : string) : option N :=
  match s with
  | EmptyString => Some acc
  | String c r =>
      match digit_in_base base c with
      | Some d => digits_in_base base (acc * base + d)%N r
      | None => None
      end
  end.

Definition NonDecimalIntegerLiteral (s : string) : option number :=
  match s with
  | String "0" (String p (String c r)) =>
      let base :=
        match p with
        | "x" | "X" => Some 16%N
        | "o" | "O" => Some 8%N
        | "b" | "B" => Some 2%N
        | _ => None
        end%char16 in
      match base with
      | Some b =>
          Some match digits_in_base b 0 (String c r) with
               | Some n => Number_value (inject_Z (Z.of_N n))
               | None => NaN
               end
      | None => None
      end
  | _ => None
  end.

(** m * 10^e as an exact rational. *)
Definition scale10 (m : Z) (e : Z) : Q :=
  match e with
  | Z0 => inject_Z m
  | Zpos _ => inject_Z (m * 10 ^ e)
  | Zneg p => Qmake m (Pos.pow 10 p)
  end.

(** The mathematical value of a decimal literal with integer digits [ip],
    fraction digits [fp] and exponent [e]. *)
Definition decimal_value (ip fp : list N) (e : Z) : Q :=
  scale10 (Z.of_N (MV (ip ++ fp))) (e - Z.of_nat (List.length fp)).

(** The exponent that ends a decimal literal; nothing may follow it. *)
Definition ExponentPart (s : string) : option Z :=
  match s with
  | EmptyString => Some 0
  | String c r =>
      if (Char16.eqb c "e" || Char16.eqb c "E")%bool then
        let '(neg, r1) :=
          match r with
          | String "+" r' => (false, r')
          | String "-" r' => (true, r')
          | _ => (false, r)
          end in
        match DecimalDigits r1 with
        | ([], _) => None
        | (ds, EmptyString) =>
            let e := Z.of_N (MV ds) in Some (if neg : bool then - e else e)
        | (_, String _ _) => None
        end
      else None
  end.

Definition StrUnsignedDecimalLiteral (s : string) : number :=
  if String.eqb s "Infinity" then Infinity false
  else
    let (ip, r1) := DecimalDigits s in
    let (fp, r2) :=
      match r1 with
      | String "." r => DecimalDigits r
      | _ => ([], r1)
      end in
    match ip, fp with
    | [], [] => NaN
    | _, _ =>
        match ExponentPart r2 with
        | Some e => Number_value (decimal_value ip fp e)
        | None => NaN
        end
    end.

Definition StrDecimalLiteral (s : string) : number :=
  match s with
  | String "+" r => StrUnsignedDecimalLiteral r
  | String "-" r => negate (StrUnsignedDecimalLiteral r)
  | _ => StrUnsignedDecimalLiteral s
  end.

Definition StringToNumber (s : string) : number :=
  match trim s with
  | EmptyString => of_Z 0
  | t =>
      match NonDecimalIntegerLiteral t with
      | Some n => n
      | None => StrDecimalLiteral t
      end
  end.

(** The unary [+]. *)
Definition ToNumber (v : value) : number :=
  match v with
  | VUndefined => NaN
  | VNull => of_Z 0
  | VBool true => of_Z 1
  | VBool false => of_Z 0
  | VNum n => n
  | VStr s => StringToNumber s
  end.

(** ** Conversion of numbers to strings ([Number::toString], radix 10) *)

Definition digit_char (d : N) : char16 := Char16 zero (ascii_of_N (48 + d)).

Fixpoint write_digits (ds : list N) : string :=
  match ds with
  | [] => EmptyString
  | d :: r => String (digit_char d) (write_digits r)
  end.

Fixpoint decimal_digits_rev (fuel : nat) (n : N) : list N :=
  match fuel with
  | O => []
  | S fuel' =>
      if (n =? 0)%N then []
      else (n mod 10)%N :: decimal_digits_rev fuel' (n / 10)%N
  end.

(** The decimal digits of [n], the most significant first; none for 0. *)
Definition decimal_digits (n : N) : list N :=
  rev (decimal_digits_rev (N.to_nat (N.size n)) n).

(** The decimal numeral of an integer, with a minus sign when negative:
    what [Number::toString] gives for an integer below 10^21 in magnitude
    that a double holds. *)
Definition numeral (z : Z) : string :=
  match z with
  | Z0 => "0"
  | Zpos p => write_digits (decimal_digits (Npos p))
  | Zneg p => String "-" (write_digits (decimal_digits (Npos p)))
  end.

(** [s * 10^-p] is a positive decimal whose Number value is [x]. *)
Definition rounds_to (x : Q) (s p : Z) : bool :=
  ((0 <? s) && same_number (Number_value (scale10 s (- p))) (Fin x))%bool.

(** The digits [s] with [p] of them after the point that denote [x], if
    any: of the two neighbours of [x * 10^p], the one that is nearer to [x]
    when both do, the even one when they are equally near. *)
Definition shortest_at (x : Q) (p : Z) : option Z :=
  let y := (x * scale10 1 p)%Q in
  let lo := Qfloor y in
  let hi := lo + 1 in
  match rounds_to x lo p, rounds_to x hi p with
  | true, false => Some lo
  | false, true => Some hi
  | true, true =>
      match Qcompare (y + y) (inject_Z (lo + hi)) with
      | Lt => Some lo
      | Gt => Some hi
      | Eq => Some (if Z.even lo then lo else hi)
      end
  | false, false => None
  end.

Fixpoint shortest_from (fuel : nat) (x : Q) (p : Z) : option (Z * Z) :=
  match shortest_at x p with
  | Some s => Some (s, p)
  | None =>
      match fuel with
      | O => None
      | S fuel' => shortest_from fuel' x (p + 1)
      end
  end.

(** Integers [s] and [p] with [s * 10^-p] denoting the positive double [x]
    and [s] of as few digits as possible.  With [c] and [d] the numbers of
    digits of the numerator and the denominator of [x], [x * 10^(d - c - 1)]
    is below 1, so the search starts where [s] has one digit at most; it ends
    where every double is a whole multiple of [10^-p], and finds nothing only
    if [x] is no double. *)
Definition shortest_digits (x : Q) : option (Z * Z) :=
  let c := Z.of_nat (List.length (decimal_digits (Z.to_N (Qnum x)))) in
  let d := Z.of_nat (List.length (decimal_digits (Npos (Qden x)))) in
  let p0 := d - c - 1 in
  shortest_from (Z.to_nat (1074 - p0)) x p0.

Definition write_N (n : N) : string :=
  if (n =? 0)%N then "0" else write_digits (decimal_digits n).

Definition write_exponent (e : Z) : string :=
  String "e" (String (if e <? 0 then "-" else "+")%char16 (write_N (Z.abs_N e))).

(** [Number::toString] on a positive double: with [k] digits [s] and
    [n = k - p], the five layouts of the standard. *)
Definition Number_toString_pos (x : Q) : string :=
  match shortest_digits x with
  | None => EmptyString
  | Some (s, p) =>
      let ds := decimal_digits (Z.to_N s) in
      let k := Z.of_nat (List.length ds) in
      let n := k - p in
      if ((k <=? n) && (n <=? 21))%bool then
        write_digits (ds ++ repeat 0%N (Z.to_nat (n - k)))
      else if ((0 <? n) && (n <=? 21))%bool then
        write_digits (firstn (Z.to_nat n) ds) ++ String "." (write_digits (skipn (Z.to_nat n) ds))
      else if ((-6 <? n) && (n <=? 0))%bool then
        String "0" (String "." (write_digits (repeat 0%N (Z.to_nat (- n)) ++ ds)))
      else
        match ds with
        | [] => EmptyString
        | [d] => write_digits [d] ++ write_exponent (n - 1)
        | d :: r => write_digits [d] ++ String "." (write_digits r ++ write_exponent (n - 1))
        end
  end.

Definition Number_toString (n : number) : string :=
  match n with
  | NaN => "NaN"
  | Infinity false => "Infinity"
  | Infinity true => "-Infinity"
  | Fin q =>
      match Qnum q with
      | Z0 => "0"
      | Zpos _ => Number_toString_pos q
      | Zneg _ => String "-" (Number_toString_pos (Qopp q))
      end
  end.

(** ** The plugin: identifier parsing *)

(** [parseId(id)]; the result [VNull] is the source's [null]. *)
Definition parseId (id : value) : value :=
  let pId := id in
  if isNaN (ToNumber pId) then
    match pId with
    | VStr s =>
        if startsWith s "#" then
          let pId := ToNumber (VStr (slice1 s)) in
          if isNaN pId then VNull else VNum pId
        else VNull
    | _ => VNull
    end
  else VNum (ToNumber pId).

(** ** Stored values

    What the mute map holds and what JSON text denotes: a player object
    taken from the room, or whatever [JSON.parse] built on restore.  A
    [JObj] lists its own properties in enumeration order. *)

#[local] Unset Elimination Schemes.

Inductive json : Type :=
| JNull
| JBool (b : bool)
| JNum (n : number)
| JStr (s : string)
| JArr (elems : list json)
| JObj (props : list (string * json)).

#[local] Set Elimination Schemes.

(** The integers that a double holds exactly and prints as a plain numeral. *)
Definition safe_integer (z : Z) : Prop := Z.abs z <= 9007199254740991.

(** A number that JSON text can denote: a finite double. *)
Definition JSON_number (n : number) : Prop :=
  match n with
  | Fin q => Number_value q = Fin q
  | _ => False
  end.

(** The player object the room hands out; [position] is [null] for a
    player who is not on the field. *)
Module Player.

Record t : Type := mk {
  id : Z;
  name : string;
  team : Z;
  admin : bool;
  position : option (number * number);
  auth : string;
  conn : string
}.

(** A player object with JSON-representable attributes: the id and the
    team are integers that are doubles, the coordinates are finite doubles. *)
Definition representable (p : t) : Prop :=
  JSON_number (of_Z (id p)) /\ JSON_number (of_Z (team p)) /\
  match position p with
  | None => True
  | Some (x, y) => JSON_number x /\ JSON_number y
  end.

End Player.

(** The same player object seen as a stored value. *)
Definition snapshot (p : Player.t) : json :=
  JObj [ ("id", JNum (of_Z (Player.id p)));
         ("name", JStr (Player.name p));
         ("team", JNum (of_Z (Player.team p)));
         ("admin", JBool (Player.admin p));
         ("position", match Player.position p with
                      | None => JNull
                      | Some (x, y) => JObj [("x", JNum x); ("y", JNum y)]
                      end);
         ("auth", JStr (Player.auth p));
         ("conn", JStr (Player.conn p)) ].

(** ** [Map] with string keys

    Entries are kept in insertion order; [set] on a present key replaces
    the value where it stands, [set] on a new key appends. *)

Definition Map : Type := list (string * json).

Fixpoint Map_get (k : string) (m : Map) : option json :=
  match m with
  | [] => None
  | (k', v) :: r => if String.eqb k' k then Some v else Map_get k r
  end.

Definition Map_has (k : string) (m : Map) : bool :=
  match Map_get k m with Some _ => true | None => false end.

Fixpoint Map_set (k : string) (v : json) (m : Map) : Map :=
  match m with
  | [] => [(k, v)]
  | (k', v') :: r =>
      if String.eqb k' k then (k', v) :: r else (k', v') :: Map_set k v r
  end.

Fixpoint Map_delete (k : string) (m : Map) : Map :=
  match m with
  | [] => []
  | (k', v') :: r =>
      if String.eqb k' k then r else (k', v') :: Map_delete k r
  end.

Definition Map_keys (m : Map) : list string := map fst m.

Definition Map_values (m : Map) : list json := map snd m.

Definition Map_size (m : Map) : nat := List.length m.

Definition Map_clear (m : Map) : Map := [].

(** A list of entries is a map when no key occurs twice. *)
Definition Map_wf (m : Map) : Prop := NoDup (Map_keys m).

(** ** Plain objects: own properties and their enumeration order *)

(** The array index a property key denotes, if it is one: a canonical
    decimal numeral of at most 2^32 - 2. *)
Definition array_index (k : string) : option N :=
  let n := MV (fst (DecimalDigits k)) in
  if (String.eqb (numeral (Z.of_N n)) k && (n <=? 4294967294)%N)%bool
  then Some n else None.

Definition is_array_index (k : string) : bool :=
  match array_index k with Some _ => true | None => false end.

(** [CreateDataProperty]: define or overwrite an own property. *)
Definition CreateDataProperty (k : string) (v : json) (props : Map) : Map :=
  Map_set k v props.

(** [obj[k] = v] on an object created by [{}]: the key [__proto__] reaches
    the accessor inherited from [Object.prototype], which replaces the
    prototype and defines no own property. *)
Definition object_set (k : string) (v : json) (props : Map) : Map :=
  if String.eqb k "__proto__" then props else CreateDataProperty k v props.

Fixpoint insert_index (n : N) (k : string) (v : json) (l : Map) : Map :=
  match l with
  | [] => [(k, v)]
  | (k', v') :: r =>
      match array_index k' with
      | Some n' =>
          if (n <=? n')%N then (k, v) :: l else (k', v') :: insert_index n k v r
      | None => (k, v) :: l
      end
  end.

(** The array-index properties, in ascending index order. *)
Fixpoint integer_keys (props : Map) : Map :=
  match props with
  | [] => []
  | (k, v) :: r =>
      match array_index k with
      | Some n => insert_index n k v (integer_keys r)
      | None => integer_keys r
      end
  end.

(** The other properties, in creation order. *)
Definition string_keys (props : Map) : Map :=
  filter (fun kv => negb (is_array_index (fst kv))) props.

(** [OrdinaryOwnPropertyKeys], with each key's value alongside. *)
Definition OrdinaryOwnPropertyKeys (props : Map) : Map :=
  (integer_keys props ++ string_keys props)%list.

(** ** [JSON.stringify] *)

Definition hex_digit (n : N) : char16 :=
  Char16 zero (ascii_of_N (if (n <? 10)%N then 48 + n else 87 + n)).

Definition dquote : char16 := Char16 zero (ascii_of_nat 34).

(** [\uXXXX] with lower-case hexadecimal digits. *)
Definition unicode_escape (c : char16) : string :=
  match c with
  | Char16 h l =>
      String "\" (String "u"
        (String (hex_digit (N_of_ascii h / 16)) (String (hex_digit (N_of_ascii h mod 16))
        (String (hex_digit (N_of_ascii l / 16)) (String (hex_digit (N_of_ascii l mod 16))
         EmptyString)))))
  end.

(** The first half of a surrogate pair: D800 to DBFF. *)
Definition is_lead (c : char16) : bool :=
  match c with
  | Char16 h _ => ((216 <=? N_of_ascii h) && (N_of_ascii h <=? 219))%N
  end.

(** The second half of a surrogate pair: DC00 to DFFF. *)
Definition is_trail (c : char16) : bool :=
  match c with
  | Char16 h _ => ((220 <=? N_of_ascii h) && (N_of_ascii h <=? 223))%N
  end.

(** A code unit that is no surrogate, as [QuoteJSONString] writes it. *)
Definition quote_char (c : char16) : string :=
  match Char16.latin1 c with
  | Some 8%N => "\b"
  | Some 9%N => "\t"
  | Some 10%N => "\n"
  | Some 12%N => "\f"
  | Some 13%N => "\r"
  | Some 34%N => String "\" (String dquote EmptyString)
  | Some 92%N => "\\"
  | Some n => if (n <? 32)%N then unicode_escape c else String c EmptyString
  | None => String c EmptyString
  end.

(** The code units of a string as [QuoteJSONString] writes them: a
    surrogate pair is written as it is, a surrogate that stands alone is
    escaped. *)
Fixpoint quote_chars (s : string) : string :=
  match s with
  | EmptyString => EmptyString
  | String c r =>
      if is_lead c then
        match r with
        | String d r' =>
            if is_trail d then String c (String d (quote_chars r'))
            else unicode_escape c ++ quote_chars r
        | EmptyString => unicode_escape c
        end
      else if is_trail c then unicode_escape c ++ quote_chars r
      else quote_char c ++ quote_chars r
  end.

Definition QuoteJSONString (s : string) : string :=
  String dquote (quote_chars s ++ String dquote EmptyString).

(** Items separated by commas. *)
Fixpoint commas (items : list string) : string :=
  match items with
  | [] => EmptyString
  | [x] => x
  | x :: r => x ++ String "," (commas r)
  end.

(** A finite number is written by [Number::toString]; [NaN] and the
    infinities are written as [null]. *)
Fixpoint JSON_stringify (j : json) : string :=
  match j with
  | JNull => "null"
  | JBool true => "true"
  | JBool false => "false"
  | JNum (Fin q) => Number_toString (Fin q)
  | JNum _ => "null"
  | JStr s => QuoteJSONString s
  | JArr elems => String "[" (commas (map JSON_stringify elems) ++ "]")
  | JObj props =>
      String "{"
        (commas (map (fun kv => QuoteJSONString (fst kv) ++ String ":" (JSON_stringify (snd kv)))
                     props) ++ "}")
  end.

(** ** [JSON.parse]

    A recursive-descent reader of JSON text.  [None] stands for the
    [SyntaxError] the built-in throws. *)

Definition is_json_ws (c : char16) : bool :=
  match Char16.latin1 c with
  | Some (9 | 10 | 13 | 32)%N => true
  | _ => false
  end.

Fixpoint skip_ws (s : string) : string :=
  match s with
  | String c r => if is_json_ws c then skip_ws r else s
  | EmptyString => EmptyString
  end.

Definition unescape (e : char16) : option char16 :=
  match Char16.latin1 e with
  | Some 34%N => Some dquote
  | Some 92%N => Some "\"%char16
  | Some 47%N => Some "/"%char16
  | Some 98%N => Some (Char16.of_code 8)
  | Some 102%N => Some (Char16.of_code 12)
  | Some 110%N => Some (Char16.of_code 10)
  | Some 114%N => Some (Char16.of_code 13)
  | Some 116%N => Some (Char16.of_code 9)
  | _ => None
  end.

Definition hex4 (a b c d : char16) : option N :=
  match digit_in_base 16 a, digit_in_base 16 b, digit_in_base 16 c, digit_in_base 16 d with
  | Some x, Some y, Some z, Some w => Some (((x * 16 + y) * 16 + z) * 16 + w)%N
  | _, _, _, _ => None
  end.

(** The code units below U+0020, which a string literal must escape. *)
Definition is_control (c : char16) : bool :=
  match Char16.latin1 c with
  | Some n => (n <? 32)%N
  | None => false
  end.

Definition cons_char (c : char16) (r : option (string * string)) : option (string * string) :=
  match r with
  | Some (s, rest) => Some (String c s, rest)
  | None => None
  end.

(** The characters of a string literal after its opening quote, and the
    text after its closing quote. *)
Fixpoint parse_chars (s : string) : option (string * string) :=
  match s with
  | EmptyString => None
  | String c r =>
      if Char16.eqb c dquote then Some (EmptyString, r)
      else if Char16.eqb c "\" then
        match r with
        | String e r' =>
            if Char16.eqb e "u" then
              match r' with
              | String h1 (String h2 (String h3 (String h4 r''))) =>
                  match hex4 h1 h2 h3 h4 with
                  | Some n => cons_char (Char16.of_code n) (parse_chars r'')
                  | None => None
                  end
              | _ => None
              end
            else
              match unescape e with
              | Some c' => cons_char c' (parse_chars r')
              | None => None
              end
        | EmptyString => None
        end
      else if is_control c then None
      else cons_char c (parse_chars r)
  end.

(** A number literal without its sign: an integer part without a
    superfluous leading zero, then an optional fraction and an optional
    exponent with a digit each at least.  Its value is the Number value of
    what it denotes. *)
Definition parse_unsigned_number (s : string) : option (number * string) :=
  let (ip, r1) := DecimalDigits s in
  match ip with
  | [] => None
  | 0%N :: _ :: _ => None
  | _ =>
      let fraction :=
        match r1 with
        | String "." r =>
            match DecimalDigits r with
            | ([], _) => None
            | (fp, r2) => Some (fp, r2)
            end
        | _ => Some ([], r1)
        end in
      match fraction with
      | None => None
      | Some (fp, r2) =>
          let exponent :=
            match r2 with
            | String c r =>
                if (Char16.eqb c "e" || Char16.eqb c "E")%bool then
                  let '(eneg, r3) :=
                    match r with
                    | String "+" r' => (false, r')
                    | String "-" r' => (true, r')
                    | _ => (false, r)
                    end in
                  match DecimalDigits r3 with
                  | ([], _) => None
                  | (ds, r4) =>
                      let e := Z.of_N (MV ds) in
                      Some (if eneg : bool then - e else e, r4)
                  end
                else Some (0, r2)
            | EmptyString => Some (0, r2)
            end in
          match exponent with
          | None => None
          | Some (e, rest) => Some (Number_value (decimal_value ip fp e), rest)
          end
      end
  end.

(** A number literal, with its minus sign if it has one. *)
Definition parse_number (s : string) : option (number * string) :=
  match s with
  | String "-" r =>
      match parse_unsigned_number r with
      | Some (n, rest) => Some (negate n, rest)
      | None => None
      end
  | _ => parse_unsigned_number s
  end.

(** What [JSON.parse] makes of an object literal's members: each is
    defined in turn (a later duplicate overwrites), and the result is read
    back in enumeration order. *)
Definition object_of_members (members : list (string * json)) : json :=
  JObj (OrdinaryOwnPropertyKeys
          (fold_left (fun o kv => CreateDataProperty (fst kv) (snd kv) o) members [])).

Fixpoint strip_prefix (lit s : string) : option string :=
  match lit with
  | EmptyString => Some s
  | String a lit' =>
      match s with
      | String b r => if Char16.eqb a b then strip_prefix lit' r else None
      | EmptyString => None
      end
  end.

Definition expect (lit : string) (j : json) (s : string) : option (json * string) :=
  match strip_prefix lit s with
  | Some rest => Some (j, rest)
  | None => None
  end.

Fixpoint parse_value (fuel : nat) (s : string) : option (json * string) :=
  match fuel with
  | O => None
  | S fuel =>
      match skip_ws s with
      | EmptyString => None
      | String c r as t =>
          if Char16.eqb c "n" then expect "null" JNull t
          else if Char16.eqb c "t" then expect "true" (JBool true) t
          else if Char16.eqb c "f" then expect "false" (JBool false) t
          else if Char16.eqb c dquote then
            match parse_chars r with
            | Some (str, rest) => Some (JStr str, rest)
            | None => None
            end
          else if Char16.eqb c "[" then
            match skip_ws r with
            | EmptyString => None
            | String c' rest =>
                if Char16.eqb c' "]" then Some (JArr [], rest)
                else
                  match parse_elems fuel r with
                  | Some (elems, rest') => Some (JArr elems, rest')
                  | None => None
                  end
            end
          else if Char16.eqb c "{" then
            match skip_ws r with
            | EmptyString => None
            | String c' rest =>
                if Char16.eqb c' "}" then Some (JObj [], rest)
                else
                  match parse_members fuel r with
                  | Some (members, rest') => Some (object_of_members members, rest')
                  | None => None
                  end
            end
          else
            match parse_number t with
            | Some (n, rest) => Some (JNum n, rest)
            | None => None
            end
      end
  end

with parse_elems (fuel : nat) (s : string) : option (list json * string) :=
  match fuel with
  | O => None
  | S fuel =>
      match parse_value fuel s with
      | Some (v, rest) =>
          match skip_ws rest with
          | EmptyString => None
          | String c rest' =>
              if Char16.eqb c "," then
                match parse_elems fuel rest' with
                | Some (vs, rest'') => Some (v :: vs, rest'')
                | None => None
                end
              else if Char16.eqb c "]" then Some ([v], rest')
              else None
          end
      | None => None
      end
  end

with parse_members (fuel : nat) (s : string) : option (list (string * json) * string) :=
  match fuel with
  | O => None
  | S fuel =>
      match skip_ws s with
      | EmptyString => None
      | String c r =>
          if Char16.eqb c dquote then
            match parse_chars r with
            | Some (k, rest) =>
                match skip_ws rest with
                | EmptyString => None
                | String c1 rest1 =>
                    if Char16.eqb c1 ":" then
                      match parse_value fuel rest1 with
                      | Some (v, rest2) =>
                          match skip_ws rest2 with
                          | EmptyString => None
                          | String c2 rest3 =>
                              if Char16.eqb c2 "," then
                                match parse_members fuel rest3 with
                                | Some (kvs, rest4) => Some ((k, v) :: kvs, rest4)
                                | None => None
                                end
                              else if Char16.eqb c2 "}" then Some ([(k, v)], rest3)
                              else None
                          end
                      | None => None
                      end
                    else None
                end
            | None => None
            end
          else None
      end
  end.

Definition JSON_parse (text : string) : option json :=
  match parse_value (S (String.length text)) text with
  | Some (j, rest) =>
      match skip_ws rest with
      | EmptyString => Some j
      | String _ _ => None
      end
  | None => None
  end.

(** ** The plugin: persisted form of the mute map *)

(** [serializeMuteMap(muteMap)]: copy the entries into a fresh [{}] by
    assignment, then stringify it. *)
Definition serializeMuteMap (muteMap : Map) : string :=
  let serializedMuteMap :=
    fold_left (fun o kv => object_set (fst kv) (snd kv) o) muteMap [] in
  JSON_stringify (JObj (OrdinaryOwnPropertyKeys serializedMuteMap)).

Definition singletons (s : string) : list json :=
  map (fun c => JStr (String c EmptyString)) (String.to_list s).

Fixpoint indexed (i : nat) (l : list json) : Map :=
  match l with
  | [] => []
  | v :: r => (numeral (Z.of_nat i), v) :: indexed (S i) r
  end.

(** [Object.getOwnPropertyNames(obj)] paired with [obj[key]]; [None] is
    the [TypeError] raised on [null]. *)
Definition getOwnPropertyNames (obj : json) : option Map :=
  match obj with
  | JNull => None
  | JBool _ | JNum _ => Some []
  | JStr s =>
      Some (indexed 0 (singletons s)
              ++ [("length", JNum (of_Z (Z.of_nat (String.length s))))])%list
  | JArr elems =>
      Some (indexed 0 elems
              ++ [("length", JNum (of_Z (Z.of_nat (List.length elems))))])%list
  | JObj props => Some props
  end.

(** [deserializeMuteMap(data)]; [None] when the source throws. *)
Definition deserializeMuteMap (data : string) : option Map :=
  match JSON_parse data with
  | None => None
  | Some obj =>
      match getOwnPropertyNames obj with
      | None => None
      | Some entries =>
          Some (fold_left (fun deserializedMuteMap kv =>
                             Map_set (fst kv) (snd kv) deserializedMuteMap)
                          entries [])
      end
  end.

(** ** The room: state, effects, outcomes *)

(** A template literal: fixed text and spliced command arguments (the
    splice stands for the argument's string conversion). *)
Inductive chunk : Type :=
| Lit (s : string)
| Sub (v : value).

Definition text : Type := list chunk.

(** What the plugin does to its hosts, in order. *)
Inductive event : Type :=
| Announce (msg : text) (targetId : option Z) (color : Z)
| LongAnnounce (msg : text) (targetId : Z) (color : Z)
| Persist (data : string).

Record Config : Type := mkConfig {
  muteMessage : string;
  protectedRoles : option (list string);
  allowedRoles : list string;
  allowTalkingWhenCaptain : bool
}.

(** The [sav/roles] plugin. *)
Record Roles : Type := mkRoles {
  hasPlayerRole : Z -> string -> bool
}.

Record World : Type := mkWorld {
  muteMap : Map;
  playerList : list Player.t;
  config : Config;
  roles : option Roles;
  trace : list event
}.

Inductive outcome (A : Type) : Type :=
| Return (a : A)
| Throw.

Arguments Return {A} a.
Arguments Throw {A}.

(** A computation reads and writes the world and may throw; what it wrote
    before throwing stays written. *)
Definition M (A : Type) : Type := World -> outcome A * World.

Definition ret {A} (a : A) : M A := fun w => (Return a, w).

Definition throw {A} : M A := fun w => (Throw, w).

Definition bind {A B} (c : M A) (k : A -> M B) : M B :=
  fun w =>
    match c w with
    | (Return a, w') => k a w'
    | (Throw, w') => (Throw, w')
    end.

Declare Scope js_scope.
Delimit Scope js_scope with js.
Notation "x <- c ;; k" := (bind c (fun x => k))
  (at level 61, c at next level, right associativity) : js_scope.
Notation "c ;; k" := (bind c (fun _ => k))
  (at level 61, right associativity) : js_scope.
#[local] Open Scope js_scope.

Definition getMuteMap : M Map := fun w => (Return (muteMap w), w).

Definition with_muteMap (m : Map) (w : World) : World :=
  mkWorld m (playerList w) (config w) (roles w) (trace w).

Definition with_event (e : event) (w : World) : World :=
  mkWorld (muteMap w) (playerList w) (config w) (roles w) (trace w ++ [e])%list.

Definition setMuteMap (m : Map) : M unit :=
  fun w => (Return tt, with_muteMap m w).

Definition getPlayerList : M (list Player.t) := fun w => (Return (playerList w), w).

Definition getConfig {A} (option_ : Config -> A) : M A :=
  fun w => (Return (option_ (config w)), w).

Definition getPlugin_roles : M (option Roles) := fun w => (Return (roles w), w).

Definition emit (e : event) : M unit :=
  fun w => (Return tt, with_event e w).

Definition red : Z := 0xff0000.

Definition green : Z := 0x00ff00.

Definition sendAnnouncement (msg : text) (targetId : option Z) (color : Z) : M unit :=
  emit (Announce msg targetId color).

(** Modelled from the spec: the player directory, [room.getPlayer].  Given
    a numeric identifier it returns the player in the room with that id, or
    not-found; the invalid identifier finds nobody. *)
Definition getPlayer (playerId : value) : M (option Player.t) :=
  players <- getPlayerList ;;
  ret (match playerId with
       | VNum n => find (fun p => number_eqb n (of_Z (Player.id p))) players
       | _ => None
       end).

(** Modelled from the spec: the role service's [ensurePlayerRoles], true
    when the player holds at least one of the required roles. *)
Definition ensurePlayerRoles (r : Roles) (playerId : Z) (required : list string) : bool :=
  existsb (hasPlayerRole r playerId) required.

(** ** The plugin: mute map operations *)

Definition handlePersistData : M string :=
  m <- getMuteMap ;; ret (serializeMuteMap m).

(** Modelled from the spec: the persistence host's [persistPluginData],
    which asks the plugin's persist hook for the blob and stores it. *)
Definition persistPluginData : M unit :=
  data <- handlePersistData ;; emit (Persist data).

Definition mutePlayer (player : Player.t) : M unit :=
  m <- getMuteMap ;;
  setMuteMap (Map_set (Player.conn player) (snapshot player) m) ;;
  persistPluginData.

(** [i === indexOrPlayerId] for the numeric loop counter [i]. *)
Definition counter_strict_eq (i : nat) (v : value) : bool :=
  match v with
  | VNum n => number_eqb (of_Z (Z.of_nat i)) n
  | _ => false
  end.

(** The [for ... of muteMap.keys()] loop of [removeMute]. *)
Fixpoint removeMute_loop (keys : list string) (i : nat) (indexOrPlayerId : value)
  : M (option json) :=
  match keys with
  | [] => ret None
  | key :: rest =>
      if counter_strict_eq i indexOrPlayerId then
        m <- getMuteMap ;;
        let removedPlayer := Map_get key m in
        setMuteMap (Map_delete key m) ;;
        persistPluginData ;;
        ret removedPlayer
      else removeMute_loop rest (S i) indexOrPlayerId
  end.

Definition is_hash_string (v : value) : bool :=
  match v with
  | VStr s => startsWith s "#"
  | _ => false
  end.

(** [removeMute(indexOrPlayerId)]; [None] is the source's [null]. *)
Definition removeMute (indexOrPlayerId : value) : M (option json) :=
  if is_hash_string indexOrPlayerId then
    removedPlayer <- getPlayer (parseId indexOrPlayerId) ;;
    m <- getMuteMap ;;
    match removedPlayer with
    | None => ret None
    | Some p =>
        if negb (Map_has (Player.conn p) m) then ret None
        else
          setMuteMap (Map_delete (Player.conn p) m) ;;
          persistPluginData ;;
          ret (Some (snapshot p))
    end
  else
    let index := ToNumber indexOrPlayerId in
    if isNaN index then ret None
    else
      m <- getMuteMap ;;
      removeMute_loop (Map_keys m) 0 indexOrPlayerId.

Definition isPlayerTeamCaptain (player : Player.t) : M bool :=
  playerList <- getPlayerList ;;
  let redTeamCap := find (fun p => Player.team p =? 1) playerList in
  let blueTeamCap := find (fun p => Player.team p =? 2) playerList in
  let is_player cap :=
    match cap with
    | Some c => Player.id c =? Player.id player
    | None => false
    end in
  if (is_player redTeamCap || is_player blueTeamCap)%bool then ret true else ret false.

Definition findPlayerInRoomWithConn (conn : option json) : M (option Player.t) :=
  players <- getPlayerList ;;
  ret (find (fun p => match conn with
                      | Some (JStr c) => String.eqb (Player.conn p) c
                      | _ => false
                      end) players).

(** The [for ... of protectedRoles] loop; calling a method of an absent
    roles plugin throws. *)
Fixpoint isPlayerProtected_loop (r : option Roles) (playerId : Z) (protected : list string)
  : M bool :=
  match protected with
  | [] => ret false
  | role :: rest =>
      match r with
      | None => throw
      | Some r' =>
          if hasPlayerRole r' playerId role then ret true
          else isPlayerProtected_loop r playerId rest
      end
  end.

Definition isPlayerProtected (playerId : Z) : M bool :=
  protectedRoles <- getConfig protectedRoles ;;
  match protectedRoles with
  | None => ret false
  | Some protected =>
      r <- getPlugin_roles ;;
      isPlayerProtected_loop r playerId protected
  end.

Definition isPlayerAllowedToRunCommand (player : Player.t) : M bool :=
  r <- getPlugin_roles ;;
  match r with
  | None => ret false
  | Some r' =>
      allowed <- getConfig allowedRoles ;;
      ret (ensurePlayerRoles r' (Player.id player) allowed)
  end.

Definition handleRestoreData (data : option string) : M unit :=
  match data with
  | None => ret tt
  | Some blob =>
      match deserializeMuteMap blob with
      | Some m => setMuteMap m
      | None => throw
      end
  end.

(** ** Stored values used as JavaScript values *)

(** Truthiness of what [removeMute] returned. *)
Definition truthy (v : option json) : bool :=
  match v with
  | None | Some JNull => false
  | Some (JBool b) => b
  | Some (JNum n) => negb (number_eqb n (of_Z 0) || isNaN n)
  | Some (JStr s) => negb (String.eqb s EmptyString)
  | Some (JArr _) | Some (JObj _) => true
  end.

(** [v.key] for a [v] other than [null]; [None] is [undefined]. *)
Definition get_property (v : json) (key : string) : option json :=
  match v with
  | JObj props => Map_get key props
  | JArr elems =>
      if String.eqb key "length" then Some (JNum (of_Z (Z.of_nat (List.length elems))))
      else match array_index key with
           | Some i => nth_error elems (N.to_nat i)
           | None => None
           end
  | JStr s =>
      if String.eqb key "length" then Some (JNum (of_Z (Z.of_nat (String.length s))))
      else match array_index key with
           | Some i => nth_error (singletons s) (N.to_nat i)
           | None => None
           end
  | _ => None
  end.

Fixpoint sequence {A} (l : list (option A)) : option (list A) :=
  match l with
  | [] => Some []
  | Some a :: r =>
      match sequence r with
      | Some r' => Some (a :: r')
      | None => None
      end
  | None :: _ => None
  end.

(** String conversion inside a template literal; [None] is the
    [TypeError] raised for an object whose own property [toString] hides
    the inherited method: a stored value holds no function, and the
    inherited [valueOf] answers with the object itself.  An array is
    joined with commas, its [null] elements giving nothing. *)
Fixpoint json_ToString (v : json) : option string :=
  match v with
  | JNull => Some "null"
  | JBool true => Some "true"
  | JBool false => Some "false"
  | JNum n => Some (Number_toString n)
  | JStr s => Some s
  | JArr elems =>
      match sequence (map (fun e => match e with
                                    | JNull => Some EmptyString
                                    | _ => json_ToString e
                                    end) elems) with
      | Some parts => Some (commas parts)
      | None => None
      end
  | JObj props => if Map_has "toString" props then None else Some "[object Object]"
  end.

Definition ToString (v : option json) : option string :=
  match v with
  | None => Some "undefined"
  | Some j => json_ToString j
  end.

(** ** The plugin: commands *)

Definition onCommand1_mute (byPlayer : Player.t) (args : list value) : M unit :=
  let id := nth 0 args VUndefined in
  allowed <- isPlayerAllowedToRunCommand byPlayer ;;
  if negb allowed then ret tt
  else
    player <- getPlayer (parseId id) ;;
    match player with
    | None =>
        sendAnnouncement [Lit "No player with id "; Sub id; Lit "."]
                         (Some (Player.id byPlayer)) red
    | Some player =>
        protected <- isPlayerProtected (Player.id player) ;;
        if protected : bool then
          sendAnnouncement [Lit "This player has immunity for mutes."]
                           (Some (Player.id byPlayer)) red
        else
          mutePlayer player ;;
          sendAnnouncement [Lit "Player "; Lit (Player.name player); Lit " muted."]
                           (Some (Player.id byPlayer)) green ;;
          sendAnnouncement [Lit "You have been muted."] (Some (Player.id player)) red
    end.

Definition could_not_unmute (muteNumber : value) : text :=
  [Lit "Could not unmute "; Sub muteNumber; Lit "! ";
   Lit "Make sure the argument is either a number listed ";
   Lit "in !mutelist or player ID prefixed with #."].

Definition onCommand1_unmute (byPlayer : Player.t) (args : list value) : M unit :=
  let muteNumber := nth 0 args VUndefined in
  allowed <- isPlayerAllowedToRunCommand byPlayer ;;
  if negb allowed then ret tt
  else
    unmutedPlayer <- removeMute muteNumber ;;
    if negb (truthy unmutedPlayer) then
      sendAnnouncement (could_not_unmute muteNumber) (Some (Player.id byPlayer)) red
    else
      let property key :=
        match unmutedPlayer with
        | Some v => get_property v key
        | None => None
        end in
      match ToString (property "name") with
      | None => throw
      | Some name =>
          sendAnnouncement [Lit "Player "; Lit name; Lit " unmuted."]
                           (Some (Player.id byPlayer)) green ;;
          playerInRoom <- findPlayerInRoomWithConn (property "conn") ;;
          match playerInRoom with
          | Some p =>
              sendAnnouncement [Lit "You have been unmuted."] (Some (Player.id p)) green
          | None => ret tt
          end
      end.

Definition onCommand0_clearmutes (byPlayer : Player.t) : M unit :=
  allowed <- isPlayerAllowedToRunCommand byPlayer ;;
  if negb allowed then ret tt
  else
    m <- getMuteMap ;;
    setMuteMap (Map_clear m) ;;
    sendAnnouncement [Lit "All mutes cleared!"] None green.

(** The lines of [!mutelist]; reading [name] off a stored [null] throws,
    and so does a name that has no string conversion. *)
Fixpoint mutelist_lines (i : nat) (values : list json) : option (list string) :=
  match values with
  | [] => Some []
  | p :: rest =>
      match p with
      | JNull => None
      | _ =>
          match ToString (get_property p "name"), mutelist_lines (S i) rest with
          | Some name, Some lines =>
              Some ((numeral (Z.of_nat i) ++ " - " ++ name) :: lines)
          | _, _ => None
          end
      end
  end.

Definition newline : string := String (Char16.of_code 10) EmptyString.

Definition onCommand0_mutelist (byPlayer : Player.t) : M unit :=
  allowed <- isPlayerAllowedToRunCommand byPlayer ;;
  if negb allowed then ret tt
  else
    m <- getMuteMap ;;
    if (Map_size m =? 0)%nat then
      sendAnnouncement [Lit "No muted players."] (Some (Player.id byPlayer)) red
    else
      sendAnnouncement [Lit "MUTE_NUMBER - PLAYER"] (Some (Player.id byPlayer)) green ;;
      match mutelist_lines 0 (Map_values m) with
      | Some mutelist =>
          emit (LongAnnounce [Lit (String.concat newline mutelist)]
                             (Player.id byPlayer) green)
      | None => throw
      end.

(** ** The plugin: exports and event handlers *)

Definition isMuted (player : Player.t) : M bool :=
  m <- getMuteMap ;; ret (Map_has (Player.conn player) m).

(** [handlePlayerChat(player)]: [VUndefined] lets the message through,
    [VBool false] suppresses it. *)
Definition handlePlayerChat (player : Player.t) : M value :=
  muted <- isMuted player ;;
  if muted : bool then
    allow <- getConfig allowTalkingWhenCaptain ;;
    captain <- (if allow : bool then isPlayerTeamCaptain player else ret false) ;;
    if captain : bool then ret VUndefined
    else
      msg <- getConfig muteMessage ;;
      sendAnnouncement [Lit msg] (Some (Player.id player)) red ;;
      ret (VBool false)
  else ret VUndefined.

(** ** Players and rooms used in examples *)

Definition alice : Player.t :=
  Player.mk 3 "alice" 1 false (Some (Fin (-211 # 2), Fin (1 # 4))) "a-key"
            "3139322E302E322E31".

Definition bob : Player.t :=
  Player.mk 5 "b\ob" 2 true None "b-key" "12".

Definition carol : Player.t :=
  Player.mk 7 "carol" 2 false None "c-key" "3130".


Definition default_config : Config :=
  mkConfig "You cannot send messages because you are muted."
           (Some ["host"; "admin"]) ["admin"; "admin"] false.

(** bob is an admin, alice and carol are plain players. *)
Definition room_roles : Roles :=
  mkRoles (fun playerId role =>
             ((playerId =? 5) && String.eqb role "admin")
             || String.eqb role "player")%bool.

Definition room0 : World :=
  mkWorld [] [alice; bob; carol] default_config (Some room_roles) [].

(** carol, first of the blue team after bob is removed from the list, muted. *)
Definition room_chat (allow : bool) : World :=
  mkWorld [(Player.conn carol, snapshot carol)] [alice; carol]
          (mkConfig "muted!" None [] allow) None [].

(** The scenario of the specification: the actor holds only the role
    "player" and [allowedRoles] is ["admin"]. *)
Definition room_player_only : World :=
  mkWorld [(Player.conn carol, snapshot carol)] [alice; bob; carol]
          (mkConfig "muted!" (Some ["host"; "admin"]) ["admin"] false)
          (Some room_roles) [].

Definition room_two_muted : World :=
  mkWorld [(Player.conn alice, snapshot alice); (Player.conn carol, snapshot carol)]
          [alice; bob; carol] default_config (Some room_roles) [].

Definition room_three_muted : World :=
  mkWorld [(Player.conn alice, snapshot alice); (Player.conn bob, snapshot bob);
           (Player.conn carol, snapshot carol)]
          [alice; bob; carol] default_config (Some room_roles) [].

(** carol was muted, then made an admin. *)
Definition room_promoted : World :=
  mkWorld [(Player.conn carol, snapshot carol)] [alice; bob; carol] default_config
          (Some (mkRoles (fun playerId role =>
                            ((playerId =? 5) || (playerId =? 7)) && String.eqb role "admin")%bool))
          [].

(** ** Notions the properties are stated with *)

Definition first_of_team (t : Z) (w : World) : option Player.t :=
  find (fun p => Player.team p =? t) (playerList w).

Definition first_listed (player : Player.t) (w : World) : Prop :=
  (exists c, first_of_team 1 w = Some c /\ Player.id c = Player.id player) \/
  (exists c, first_of_team 2 w = Some c /\ Player.id c = Player.id player).

(** What the specification says of the source: the key goes to the end. *)
Definition moved_to_end (k : string) (before after : list string) : Prop :=
  after = (filter (fun k' => negb (String.eqb k' k)) before ++ [k])%list.

Definition is_Persist (e : event) : bool :=
  match e with Persist _ => true | _ => false end.

Definition removed_at (key : string) (w : World) : outcome (option json) * World :=
  let m' := Map_delete key (muteMap w) in
  (Return (Map_get key (muteMap w)),
   with_event (Persist (serializeMuteMap m')) (with_muteMap m' w)).

Fixpoint string_exists (P : char16 -> bool) (s : string) : bool :=
  match s with
  | EmptyString => false
  | String c r => (P c || string_exists P r)%bool
  end.


Definition is_digit (c : char16) : bool :=
  match DecimalDigit c with Some _ => true | None => false end.

Definition starts_with_digit (s : string) : bool :=
  match s with
  | String c _ => is_digit c
  | EmptyString => false
  end.



(** A decimal literal as it is written: integer digits, then a point and
    fraction digits if there are any, then an exponent if there is one. *)
Definition write_decimal (ip fp : list N) (e : option Z) : string :=
  write_digits ip
  ++ match fp with
     | [] => EmptyString
     | _ => String "." (write_digits fp)
     end
  ++ match e with
     | None => EmptyString
     | Some e' => write_exponent e'
     end.

Definition exponent_of (e : option Z) : Z :=
  match e with
  | Some e' => e'
  | None => 0
  end.

(** Digits below ten, and an integer part that is there and has no
    superfluous zero in front. *)
Definition well_written (ip fp : list N) : Prop :=
  Forall (fun d => d < 10)%N ip /\ Forall (fun d => d < 10)%N fp /\
  match ip with
  | [] => False
  | 0%N :: _ :: _ => False
  | _ => True
  end.




Definition not_proto (kv : string * json) : bool :=
  negb (String.eqb (fst kv) "__proto__").

(** The worlds a sequence of mute and unmute operations leads to, from a
    world whose mute map is empty, the muted players being player objects
    with JSON-representable attributes. *)
Inductive reachable : World -> Prop :=
| reachable_start w : muteMap w = [] -> reachable w
| reachable_mute w player :
    reachable w -> Player.representable player ->
    reachable (snd (mutePlayer player w))
| reachable_unmute w indexOrPlayerId :
    reachable w -> reachable (snd (removeMute indexOrPlayerId w)).

Definition holds_representable (m : Map) : Prop :=
  Forall (fun kv => exists p, snd kv = snapshot p /\ Player.representable p) m.

Definition holds_snapshots (m : Map) : Prop :=
  Forall (fun kv => exists p, snd kv = snapshot p) m.

(** ** Notions of the JSON round trip *)

(** What may follow a value inside JSON text. *)
Definition terminated (rest : string) : bool :=
  match rest with
  | EmptyString => true
  | String c _ => (Char16.eqb c "," || Char16.eqb c "]" || Char16.eqb c "}")%bool
  end.

(** The first character of a written value. *)
Definition value_start (c : char16) : bool :=
  (is_digit c || string_exists (Char16.eqb c) "-ntf[{" || Char16.eqb c dquote)%bool.

(** Induction on stored values, with the hypothesis for every element
    and every property value. *)
Fixpoint json_ind (P : json -> Prop)
    (Hnull : P JNull) (Hbool : forall b, P (JBool b)) (Hnum : forall n, P (JNum n))
    (Hstr : forall s, P (JStr s))
    (Harr : forall elems, Forall P elems -> P (JArr elems))
    (Hobj : forall props, Forall (fun kv => P (snd kv)) props -> P (JObj props))
    (j : json) {struct j} : P j :=
  match j with
  | JNull => Hnull
  | JBool b => Hbool b
  | JNum n => Hnum n
  | JStr s => Hstr s
  | JArr elems =>
      Harr elems
        ((fix all (l : list json) : Forall P l :=
            match l with
            | [] => Forall_nil P
            | v :: r =>
                Forall_cons v (json_ind P Hnull Hbool Hnum Hstr Harr Hobj v) (all r)
            end) elems)
  | JObj props =>
      Hobj props
        ((fix all (l : list (string * json)) : Forall (fun kv => P (snd kv)) l :=
            match l with
            | [] => Forall_nil _
            | kv :: r =>
                Forall_cons kv (json_ind P Hnull Hbool Hnum Hstr Harr Hobj (snd kv)) (all r)
            end) props)
  end.

(** A stored value is JSON-representable when each number in it is a
    finite double and each object in it lists its properties as an object
    does: distinct keys in enumeration order. *)
Fixpoint wf_json (j : json) : Prop :=
  match j with
  | JNum n => JSON_number n
  | JArr elems =>
      (fix all (l : list json) : Prop :=
         match l with
         | [] => True
         | v :: r => wf_json v /\ all r
         end) elems
  | JObj props =>
      object_of_members props = JObj props /\
      (fix all (l : list (string * json)) : Prop :=
         match l with
         | [] => True
         | kv :: r => wf_json (snd kv) /\ all r
         end) props
  | _ => True
  end.

(** Fuel that suffices to read a value back. *)
Fixpoint need (j : json) : nat :=
  match j with
  | JArr elems =>
      S ((fix sum (l : list json) : nat :=
            match l with
            | [] => O
            | v :: r => S (need v + sum r)
            end) elems)
  | JObj props =>
      S ((fix sum (l : list (string * json)) : nat :=
            match l with
            | [] => O
            | kv :: r => S (need (snd kv) + sum r)
            end) props)
  | _ => 1%nat
  end.

Definition need_elems (l : list json) : nat :=
  fold_right (fun v acc => S (need v + acc)) O l.

Definition need_members (l : list (string * json)) : nat :=
  fold_right (fun kv acc => S (need (snd kv) + acc)) O l.

Definition write_member (kv : string * json) : string :=
  QuoteJSONString (fst kv) ++ String ":" (JSON_stringify (snd kv)).

Definition reads_back (j : json) : Prop :=
  forall fuel rest,
    (need j <= fuel)%nat -> terminated rest = true ->
    parse_value fuel (JSON_stringify j ++ rest) = Some (j, rest).

(** Fuel for which a reader, where it reads something, uses up characters
    and reads the same with any fuel that is no less than their number. *)
Definition enough {A} (parse : nat -> string -> option (A * string)) (fuel : nat) : Prop :=
  forall s r rest,
    parse fuel s = Some (r, rest) ->
    (String.length rest < String.length s)%nat /\
    forall fuel', (String.length s - String.length rest <= fuel')%nat ->
                  parse fuel' s = Some (r, rest).

Definition head_ge (n : N) (l : Map) : Prop :=
  match l with
  | [] => True
  | (k, _) :: _ => exists n', array_index k = Some n' /\ (n <= n')%N
  end.

(** Array-index keys only, in ascending order. *)
Inductive ascending : Map -> Prop :=
| ascending_nil : ascending []
| ascending_cons k v n l :
    array_index k = Some n -> head_ge n l -> ascending l -> ascending ((k, v) :: l).

(** ** Tactics *)

(** Case analysis on a code unit: on its high byte and, where that does
    not decide, on its low byte. *)
Ltac char16_cases c tac :=
  let h := fresh "h" in
  let l := fresh "l" in
  destruct c as [h l];
  destruct h as [[|] [|] [|] [|] [|] [|] [|] [|]];
  try (solve [tac]);
  destruct l as [[|] [|] [|] [|] [|] [|] [|] [|]];
  tac.

(** The case of no fuel at all, which the characters used rule out. *)
Ltac refuel f' :=
  let Hf := fresh "Hfuel" in
  intros [| f'] Hf; [cbn [String.length] in *; lia |].

Ltac run :=
  unfold handlePlayerChat, isMuted, isPlayerTeamCaptain, sendAnnouncement, emit,
    getConfig, getMuteMap, getPlayerList, setMuteMap, bind, ret; simpl.

(** ** The always-one-admin plugin *)

Definition with_playerList (players : list Player.t) (w : World) : World :=
  mkWorld (muteMap w) players (config w) (roles w) (trace w).

Definition set_admin (admin : bool) (p : Player.t) : Player.t :=
  Player.mk (Player.id p) (Player.name p) (Player.team p) admin
            (Player.position p) (Player.auth p) (Player.conn p).

(** The host's [room.setPlayerAdmin(playerID, admin)], which is not code of
    this repository: taken, as the comment at its call says, to give the
    admin status to the player with that id and to leave every other player
    and the order of the list as they are. *)
Definition setPlayerAdmin (playerID : Z) (admin : bool) : M unit :=
  fun w =>
    (Return tt,
     with_playerList
       (map (fun p => if Player.id p =? playerID then set_admin admin p else p)
            (playerList w)) w).

(** [updateAdmins()]; reading [players[0].id] off an empty list would throw. *)
Definition updateAdmins : M unit :=
  playerList <- getPlayerList ;;
  let players := filter (fun player => negb (Player.id player =? 0)) playerList in
  if (List.length players =? 0)%nat then ret tt
  else
    match find (fun player => Player.admin player) players with
    | Some _ => ret tt
    | None =>
        match players with
        | first :: _ => setPlayerAdmin (Player.id first) true
        | [] => throw
        end
    end.

Definition onPlayerJoin (player : Player.t) : M unit := updateAdmins.

Definition onPlayerLeave (player : Player.t) : M unit := updateAdmins.

(** ** Notions the further properties are stated with *)

(** A player other than the host. *)
Definition guest (p : Player.t) : bool := negb (Player.id p =? 0).

(** One player before and after: untouched, or made admin. *)
Definition kept_or_promoted (p p' : Player.t) : Prop :=
  p' = p \/ p' = set_admin true p.

Definition dave : Player.t :=
  Player.mk 8 "dave" 0 false None "d-key" "3132372E302E302E31".

Definition host : Player.t :=
  Player.mk 0 "host" 0 false None "h-key" "686F7374".

Definition room_no_admin : World :=
  mkWorld [] [host; alice; dave] default_config (Some room_roles) [].

(** The private notice of an unmute: it goes to the first player in the
    room whose connection string is that of the unmuted entry, if any. *)
Definition told_unmuted (p : Player.t) (players : list Player.t) : list event :=
  match find (fun q => String.eqb (Player.conn q) (Player.conn p)) players with
  | Some q => [Announce [Lit "You have been unmuted."] (Some (Player.id q)) green]
  | None => []
  end.

(** dave was muted and has left: the room lists alice, bob and carol. *)
Definition room_dave_left : World :=
  mkWorld [(Player.conn dave, snapshot dave)] [alice; bob; carol]
          default_config (Some room_roles) [].

(** dave was muted and has come back as player 11 on the same connection. *)
Definition room_dave_back : World :=
  mkWorld [(Player.conn dave, snapshot dave)]
          [bob; Player.mk 11 "dave" 0 false None "d-key" (Player.conn dave)]
          default_config (Some room_roles) [].

(** The handlers' footprint: the room's players, configuration and roles
    plugin are left alone, the trace only gets longer, and a mute map with
    distinct keys stays one. *)
Definition grows (w w' : World) : Prop :=
  playerList w' = playerList w /\ config w' = config w /\ roles w' = roles w /\
  (exists events, trace w' = (trace w ++ events)%list) /\
  (Map_wf (muteMap w) -> Map_wf (muteMap w')).

Definition orderly {A} (c : M A) : Prop := forall w, grows w (snd (c w)).

(** alice was muted; the persisted data was edited so that her entry is [null]. *)
Definition room_null_entry : World :=
  mkWorld [(Player.conn alice, JNull)] [alice; bob; carol]
          default_config (Some room_roles) [].

(** * Properties *)

(** ** The embedding at work *)

Example parseId_42 : parseId (VStr "42") = VNum (of_Z 42).
Proof. reflexivity. Qed.

Example parseId_h42 : parseId (VStr "#42") = VNum (of_Z 42).
Proof. reflexivity. Qed.

Example parseId_abc : parseId (VStr "abc") = VNull.
Proof. reflexivity. Qed.

Example parseId_habc : parseId (VStr "#abc") = VNull.
Proof. reflexivity. Qed.

Example parseId_hash : parseId (VStr "#") = VNum (of_Z 0).
Proof. reflexivity. Qed.

Example parseId_neg : parseId (VStr " -12 ") = VNum (of_Z (-12)).
Proof. reflexivity. Qed.

Example parseId_hex : parseId (VStr "0x1f") = VNum (of_Z 31).
Proof. reflexivity. Qed.

Example parseId_frac : parseId (VStr "1.5e1") = VNum (of_Z 15).
Proof. reflexivity. Qed.

Example parseId_inf : parseId (VStr "-Infinity") = VNum (Infinity true).
Proof. reflexivity. Qed.

Example parseId_1e : parseId (VStr "1e") = VNull.
Proof. reflexivity. Qed.

(** Conversion rounds to the nearest double: the text below denotes 3. *)
Example parseId_rounds : parseId (VStr "#3.0000000000000000001") = VNum (of_Z 3).
Proof. vm_compute. reflexivity. Qed.

Example StringToNumber_rounds_to_even :
  StringToNumber "9007199254740993" = of_Z 9007199254740992.
Proof. vm_compute. reflexivity. Qed.

Example StringToNumber_overflows : StringToNumber "1e400" = Infinity false.
Proof. vm_compute. reflexivity. Qed.

Example StringToNumber_tenth :
  StringToNumber "0.1" = Fin (3602879701896397 # 36028797018963968).
Proof. vm_compute. reflexivity. Qed.

Example StringToNumber_line_separator :
  StringToNumber (String (Char16.of_code 8232) "7") = of_Z 7.
Proof. vm_compute. reflexivity. Qed.

Example Number_toString_layouts :
  map Number_toString
      [of_Z 42; Fin (-211 # 2); Fin (3602879701896397 # 36028797018963968);
       of_Z 123456789012345683968; of_Z 1000000000000000000000;
       of_Z 99999999999999991611392; Fin (1 # 1048576);
       Fin (944473296573929 # 9444732965739290427392); Infinity true; NaN]
  = ["42"; "-105.5"; "0.1"; "123456789012345680000"; "1e+21"; "1e+23";
     "9.5367431640625e-7"; "1e-7"; "-Infinity"; "NaN"].
Proof. vm_compute. reflexivity. Qed.

Example numeral_m7 : numeral (-70) = "-70".
Proof. reflexivity. Qed.

Example JSON_parse_nested :
  JSON_parse " [1, -20, {}, [null ,true], 0, 1.5, -25e-2 ] "
  = Some (JArr [JNum (of_Z 1); JNum (of_Z (-20)); JObj []; JArr [JNull; JBool true];
                JNum (of_Z 0); JNum (Fin (3 # 2)); JNum (Fin (-1 # 4))]).
Proof. vm_compute. reflexivity. Qed.

Example JSON_parse_rejects :
  map JSON_parse ["[01]"; "[1.]"; "[.5]"; "[1e]"; "[-]"; "[+1]"; "{oops"; "[1,]"]
  = [None; None; None; None; None; None; None; None].
Proof. vm_compute. reflexivity. Qed.

(** An escape of a code unit above 255, a surrogate pair and a surrogate
    that stands alone. *)
Example JSON_parse_escapes :
  JSON_parse (String "[" (String dquote
                (String (Char16.of_code 321)
                   (String (Char16.of_code 55357)
                      (String (Char16.of_code 56832) ("\ude00" ++ String dquote "]"))))))
  = Some (JArr [JStr (String (Char16.of_code 321)
                        (String (Char16.of_code 55357)
                           (String (Char16.of_code 56832)
                              (String (Char16.of_code 56832) EmptyString))))]).
Proof. vm_compute. reflexivity. Qed.

Example serialize_example :
  deserializeMuteMap (serializeMuteMap [("zz", snapshot alice); ("12", snapshot bob)])
  = Some [("12", snapshot bob); ("zz", snapshot alice)].
Proof. vm_compute. reflexivity. Qed.

Example serialize_proto :
  serializeMuteMap [("__proto__", snapshot alice)] = "{}".
Proof. vm_compute. reflexivity. Qed.

Example mute_command_runs :
  onCommand1_mute bob [VStr "#3"] room0
  = (Return tt,
     mkWorld [(Player.conn alice, snapshot alice)] [alice; bob; carol]
             default_config (Some room_roles)
             [Persist (serializeMuteMap [(Player.conn alice, snapshot alice)]);
              Announce [Lit "Player "; Lit "alice"; Lit " muted."] (Some 5) green;
              Announce [Lit "You have been muted."] (Some 3) red]).
Proof. vm_compute. reflexivity. Qed.

(** The argument below denotes 3, alice's id. *)
Example mute_command_rounds :
  muteMap (snd (onCommand1_mute bob [VStr "#3.0000000000000000001"] room0))
  = [(Player.conn alice, snapshot alice)].
Proof. vm_compute. reflexivity. Qed.

Example mute_command_unknown_player :
  trace (snd (onCommand1_mute bob [VStr "#4"] room0))
  = [Announce [Lit "No player with id "; Sub (VStr "#4"); Lit "."] (Some 5) red].
Proof. reflexivity. Qed.

Example unmute_command_by_id :
  let w := snd (onCommand1_unmute bob [VStr "#7"] room_three_muted) in
  Map_keys (muteMap w) = [Player.conn alice; Player.conn bob] /\
  trace w
  = [Persist (serializeMuteMap (muteMap w));
     Announce [Lit "Player "; Lit "carol"; Lit " unmuted."] (Some 5) green;
     Announce [Lit "You have been unmuted."] (Some 7) green].
Proof. vm_compute. split; reflexivity. Qed.

Example mutelist_command_runs :
  trace (snd (onCommand0_mutelist bob room_two_muted))
  = [Announce [Lit "MUTE_NUMBER - PLAYER"] (Some 5) green;
     LongAnnounce [Lit ("0 - alice" ++ newline ++ "1 - carol")] 5 green].
Proof. vm_compute. reflexivity. Qed.

(** carol's connection string is an array index, so her entry is
    enumerated first and the restored map lists her before alice. *)
Example restore_replaces_store :
  muteMap (snd (handleRestoreData
                  (Some (serializeMuteMap (muteMap room_two_muted))) room_three_muted))
  = [(Player.conn carol, snapshot carol); (Player.conn alice, snapshot alice)].
Proof. vm_compute. reflexivity. Qed.

Example restore_corrupt_throws :
  handleRestoreData (Some "{oops") room_two_muted = (Throw, room_two_muted).
Proof. vm_compute. reflexivity. Qed.

(** A restored name that is an object with a [toString] property of its
    own has no string conversion: the unmute command throws after the
    entry is removed and persisted. *)
Example unmute_name_without_string :
  let w := mkWorld [("k", JObj [("name", JObj [("toString", JNull)])])] [bob]
                   default_config (Some room_roles) [] in
  onCommand1_unmute bob [VNum (of_Z 0)] w
  = (Throw, with_event (Persist "{}") (with_muteMap [] w)).
Proof. vm_compute. reflexivity. Qed.

(** ** Running a computation *)

Lemma bind_Return {A B} (c : M A) (k : A -> M B) (w w' : World) (a : A) :
  c w = (Return a, w') -> bind c k w = k a w'.
Proof. intros H. unfold bind. rewrite H. reflexivity. Qed.

Lemma bind_Throw {A B} (c : M A) (k : A -> M B) (w w' : World) :
  c w = (Throw, w') -> bind c k w = (Throw, w').
Proof. intros H. unfold bind. rewrite H. reflexivity. Qed.

(** ** Code units and strings *)

Lemma char16_eqb_spec (a b : char16) : reflect (a = b) (Char16.eqb a b).
Proof.
  destruct a as [h l], b as [h' l']. simpl.
  destruct (Ascii.eqb_spec h h') as [-> | Hh]; simpl.
  - destruct (Ascii.eqb_spec l l') as [-> | Hl]; constructor; congruence.
  - constructor. congruence.
Qed.

Lemma char16_eqb_refl (a : char16) : Char16.eqb a a = true.
Proof. destruct (char16_eqb_spec a a); congruence. Qed.

Lemma char16_eqb_eq (a b : char16) : Char16.eqb a b = true <-> a = b.
Proof. destruct (char16_eqb_spec a b); split; congruence. Qed.

Lemma string_eqb_spec (a b : string) : reflect (a = b) (String.eqb a b).
Proof.
  revert b. induction a as [| c a IH]; intros [| d b]; simpl; try (constructor; congruence).
  destruct (char16_eqb_spec c d) as [-> | Hc]; simpl.
  - destruct (IH b) as [-> | Hab]; constructor; congruence.
  - constructor. congruence.
Qed.

Lemma string_eqb_refl (a : string) : String.eqb a a = true.
Proof. destruct (string_eqb_spec a a); congruence. Qed.

Lemma string_eqb_eq (a b : string) : String.eqb a b = true <-> a = b.
Proof. destruct (string_eqb_spec a b); split; congruence. Qed.

Lemma string_eqb_neq (a b : string) : String.eqb a b = false <-> a <> b.
Proof. destruct (string_eqb_spec a b); split; congruence. Qed.

Lemma string_eqb_sym (a b : string) : String.eqb a b = String.eqb b a.
Proof.
  destruct (string_eqb_spec a b) as [-> | H]; [symmetry; apply string_eqb_refl |].
  symmetry. apply string_eqb_neq. congruence.
Qed.

Lemma append_empty_r (s : string) : s ++ EmptyString = s.
Proof. induction s; simpl; [reflexivity | rewrite IHs; reflexivity]. Qed.

Lemma append_assoc (a b c : string) : (a ++ b) ++ c = a ++ (b ++ c).
Proof. induction a; simpl; [reflexivity | rewrite IHa; reflexivity]. Qed.

Lemma length_append (a b : string) :
  String.length (a ++ b) = (String.length a + String.length b)%nat.
Proof. induction a; simpl; [reflexivity | rewrite IHa; reflexivity]. Qed.

Lemma of_code_code (c : char16) : Char16.of_code (Char16.code c) = c.
Proof.
  destruct c as [h l]. unfold Char16.of_code, Char16.code.
  pose proof (N_ascii_bounded l) as Hl.
  rewrite N.div_add_l by discriminate.
  rewrite (N.div_small _ _ Hl), N.add_0_r.
  rewrite N.add_comm, N.Div0.mod_add, (N.mod_small _ _ Hl).
  rewrite !ascii_N_embedding. reflexivity.
Qed.

(** ** The Number value of a rational *)

Lemma Number_value_Qeq (p q : Q) : (p == q)%Q -> Number_value p = Number_value q.
Proof. intros H. unfold Number_value. rewrite (Qred_complete p q H). reflexivity. Qed.

Lemma Qred_inject_Z (z : Z) : Qred (inject_Z z) = inject_Z z.
Proof.
  unfold Qred, inject_Z.
  pose proof (Z.ggcd_gcd z 1) as Hg.
  pose proof (Z.ggcd_correct_divisors z 1) as Hd.
  destruct (Z.ggcd z 1) as [g [aa bb]]. simpl in *.
  rewrite Z.gcd_1_r in Hg. subst g. destruct Hd as [Ha Hb].
  rewrite Z.mul_1_l in Ha, Hb. subst aa bb. reflexivity.
Qed.

Lemma negate_involutive (n : number) : negate (negate n) = n.
Proof.
  destruct n as [| s | [a b]]; simpl; [reflexivity | rewrite negb_involutive; reflexivity |].
  unfold Qopp. simpl. rewrite Z.opp_involutive. reflexivity.
Qed.

Lemma Number_value_opp (q : Q) : Number_value (- q) = negate (Number_value q).
Proof.
  unfold Number_value. rewrite Qred_opp.
  destruct (Qred q) as [[| a | a] b]; simpl; try reflexivity.
  rewrite negate_involutive. reflexivity.
Qed.

Lemma Qden_Qred_divide (a : Z) (b : positive) : (Zpos (Qden (Qred (a # b))) | Zpos b).
Proof.
  unfold Qred.
  pose proof (Z.ggcd_gcd a (Zpos b)) as Hg.
  pose proof (Z.ggcd_correct_divisors a (Zpos b)) as Hd.
  destruct (Z.ggcd a (Zpos b)) as [g [aa bb]]. simpl in *.
  destruct Hd as [_ Hb].
  assert (Hg0 : 0 <= g) by (subst g; apply Z.gcd_nonneg).
  assert (Hbb : 0 < bb) by nia.
  rewrite Z2Pos.id by exact Hbb.
  exists g. lia.
Qed.

Lemma dyadic_den (m e : Z) : -1074 <= e -> (Zpos (Qden (dyadic m e)) | 2 ^ 1074).
Proof.
  intros He. unfold dyadic. destruct (Z.leb_spec 0 e) as [Hpos | Hneg].
  - simpl. apply Z.divide_1_l.
  - eapply Z.divide_trans; [apply Qden_Qred_divide |].
    rewrite Z2Pos.id by (apply Z.pow_pos_nonneg; lia).
    exists (2 ^ (1074 + e)). rewrite <- Z.pow_add_r by lia. f_equal. lia.
Qed.

Lemma Number_value_pos_Fin (a b : positive) (x : Q) :
  Number_value_pos a b = Fin x -> exists m e, -1074 <= e /\ x = dyadic m e.
Proof.
  unfold Number_value_pos.
  set (e := Z.max (binade a b - 52) (-1074)).
  match goal with |- (if ?c then _ else Fin (dyadic ?m _)) = _ -> _ =>
    destruct c; [discriminate |]; intros H; exists m, e end.
  split; [unfold e; lia | congruence].
Qed.

(** The exact value of a double is a multiple of 2^-1074. *)
Lemma Number_value_den (q x : Q) :
  Number_value q = Fin x -> (Zpos (Qden x) | 2 ^ 1074).
Proof.
  unfold Number_value. destruct (Qred q) as [[| a | a] b]; intros H.
  - injection H as <-. simpl. apply Z.divide_1_l.
  - destruct (Number_value_pos_Fin a b x H) as [m [e [He ->]]]. apply dyadic_den, He.
  - destruct (Number_value_pos a b) as [| s | y] eqn:E; try discriminate H.
    simpl in H. injection H as <-.
    destruct (Number_value_pos_Fin a b y E) as [m [e [He ->]]].
    destruct (dyadic m e) as [n d] eqn:Ed. simpl.
    pose proof (dyadic_den m e He) as Hd. rewrite Ed in Hd. exact Hd.
Qed.

Lemma Number_value_0 (q : Q) : (q == 0)%Q -> Number_value q = Fin 0.
Proof. intros H. rewrite (Number_value_Qeq q 0 H). reflexivity. Qed.

Lemma dyadic_exact (a k : Z) : 0 <= k -> dyadic (a * 2 ^ k) (- k) = inject_Z a.
Proof.
  intros Hk. unfold dyadic. destruct (Z.leb_spec 0 (- k)) as [H0 | Hneg].
  - assert (k = 0) by lia. subst k. simpl. rewrite !Z.mul_1_r. reflexivity.
  - rewrite Z.opp_involutive. rewrite <- (Qred_inject_Z a).
    apply Qred_complete. unfold Qeq, inject_Z. simpl Qnum. simpl Qden.
    rewrite Z2Pos.id by (apply Z.pow_pos_nonneg; lia). lia.
Qed.

Lemma Z_log2_safe (a : positive) :
  Zpos a <= 9007199254740991 -> 0 <= Z.log2 (Zpos a) <= 52.
Proof.
  intros Ha. split; [apply Z.log2_nonneg |].
  assert (H : Z.log2 (Zpos a) < 53); [| lia].
  apply Z.log2_lt_pow2; [lia |]. change (2 ^ 53) with 9007199254740992. lia.
Qed.

Lemma Number_value_pos_integer (a : positive) :
  Zpos a <= 9007199254740991 -> Number_value_pos a 1 = Fin (inject_Z (Zpos a)).
Proof.
  intros Ha. pose proof (Z_log2_safe a Ha) as HL.
  pose proof (Z.log2_spec (Zpos a) eq_refl) as [Hlo Hhi].
  set (L := Z.log2 (Zpos a)) in *.
  assert (Hbin : binade a 1 = L).
  { unfold binade. change (Z.log2 1) with 0. rewrite Z.sub_0_r. fold L.
    rewrite (Z.max_r 0 L) by lia. rewrite (Z.max_l 0 (- L)) by lia.
    rewrite Z.pow_0_r, Z.mul_1_r, Z.mul_1_l.
    destruct (Z.leb_spec (2 ^ L) (Zpos a)); [reflexivity | lia]. }
  unfold Number_value_pos. rewrite Hbin.
  rewrite (Z.max_l (L - 52) (-1074)) by lia.
  rewrite (Z.max_l 0 (L - 52)) by lia.
  rewrite (Z.max_r 0 (- (L - 52))) by lia.
  rewrite Z.pow_0_r, Z.mul_1_l, Z.div_1_r, Z.mod_1_r.
  change (2 * 0 <? 1) with true. cbv iota.
  destruct (Z.ltb_spec 971 (L - 52)) as [Hbig |]; [lia |].
  destruct (Z.eqb_spec (L - 52) 971) as [Hbig |]; [lia |].
  cbn [orb andb]. f_equal.
  replace (- (L - 52)) with (52 - L) by lia.
  replace (L - 52) with (- (52 - L)) by lia.
  apply dyadic_exact. lia.
Qed.

(** An integer a double holds exactly is its own Number value. *)
Lemma Number_value_integer (z : Z) :
  safe_integer z -> Number_value (inject_Z z) = of_Z z.
Proof.
  unfold safe_integer, of_Z, Number_value. intros Hz. rewrite Qred_inject_Z.
  destruct z as [| a | a]; simpl.
  - reflexivity.
  - apply Number_value_pos_integer. simpl in Hz. lia.
  - rewrite Number_value_pos_integer by (simpl in Hz; lia). reflexivity.
Qed.

Lemma same_number_refl (n : number) : same_number n n = true.
Proof.
  destruct n as [| s | q]; simpl; [reflexivity | destruct s; reflexivity |].
  rewrite Z.eqb_refl, Pos.eqb_refl. reflexivity.
Qed.

Lemma same_number_eq (a b : number) : same_number a b = true -> a = b.
Proof.
  destruct a as [| s | [p1 p2]], b as [| t | [q1 q2]]; simpl; try discriminate; intros H.
  - reflexivity.
  - apply eqb_prop in H. congruence.
  - apply andb_true_iff in H as [H1 H2].
    apply Z.eqb_eq in H1. apply Pos.eqb_eq in H2. congruence.
Qed.

(** ** Decimal digits *)

Lemma MV_acc (ds : list N) (acc : N) :
  fold_left (fun a d => a * 10 + d)%N ds acc
  = (acc * 10 ^ N.of_nat (List.length ds) + MV ds)%N.
Proof.
  unfold MV. revert acc. induction ds as [| d r IH]; intros acc.
  - simpl. lia.
  - cbn [fold_left List.length]. rewrite (IH (acc * 10 + d)%N), (IH (0 * 10 + d)%N).
    rewrite Nat2N.inj_succ, N.pow_succ_r'. lia.
Qed.

Lemma MV_app (a b : list N) :
  MV (a ++ b) = (MV a * 10 ^ N.of_nat (List.length b) + MV b)%N.
Proof. unfold MV at 1. rewrite fold_left_app. fold (MV a). apply MV_acc. Qed.

Lemma MV_zeros (n : nat) : MV (repeat 0%N n) = 0%N.
Proof.
  induction n as [| n IH]; [reflexivity |].
  change (repeat 0%N (S n)) with ([0%N] ++ repeat 0%N n)%list.
  rewrite MV_app, IH. reflexivity.
Qed.

Lemma MV_zeros_l (n : nat) (ds : list N) : MV (repeat 0%N n ++ ds) = MV ds.
Proof. rewrite MV_app, MV_zeros. reflexivity. Qed.

Lemma MV_zeros_r (n : nat) (ds : list N) :
  MV (ds ++ repeat 0%N n) = (MV ds * 10 ^ N.of_nat n)%N.
Proof. rewrite MV_app, MV_zeros, repeat_length. lia. Qed.

Lemma decimal_digits_rev_value (fuel : nat) (n : N) :
  (n < 10 ^ N.of_nat fuel)%N ->
  MV (rev (decimal_digits_rev fuel n)) = n.
Proof.
  revert n. induction fuel as [| fuel IH]; intros n Hn.
  - simpl in *. assert (n = 0%N) by lia. subst n. reflexivity.
  - cbn [decimal_digits_rev]. destruct (N.eqb_spec n 0) as [-> | Hne]; [reflexivity |].
    cbn [rev]. rewrite MV_app. cbn [List.length]. rewrite IH.
    + change (MV [(n mod 10)%N]) with (0 * 10 + n mod 10)%N.
      pose proof (N.div_mod n 10 ltac:(discriminate)). simpl N.of_nat. lia.
    + rewrite Nat2N.inj_succ, N.pow_succ_r' in Hn.
      apply N.Div0.div_lt_upper_bound. exact Hn.
Qed.

Lemma N_lt_pow10_size (n : N) : (n < 10 ^ N.of_nat (N.to_nat (N.size n)))%N.
Proof.
  rewrite N2Nat.id.
  apply N.lt_le_trans with (2 ^ N.size n)%N; [apply N.size_gt |].
  apply N.pow_le_mono_l. lia.
Qed.

Lemma MV_decimal_digits (n : N) : MV (decimal_digits n) = n.
Proof. apply decimal_digits_rev_value, N_lt_pow10_size. Qed.

Lemma decimal_digits_rev_small (fuel : nat) (n : N) :
  Forall (fun d => d < 10)%N (decimal_digits_rev fuel n).
Proof.
  revert n. induction fuel as [| fuel IH]; intros n; simpl; [constructor |].
  destruct (n =? 0)%N; [constructor |].
  constructor; [apply N.mod_lt; discriminate | apply IH].
Qed.

Lemma decimal_digits_small (n : N) : Forall (fun d => d < 10)%N (decimal_digits n).
Proof. apply Forall_rev, decimal_digits_rev_small. Qed.

(** A sequence of digits without a zero in front. *)
Lemma decimal_digits_rev_head (fuel : nat) (n : N) :
  (n < 10 ^ N.of_nat fuel)%N ->
  match rev (decimal_digits_rev fuel n) with
  | [] => n = 0%N
  | d :: _ => d <> 0%N
  end.
Proof.
  revert n. induction fuel as [| fuel IH]; intros n Hn.
  - simpl in *. lia.
  - cbn [decimal_digits_rev]. destruct (N.eqb_spec n 0) as [-> | Hne]; [reflexivity |].
    cbn [rev].
    assert (Hq : (n / 10 < 10 ^ N.of_nat fuel)%N).
    { rewrite Nat2N.inj_succ, N.pow_succ_r' in Hn.
      apply N.Div0.div_lt_upper_bound. exact Hn. }
    specialize (IH (n / 10)%N Hq).
    destruct (rev (decimal_digits_rev fuel (n / 10))) as [| d r]; simpl.
    + pose proof (N.div_mod n 10 ltac:(discriminate)). lia.
    + exact IH.
Qed.

Lemma decimal_digits_head (n : N) :
  match decimal_digits n with
  | [] => n = 0%N
  | d :: _ => d <> 0%N
  end.
Proof. apply decimal_digits_rev_head, N_lt_pow10_size. Qed.

Lemma decimal_digits_nonempty (n : N) : n <> 0%N -> decimal_digits n <> [].
Proof.
  intros Hn E. pose proof (decimal_digits_head n) as H. rewrite E in H. contradiction.
Qed.

Lemma DecimalDigit_digit_char (d : N) : (d < 10)%N -> DecimalDigit (digit_char d) = Some d.
Proof.
  intros Hd.
  destruct d as [| p]; [reflexivity |].
  do 4 (destruct p as [p | p |]; try reflexivity; try lia).
Qed.

Lemma is_digit_digit_char (d : N) : (d < 10)%N -> is_digit (digit_char d) = true.
Proof. intros Hd. unfold is_digit. rewrite DecimalDigit_digit_char by exact Hd. reflexivity. Qed.

Lemma write_digits_app (a b : list N) :
  write_digits (a ++ b) = write_digits a ++ write_digits b.
Proof. induction a as [| d a IH]; simpl; [reflexivity | rewrite IH; reflexivity]. Qed.


Lemma DecimalDigits_write_digits (ds : list N) (r : string) :
  Forall (fun d => d < 10)%N ds -> starts_with_digit r = false ->
  DecimalDigits (write_digits ds ++ r) = (ds, r).
Proof.
  intros Hds Hr. induction Hds as [| d ds Hd Hds IH].
  - destruct r as [| c r']; [reflexivity |].
    simpl in Hr. unfold is_digit in Hr. cbn [write_digits String.append DecimalDigits].
    destruct (DecimalDigit c); [discriminate | reflexivity].
  - cbn [write_digits String.append DecimalDigits].
    rewrite (DecimalDigit_digit_char d Hd), IH. reflexivity.
Qed.

Lemma DecimalDigits_write_digits_end (ds : list N) :
  Forall (fun d => d < 10)%N ds -> DecimalDigits (write_digits ds) = (ds, EmptyString).
Proof.
  intros Hds. pose proof (DecimalDigits_write_digits ds EmptyString Hds eq_refl) as H.
  rewrite append_empty_r in H. exact H.
Qed.

Lemma write_N_digits (n : N) :
  exists ds, write_N n = write_digits ds /\ Forall (fun d => d < 10)%N ds /\
             ds <> [] /\ MV ds = n.
Proof.
  unfold write_N. destruct (N.eqb_spec n 0) as [-> | Hne].
  - exists [0%N]. repeat split; [repeat constructor | discriminate].
  - exists (decimal_digits n).
    split; [reflexivity |]. split; [apply decimal_digits_small |].
    split; [apply decimal_digits_nonempty, Hne | apply MV_decimal_digits].
Qed.

Lemma numeral_digits (z : Z) :
  exists ds, Forall (fun d => d < 10)%N ds /\ ds <> [] /\ MV ds = Z.abs_N z /\
             match ds with 0%N :: _ :: _ => False | _ => True end /\
             numeral z = (if z <? 0 then String "-" (write_digits ds) else write_digits ds).
Proof.
  destruct z as [| p | p].
  - exists [0%N]. repeat split; [repeat constructor | discriminate].
  - exists (decimal_digits (Npos p)).
    split; [apply decimal_digits_small |].
    split; [apply decimal_digits_nonempty; discriminate |].
    split; [apply MV_decimal_digits |]. split; [| reflexivity].
    pose proof (decimal_digits_head (Npos p)) as H.
    destruct (decimal_digits (Npos p)) as [| [| d] r]; try exact I. contradiction.
  - exists (decimal_digits (Npos p)).
    split; [apply decimal_digits_small |].
    split; [apply decimal_digits_nonempty; discriminate |].
    split; [apply MV_decimal_digits |]. split; [| reflexivity].
    pose proof (decimal_digits_head (Npos p)) as H.
    destruct (decimal_digits (Npos p)) as [| [| d] r]; try exact I. contradiction.
Qed.

(** ** Numeric conversion of strings *)

Lemma is_digit_not_ws (c : char16) :
  is_digit c = true -> is_StrWhiteSpaceChar c = false.
Proof.
  char16_cases c ltac:(simpl; intros H; try discriminate H; reflexivity).
Qed.











(** The head of a written decimal is a digit. *)
Lemma write_decimal_head (ip fp : list N) (e : option Z) :
  well_written ip fp ->
  exists c r, write_decimal ip fp e = String c r /\ is_digit c = true.
Proof.
  intros [Hip [_ Hne]]. unfold write_decimal.
  destruct ip as [| d ip']; [contradiction |].
  inversion Hip; subst. cbn [write_digits String.append].
  eexists. eexists. split; [reflexivity | apply is_digit_digit_char; assumption].
Qed.

Lemma write_exponent_head (e : Z) :
  exists r, write_exponent e = String "e" r.
Proof. unfold write_exponent. eexists. reflexivity. Qed.








(** ** Conversion of numbers to strings, and back *)

Lemma scale10_nonneg (m j : Z) : 0 <= j -> scale10 m j = inject_Z (m * 10 ^ j).
Proof.
  intros Hj. destruct j as [| j | j]; simpl; [rewrite Z.mul_1_r; reflexivity | reflexivity | lia].
Qed.

Lemma rounds_to_sound (x : Q) (s p : Z) :
  rounds_to x s p = true -> 0 < s /\ Number_value (scale10 s (- p)) = Fin x.
Proof.
  unfold rounds_to. intros H. apply andb_true_iff in H as [Hs Hv].
  split; [apply Z.ltb_lt, Hs | apply same_number_eq, Hv].
Qed.

Lemma shortest_at_sound (x : Q) (p s : Z) :
  shortest_at x p = Some s -> rounds_to x s p = true.
Proof.
  unfold shortest_at.
  set (lo := Qfloor (x * scale10 1 p)).
  destruct (rounds_to x lo p) eqn:Hlo, (rounds_to x (lo + 1) p) eqn:Hhi; intros H.
  - destruct (_ ?= _)%Q; try destruct (Z.even lo); injection H as <-; assumption.
  - injection H as <-. exact Hlo.
  - injection H as <-. exact Hhi.
  - discriminate H.
Qed.

Lemma shortest_at_complete (x : Q) (p : Z) :
  rounds_to x (Qfloor (x * scale10 1 p)) p = true -> shortest_at x p <> None.
Proof.
  unfold shortest_at. intros ->.
  destruct (rounds_to x _ p); [| discriminate].
  destruct (_ ?= _)%Q; discriminate.
Qed.

Lemma shortest_from_sound (fuel : nat) (x : Q) (p s p' : Z) :
  shortest_from fuel x p = Some (s, p') -> rounds_to x s p' = true.
Proof.
  revert p. induction fuel as [| fuel IH]; intros p; simpl;
    destruct (shortest_at x p) as [s0 |] eqn:E; intros H;
    try (injection H as <- <-; apply shortest_at_sound, E).
  - discriminate H.
  - apply (IH (p + 1)), H.
Qed.

Lemma pow2_divide_pow10 (p : Z) : 1074 <= p -> (2 ^ 1074 | 10 ^ p).
Proof.
  intros Hp. exists (2 ^ (p - 1074) * 5 ^ p).
  change 10 with (2 * 5). rewrite Z.pow_mul_l.
  replace p with ((p - 1074) + 1074) at 1 by lia.
  rewrite Z.pow_add_r by lia. ring.
Qed.

(** With 1074 digits or more after the point, a positive double is
    written exactly. *)
Lemma rounds_to_exact (x : Q) (p : Z) :
  Number_value x = Fin x -> 0 < Qnum x -> 1074 <= p ->
  rounds_to x (Qfloor (x * scale10 1 p)) p = true.
Proof.
  intros Hx Hpos Hp.
  pose proof (Number_value_den x x Hx) as Hden.
  destruct (Z.divide_trans _ _ _ Hden (pow2_divide_pow10 p Hp)) as [t Ht].
  destruct x as [c d]. simpl in Hpos, Ht.
  assert (H10 : 0 < 10 ^ p) by (apply Z.pow_pos_nonneg; lia).
  assert (Htpos : 0 < t) by nia.
  destruct p as [| pp | pp]; try lia.
  assert (Hfloor : Qfloor ((c # d) * scale10 1 (Zpos pp)) = c * t).
  { change (Qfloor ((c # d) * scale10 1 (Z.pos pp)))
      with (Z.div (c * (1 * 10 ^ Z.pos pp)) (Z.pos (d * 1))).
    rewrite Z.mul_1_l, Pos.mul_1_r, Ht.
    rewrite Z.mul_assoc. apply Z.div_mul. lia. }
  rewrite Hfloor. unfold rounds_to.
  assert (Hs : (0 <? c * t) = true) by (apply Z.ltb_lt; nia).
  rewrite Hs. cbn [andb].
  assert (Heq : (scale10 (c * t) (- Zpos pp) == c # d)%Q).
  { change (scale10 (c * t) (- Z.pos pp)) with ((c * t) # Pos.pow 10 pp).
    unfold Qeq. cbn [Qnum Qden]. rewrite Pos2Z.inj_pow. lia. }
  rewrite (Number_value_Qeq _ _ Heq), Hx. apply same_number_refl.
Qed.

Lemma shortest_from_complete (fuel : nat) (x : Q) (p : Z) :
  Number_value x = Fin x -> 0 < Qnum x -> 1074 <= p + Z.of_nat fuel ->
  shortest_from fuel x p <> None.
Proof.
  intros Hx Hpos. revert p. induction fuel as [| fuel IH]; intros p Hp; simpl.
  - pose proof (shortest_at_complete x p (rounds_to_exact x p Hx Hpos ltac:(lia))) as H.
    destruct (shortest_at x p); [discriminate | contradiction].
  - destruct (shortest_at x p); [discriminate |]. apply IH. lia.
Qed.

(** The digits of a positive double are found, and they denote it. *)
Lemma shortest_digits_found (x : Q) :
  Number_value x = Fin x -> 0 < Qnum x ->
  exists s p, shortest_digits x = Some (s, p) /\ 0 < s /\
              Number_value (scale10 s (- p)) = Fin x.
Proof.
  intros Hx Hpos. unfold shortest_digits.
  set (p0 := _ - _ - 1).
  pose proof (shortest_from_complete (Z.to_nat (1074 - p0)) x p0 Hx Hpos ltac:(lia)) as Hfound.
  destruct (shortest_from (Z.to_nat (1074 - p0)) x p0) as [[s p] |] eqn:E; [| contradiction].
  exists s, p. split; [reflexivity |].
  apply rounds_to_sound. apply (shortest_from_sound _ _ _ _ _ E).
Qed.

Lemma write_decimal_plain (ip : list N) : write_decimal ip [] None = write_digits ip.
Proof. unfold write_decimal. simpl. apply append_empty_r. Qed.

Lemma Forall_repeat_zero (n : nat) : Forall (fun d => d < 10)%N (repeat 0%N n).
Proof. induction n; simpl; constructor; [reflexivity | assumption]. Qed.

Lemma firstn_small {A} (P : A -> Prop) (n : nat) (l : list A) :
  Forall P l -> Forall P (firstn n l).
Proof.
  intros H. rewrite Forall_forall in *. intros a Ha. apply H.
  rewrite <- (firstn_skipn n l). apply in_or_app. left. exact Ha.
Qed.

Lemma skipn_small {A} (P : A -> Prop) (n : nat) (l : list A) :
  Forall P l -> Forall P (skipn n l).
Proof.
  intros H. rewrite Forall_forall in *. intros a Ha. apply H.
  rewrite <- (firstn_skipn n l). apply in_or_app. right. exact Ha.
Qed.

(** The five layouts of [Number::toString] are written decimals that
    denote [s * 10^-p]. *)
Lemma Number_toString_pos_written (x : Q) (s p : Z) :
  shortest_digits x = Some (s, p) -> 0 < s ->
  exists ip fp e,
    Number_toString_pos x = write_decimal ip fp e /\ well_written ip fp /\
    decimal_value ip fp (exponent_of e) = scale10 s (- p).
Proof.
  intros Hfound Hs. unfold Number_toString_pos. rewrite Hfound. cbv zeta.
  pose proof (decimal_digits_small (Z.to_N s)) as Hsmall.
  pose proof (decimal_digits_head (Z.to_N s)) as Hhead.
  pose proof (MV_decimal_digits (Z.to_N s)) as Hval.
  set (ds := decimal_digits (Z.to_N s)) in *.
  destruct ds as [| d r] eqn:Eds; [lia |].
  rewrite <- Eds in *.
  assert (Hd : d <> 0%N) by exact Hhead. clear Hhead.
  assert (HMV : Z.of_N (MV ds) = s) by (rewrite Hval; lia).
  set (k := Z.of_nat (List.length ds)).
  assert (Hk : 1 <= k) by (unfold k; rewrite Eds; simpl List.length; lia).
  set (n := k - p).
  destruct ((k <=? n) && (n <=? 21))%bool eqn:C1.
  { apply andb_true_iff in C1 as [Hkn Hn]. apply Z.leb_le in Hkn, Hn.
    exists (ds ++ repeat 0%N (Z.to_nat (n - k)))%list, [], None.
    split; [symmetry; apply write_decimal_plain |]. split.
    - split; [apply Forall_app; split; [exact Hsmall | apply Forall_repeat_zero] |].
      split; [constructor |]. rewrite Eds.
      destruct d; [contradiction | simpl; exact I].
    - unfold decimal_value. rewrite List.app_nil_r, MV_zeros_r. simpl List.length.
      replace (exponent_of None - Z.of_nat 0) with 0 by reflexivity.
      rewrite (scale10_nonneg s (- p)) by (unfold n in Hkn; lia).
      simpl scale10. f_equal.
      rewrite N2Z.inj_mul, N2Z.inj_pow, HMV, nat_N_Z, Z2Nat.id by lia.
      f_equal. f_equal. unfold n. lia. }
  destruct ((0 <? n) && (n <=? 21))%bool eqn:C2.
  { apply andb_true_iff in C2 as [Hn0 Hn]. apply Z.ltb_lt in Hn0. apply Z.leb_le in Hn.
    assert (Hnk : n < k).
    { destruct (Z.leb_spec k n) as [Hle |]; [| assumption].
      apply Z.leb_le in Hn. rewrite Hn in C1. simpl in C1. discriminate C1. }
    assert (Hlen : List.length (skipn (Z.to_nat n) ds) = Z.to_nat (k - n)).
    { rewrite length_skipn. unfold k. lia. }
    exists (firstn (Z.to_nat n) ds), (skipn (Z.to_nat n) ds), None.
    split; [| split].
    - unfold write_decimal. rewrite append_empty_r.
      destruct (skipn (Z.to_nat n) ds); [simpl in Hlen; lia | reflexivity].
    - split; [apply firstn_small, Hsmall |]. split; [apply skipn_small, Hsmall |].
      rewrite Eds. destruct (Z.to_nat n) eqn:En; [lia |].
      destruct d; [contradiction | simpl; exact I].
    - unfold decimal_value. rewrite firstn_skipn, HMV, Hlen. f_equal.
      simpl exponent_of. unfold n. lia. }
  destruct ((-6 <? n) && (n <=? 0))%bool eqn:C3.
  { apply andb_true_iff in C3 as [Hn6 Hn]. apply Z.ltb_lt in Hn6. apply Z.leb_le in Hn.
    exists [0%N], (repeat 0%N (Z.to_nat (- n)) ++ ds)%list, None.
    split; [| split].
    - unfold write_decimal. rewrite append_empty_r.
      destruct (repeat 0%N (Z.to_nat (- n)) ++ ds)%list eqn:E; [| reflexivity].
      apply app_eq_nil in E as [_ E]. rewrite Eds in E. discriminate E.
    - split; [repeat constructor |].
      split; [apply Forall_app; split; [apply Forall_repeat_zero | exact Hsmall] | exact I].
    - unfold decimal_value.
      change ([0%N] ++ repeat 0%N (Z.to_nat (- n)) ++ ds)%list
        with (repeat 0%N (S (Z.to_nat (- n))) ++ ds)%list.
      rewrite MV_zeros_l, HMV, length_app, repeat_length. f_equal.
      simpl exponent_of. unfold n, k. lia. }
  destruct r as [| d' r'].
  - exists [d], [], (Some (n - 1)).
    split; [unfold write_decimal; reflexivity |]. split.
    + try rewrite Eds in Hsmall.
      split; [exact Hsmall | split; [constructor | destruct d; exact I]].
    + unfold decimal_value. rewrite List.app_nil_r, <- Eds, HMV. f_equal.
      simpl exponent_of. unfold n, k. rewrite Eds. simpl List.length. lia.
  - exists [d], (d' :: r'), (Some (n - 1)).
    split; [unfold write_decimal; reflexivity |]. split.
    + try rewrite Eds in Hsmall. inversion Hsmall as [| ? ? Hd1 Hr1].
      split; [repeat constructor; exact Hd1 | split; [exact Hr1 | destruct d; exact I]].
    + unfold decimal_value. change ([d] ++ d' :: r')%list with (d :: d' :: r').
      rewrite <- Eds, HMV. f_equal.
      simpl exponent_of. unfold n, k. rewrite Eds. simpl List.length. lia.
Qed.

Lemma Number_value_zero_num (q : Q) : Qnum q = 0 -> Number_value q = Fin 0.
Proof. intros H. apply Number_value_0. unfold Qeq. rewrite H. reflexivity. Qed.

Lemma Number_toString_written (q : Q) :
  Number_value q = Fin q -> 0 < Qnum q ->
  exists ip fp e,
    Number_toString_pos q = write_decimal ip fp e /\ well_written ip fp /\
    Number_value (decimal_value ip fp (exponent_of e)) = Fin q.
Proof.
  intros Hq Hpos.
  destruct (shortest_digits_found q Hq Hpos) as [s [p [Hfound [Hs Hv]]]].
  destruct (Number_toString_pos_written q s p Hfound Hs) as [ip [fp [e [Hw [Hwf Hval]]]]].
  exists ip, fp, e. rewrite Hval. auto.
Qed.

Lemma Qopp_opp (q : Q) : Qopp (Qopp q) = q.
Proof. destruct q as [a b]. unfold Qopp. simpl. rewrite Z.opp_involutive. reflexivity. Qed.


(** ** Identifier parsing *)



















(** ** Facts about [Map] *)

Lemma Map_get_set_same (k : string) (v : json) (m : Map) :
  Map_get k (Map_set k v m) = Some v.
Proof.
  induction m as [| [k' v'] r IH]; simpl.
  - rewrite string_eqb_refl. reflexivity.
  - destruct (String.eqb k' k) eqn:E; simpl; rewrite E; [reflexivity | exact IH].
Qed.

Lemma Map_get_set_other (k k0 : string) (v : json) (m : Map) :
  k0 <> k -> Map_get k0 (Map_set k v m) = Map_get k0 m.
Proof.
  intros Hne. induction m as [| [k' v'] r IH]; simpl.
  - destruct (string_eqb_spec k k0); [congruence | reflexivity].
  - destruct (string_eqb_spec k' k); simpl.
    + subst k'. destruct (string_eqb_spec k k0); [congruence | reflexivity].
    + destruct (string_eqb_spec k' k0); [reflexivity | exact IH].
Qed.

Lemma Map_keys_set_present (k : string) (v : json) (m : Map) :
  Map_has k m = true -> Map_keys (Map_set k v m) = Map_keys m.
Proof.
  unfold Map_has. induction m as [| [k' v'] r IH]; simpl; [discriminate |].
  destruct (String.eqb k' k) eqn:E; simpl; [reflexivity |].
  intros H. f_equal. apply IH, H.
Qed.

Lemma Map_keys_set_absent (k : string) (v : json) (m : Map) :
  Map_has k m = false -> Map_set k v m = (m ++ [(k, v)])%list.
Proof.
  unfold Map_has. induction m as [| [k' v'] r IH]; simpl; [reflexivity |].
  destruct (String.eqb k' k) eqn:E; simpl; [discriminate |].
  intros H. f_equal. apply IH, H.
Qed.

Lemma Map_has_In (k : string) (m : Map) :
  Map_has k m = true <-> In k (Map_keys m).
Proof.
  unfold Map_has. induction m as [| [k' v'] r IH]; simpl.
  - split; [discriminate | tauto].
  - destruct (string_eqb_spec k' k).
    + split; auto.
    + rewrite IH. split; [auto | intros [? | ?]; [contradiction | assumption]].
Qed.

Lemma Map_wf_set (k : string) (v : json) (m : Map) :
  Map_wf m -> Map_wf (Map_set k v m).
Proof.
  unfold Map_wf. intros Hwf.
  destruct (Map_has k m) eqn:E.
  - rewrite Map_keys_set_present by exact E. exact Hwf.
  - rewrite Map_keys_set_absent by exact E.
    unfold Map_keys. rewrite map_app. simpl.
    apply NoDup_app; [exact Hwf | constructor; [simpl; tauto | constructor] |].
    intros x Hx [Hk | []]. subst x.
    apply Map_has_In in Hx. congruence.
Qed.

Lemma Map_get_nth (m : Map) (i : nat) (k : string) (v : json) :
  Map_wf m -> nth_error m i = Some (k, v) -> Map_get k m = Some v.
Proof.
  unfold Map_wf. revert i. induction m as [| [k' v'] r IH]; intros i Hwf Hnth.
  - destruct i; discriminate.
  - simpl in Hwf. inversion Hwf as [| ? ? Hnotin Hwf']; subst.
    destruct i as [| i]; simpl in *.
    + injection Hnth as -> ->. rewrite string_eqb_refl. reflexivity.
    + destruct (string_eqb_spec k' k) as [-> | Hne].
      * exfalso. apply Hnotin. apply nth_error_In in Hnth.
        apply (in_map fst) in Hnth. exact Hnth.
      * apply (IH i Hwf' Hnth).
Qed.

Lemma Map_delete_nth (m : Map) (i : nat) (k : string) (v : json) :
  Map_wf m -> nth_error m i = Some (k, v) ->
  Map_delete k m = (firstn i m ++ skipn (S i) m)%list.
Proof.
  unfold Map_wf. revert i. induction m as [| [k' v'] r IH]; intros i Hwf Hnth.
  - destruct i; discriminate.
  - simpl in Hwf. inversion Hwf as [| ? ? Hnotin Hwf']; subst.
    destruct i as [| i]; simpl in *.
    + injection Hnth as -> ->. rewrite string_eqb_refl. reflexivity.
    + destruct (string_eqb_spec k' k) as [-> | Hne].
      * exfalso. apply Hnotin. apply nth_error_In in Hnth.
        apply (in_map fst) in Hnth. exact Hnth.
      * f_equal. apply (IH i Hwf' Hnth).
Qed.

Lemma Map_get_In (k : string) (v : json) (m : Map) :
  Map_wf m -> (Map_get k m = Some v <-> In (k, v) m).
Proof.
  unfold Map_wf. induction m as [| [k' v'] r IH]; simpl; intros Hwf.
  - split; [discriminate | tauto].
  - inversion Hwf as [| ? ? Hnotin Hwf']; subst.
    destruct (string_eqb_spec k' k) as [-> | Hne].
    + split.
      * intros [= ->]. left. reflexivity.
      * intros [[= ->] | Hin]; [reflexivity |].
        exfalso. apply Hnotin. apply (in_map fst) in Hin. exact Hin.
    + rewrite (IH Hwf'). split; [tauto |].
      intros [[= -> ->] | Hin]; [contradiction | exact Hin].
Qed.

Lemma Map_get_Permutation (k : string) (m m' : Map) :
  Map_wf m -> Permutation m m' -> Map_get k m = Map_get k m'.
Proof.
  intros Hwf Hperm.
  assert (Hwf' : Map_wf m').
  { unfold Map_wf, Map_keys in *.
    apply (Permutation_NoDup (Permutation_map fst Hperm)), Hwf. }
  destruct (Map_get k m) as [v |] eqn:E.
  - symmetry. apply (Map_get_In k v m' Hwf').
    apply (Permutation_in _ Hperm). apply (Map_get_In k v m Hwf), E.
  - destruct (Map_get k m') as [v' |] eqn:E'; [| reflexivity].
    apply (Map_get_In k v' m' Hwf') in E'.
    apply (Permutation_in _ (Permutation_sym Hperm)) in E'.
    apply (Map_get_In k v' m Hwf) in E'. congruence.
Qed.

Lemma fold_Map_set_fresh (l acc : Map) :
  Map_wf (acc ++ l)%list ->
  fold_left (fun o kv => Map_set (fst kv) (snd kv) o) l acc = (acc ++ l)%list.
Proof.
  revert acc. induction l as [| [k v] r IH]; intros acc Hwf; simpl.
  - rewrite List.app_nil_r. reflexivity.
  - assert (Hfresh : Map_has k acc = false).
    { destruct (Map_has k acc) eqn:E; [| reflexivity].
      apply Map_has_In in E. unfold Map_wf, Map_keys in Hwf.
      rewrite map_app in Hwf. simpl in Hwf.
      apply NoDup_remove_2 in Hwf. exfalso. apply Hwf.
      apply in_or_app. left. exact E. }
    rewrite (Map_keys_set_absent k v acc Hfresh).
    rewrite IH; rewrite <- List.app_assoc; [reflexivity | exact Hwf].
Qed.

Lemma Map_wf_Permutation (m m' : Map) : Permutation m m' -> Map_wf m -> Map_wf m'.
Proof.
  unfold Map_wf, Map_keys. intros Hperm.
  apply (Permutation_NoDup (Permutation_map fst Hperm)).
Qed.

Lemma Map_wf_filter (f : string * json -> bool) (m : Map) :
  Map_wf m -> Map_wf (filter f m).
Proof.
  unfold Map_wf, Map_keys. induction m as [| kv r IH]; simpl; intros Hwf; [constructor |].
  inversion Hwf as [| ? ? Hnotin Hwf']; subst.
  destruct (f kv); simpl; [| exact (IH Hwf')].
  constructor; [| exact (IH Hwf')].
  intros Hin. apply Hnotin. apply in_map_iff in Hin as [kv' [Hfst Hin]].
  apply filter_In in Hin as [Hin _]. rewrite <- Hfst. apply in_map. exact Hin.
Qed.

Lemma Map_wf_delete (k : string) (m : Map) : Map_wf m -> Map_wf (Map_delete k m).
Proof.
  unfold Map_wf, Map_keys. induction m as [| [k' v] r IH]; simpl; intros Hwf; [constructor |].
  inversion Hwf as [| ? ? Hnotin Hwf']; subst.
  destruct (String.eqb k' k); [exact Hwf' |]. simpl.
  constructor; [| exact (IH Hwf')].
  intros Hin. apply Hnotin. clear - Hin.
  induction r as [| [k'' v''] r' IH']; simpl in *; [contradiction |].
  destruct (String.eqb k'' k); simpl in *; [right; exact Hin |].
  destruct Hin as [-> | Hin]; [left; reflexivity | right; exact (IH' Hin)].
Qed.

(** ** JSON text: reading back what was written *)

Lemma strip_prefix_append (lit rest : string) : strip_prefix lit (lit ++ rest) = Some rest.
Proof.
  induction lit as [| a lit IH]; simpl; [reflexivity |].
  rewrite char16_eqb_refl. exact IH.
Qed.

Lemma digit_in_base_hex_digit (d : N) :
  (d < 16)%N -> digit_in_base 16 (hex_digit d) = Some d.
Proof.
  intros Hd. destruct d as [| p]; [reflexivity |].
  do 4 (destruct p as [p | p |]; try reflexivity; try lia).
Qed.

Lemma hex4_unicode_escape (h l : ascii) :
  hex4 (hex_digit (N_of_ascii h / 16)) (hex_digit (N_of_ascii h mod 16))
       (hex_digit (N_of_ascii l / 16)) (hex_digit (N_of_ascii l mod 16))
  = Some (Char16.code (Char16 h l)).
Proof.
  pose proof (N_ascii_bounded h) as Hh. pose proof (N_ascii_bounded l) as Hl.
  unfold hex4.
  rewrite !digit_in_base_hex_digit;
    try (apply N.mod_lt; discriminate);
    try (apply N.Div0.div_lt_upper_bound; assumption).
  unfold Char16.code. f_equal.
  pose proof (N.div_mod (N_of_ascii h) 16 ltac:(discriminate)).
  pose proof (N.div_mod (N_of_ascii l) 16 ltac:(discriminate)).
  lia.
Qed.

Lemma parse_chars_unicode_escape (c : char16) (rest : string) :
  parse_chars (unicode_escape c ++ rest) = cons_char c (parse_chars rest).
Proof.
  destruct c as [h l]. unfold unicode_escape.
  cbn [String.append parse_chars].
  change (Char16.eqb "\" dquote) with false.
  change (Char16.eqb "\" "\") with true.
  change (Char16.eqb "u" "u") with true. cbv iota.
  rewrite hex4_unicode_escape, of_code_code. reflexivity.
Qed.

Lemma parse_chars_quote_char (c : char16) (rest : string) :
  parse_chars (quote_char c ++ rest) = cons_char c (parse_chars rest).
Proof.
  char16_cases c ltac:(reflexivity).
Qed.

Lemma parse_chars_raw (c : char16) (rest : string) :
  (is_lead c || is_trail c)%bool = true ->
  parse_chars (String c rest) = cons_char c (parse_chars rest).
Proof.
  destruct c as [h l].
  destruct h as [[|] [|] [|] [|] [|] [|] [|] [|]]; intros H;
    try discriminate H; reflexivity.
Qed.

Lemma parse_chars_quote_chars_le (n : nat) (s rest : string) :
  (String.length s <= n)%nat ->
  parse_chars (quote_chars s ++ String dquote rest) = Some (s, rest).
Proof.
  revert s. induction n as [| n IH]; intros s Hn.
  - destruct s; [reflexivity | simpl in Hn; lia].
  - destruct s as [| c r]; [reflexivity |].
    simpl in Hn. cbn [quote_chars].
    destruct (is_lead c) eqn:Hlead.
    + destruct r as [| d r'].
      * rewrite parse_chars_unicode_escape. reflexivity.
      * destruct (is_trail d) eqn:Htrail.
        -- cbn [String.append].
           rewrite (parse_chars_raw c) by (rewrite Hlead; reflexivity).
           rewrite (parse_chars_raw d) by (rewrite Htrail; apply orb_true_r).
           rewrite (IH r') by (simpl in Hn; lia). reflexivity.
        -- rewrite append_assoc, parse_chars_unicode_escape.
           rewrite (IH (String d r')) by lia. reflexivity.
    + destruct (is_trail c).
      * rewrite append_assoc, parse_chars_unicode_escape, (IH r) by lia. reflexivity.
      * rewrite append_assoc, parse_chars_quote_char, (IH r) by lia. reflexivity.
Qed.

Lemma parse_chars_quote_chars (s rest : string) :
  parse_chars (quote_chars s ++ String dquote rest) = Some (s, rest).
Proof. apply (parse_chars_quote_chars_le (String.length s)). lia. Qed.

Lemma QuoteJSONString_append (s rest : string) :
  QuoteJSONString s ++ rest = String dquote (quote_chars s ++ String dquote rest).
Proof.
  unfold QuoteJSONString. simpl. rewrite append_assoc. reflexivity.
Qed.

Lemma terminated_no_digit (rest : string) :
  terminated rest = true -> starts_with_digit rest = false.
Proof.
  destruct rest as [| c r]; [reflexivity |]. simpl.
  char16_cases c ltac:(simpl; intros H; try discriminate H; reflexivity).
Qed.

Lemma terminated_no_point {T} (rest : string) (X : string -> T) (Y : T) :
  terminated rest = true ->
  match rest with
  | String "." r => X r
  | _ => Y
  end = Y.
Proof.
  destruct rest as [| c r]; [reflexivity |]. simpl.
  char16_cases c ltac:(simpl; intros H; try discriminate H; reflexivity).
Qed.

Lemma terminated_no_exponent (c : char16) (r : string) :
  terminated (String c r) = true -> (Char16.eqb c "e" || Char16.eqb c "E")%bool = false.
Proof.
  simpl. char16_cases c ltac:(simpl; intros H; try discriminate H; reflexivity).
Qed.

(** A written decimal is read as the number literal it is. *)
Lemma parse_unsigned_number_written (ip fp : list N) (e : option Z) (rest : string) :
  well_written ip fp -> terminated rest = true ->
  parse_unsigned_number (write_decimal ip fp e ++ rest)
  = Some (Number_value (decimal_value ip fp (exponent_of e)), rest).
Proof.
  intros [Hip [Hfp Hshape]] Hrest.
  pose proof (terminated_no_digit rest Hrest) as Hnodigit.
  unfold parse_unsigned_number, write_decimal.
  set (ex := match e with
             | None => EmptyString
             | Some e' => write_exponent e'
             end).
  assert (Hex_digit : starts_with_digit (ex ++ rest) = false).
  { unfold ex. destruct e; [reflexivity | exact Hnodigit]. }
  assert (Hexp :
            match ex ++ rest with
            | String c r =>
                if (Char16.eqb c "e" || Char16.eqb c "E")%bool then
                  let '(eneg, r3) :=
                    match r with
                    | String "+" r' => (false, r')
                    | String "-" r' => (true, r')
                    | _ => (false, r)
                    end in
                  match DecimalDigits r3 with
                  | ([], _) => None
                  | (ds, r4) =>
                      let e := Z.of_N (MV ds) in
                      Some (if eneg : bool then - e else e, r4)
                  end
                else Some (0, ex ++ rest)
            | EmptyString => Some (0, ex ++ rest)
            end = Some (exponent_of e, rest)).
  { unfold ex. destruct e as [e' |].
    - unfold write_exponent.
      destruct (write_N_digits (Z.abs_N e')) as [ds [-> [Hds [Hne Hval]]]].
      cbn [String.append].
      change (Char16.eqb "e" "e" || Char16.eqb "e" "E")%bool with true. cbv iota.
      destruct (Z.ltb_spec e' 0) as [Hneg | Hpos]; cbv iota;
        rewrite (DecimalDigits_write_digits ds rest Hds Hnodigit);
        (destruct ds as [| d r]; [contradiction |]); rewrite Hval;
        simpl exponent_of; do 2 f_equal; lia.
    - cbn [String.append exponent_of]. destruct rest as [| c r]; [reflexivity |].
      rewrite (terminated_no_exponent c r Hrest). reflexivity. }
  rewrite !append_assoc. cbv zeta. cbv zeta in Hexp.
  destruct fp as [| f fp'].
  - cbn [String.append]. rewrite (DecimalDigits_write_digits ip (ex ++ rest) Hip Hex_digit).
    assert (Hdot : match ex ++ rest with
                   | String "." r =>
                       match DecimalDigits r with
                       | ([], _) => None
                       | (fp, r2) => Some (fp, r2)
                       end
                   | _ => Some ([], ex ++ rest)
                   end = Some ([], ex ++ rest)).
    { unfold ex. destruct e; [reflexivity |]. cbn [String.append].
      apply terminated_no_point, Hrest. }
    rewrite Hdot, Hexp.
    destruct ip as [| [| d] [| d' r]]; try contradiction; reflexivity.
  - rewrite (DecimalDigits_write_digits ip _ Hip) by reflexivity.
    remember (f :: fp') as fp eqn:Efp.
    cbn [String.append].
    rewrite (DecimalDigits_write_digits fp (ex ++ rest) Hfp Hex_digit).
    assert (Hsome : match fp with
                    | [] => None
                    | _ :: _ => Some (fp, ex ++ rest)
                    end = Some (fp, ex ++ rest)) by (subst fp; reflexivity).
    destruct ip as [| [| d] [| d' r]]; try contradiction;
      cbv iota; rewrite Hsome, Hexp; reflexivity.
Qed.

(** A finite double is read back from the text [Number::toString] gives. *)
Lemma parse_number_Number_toString (q : Q) (rest : string) :
  Number_value q = Fin q -> terminated rest = true ->
  parse_number (Number_toString (Fin q) ++ rest) = Some (Fin q, rest).
Proof.
  intros Hq Hrest. unfold Number_toString. destruct (Qnum q) as [| a | a] eqn:Eq.
  - rewrite (Number_value_zero_num q Eq) in Hq. injection Hq as <-.
    pose proof (parse_unsigned_number_written [0%N] [] None rest
                  ltac:(repeat split; repeat constructor) Hrest) as H.
    exact H.
  - destruct (Number_toString_written q Hq ltac:(lia)) as [ip [fp [e [-> [Hw Hv]]]]].
    pose proof (parse_unsigned_number_written ip fp e rest Hw Hrest) as H.
    rewrite Hv in H.
    destruct (write_decimal_head ip fp e Hw) as [c [r [E Hc]]].
    rewrite E in *. cbn [String.append] in *.
    unfold parse_number.
    assert (Hsame : match String c (r ++ rest) with
                    | String "-" r0 =>
                        match parse_unsigned_number r0 with
                        | Some (n, rest0) => Some (negate n, rest0)
                        | None => None
                        end
                    | _ => parse_unsigned_number (String c (r ++ rest))
                    end = parse_unsigned_number (String c (r ++ rest))).
    { clear - Hc. char16_cases c ltac:(try discriminate Hc; reflexivity). }
    rewrite Hsame. exact H.
  - assert (Hopp : Number_value (- q) = Fin (- q)).
    { rewrite Number_value_opp, Hq. reflexivity. }
    destruct (Number_toString_written (- q) Hopp) as [ip [fp [e [-> [Hw Hv]]]]].
    { destruct q as [c d]. simpl in *. subst c. reflexivity. }
    cbn [String.append]. unfold parse_number.
    rewrite (parse_unsigned_number_written ip fp e rest Hw Hrest), Hv.
    simpl. rewrite Qopp_opp. reflexivity.
Qed.

(** The head of the text of a finite double is a digit or the sign. *)
Lemma Number_toString_head (q : Q) :
  Number_value q = Fin q ->
  exists c r, Number_toString (Fin q) = String c r /\
              (is_digit c || Char16.eqb c "-")%bool = true.
Proof.
  intros Hq. unfold Number_toString. destruct (Qnum q) as [| a | a] eqn:Eq.
  - eexists. eexists. split; reflexivity.
  - destruct (Number_toString_written q Hq ltac:(lia)) as [ip [fp [e [-> [Hw Hv]]]]].
    destruct (write_decimal_head ip fp e Hw) as [c [r [E Hc]]].
    exists c, r. rewrite Hc. split; [exact E | reflexivity].
  - eexists. eexists. split; reflexivity.
Qed.

Lemma JSON_stringify_head (j : json) :
  wf_json j ->
  exists c r, JSON_stringify j = String c r /\ value_start c = true.
Proof.
  destruct j as [| [|] | [| s | q] | s | l | ps]; simpl; intros Hwf;
    try (eexists; eexists; split; reflexivity); try contradiction.
  destruct (Number_toString_head q Hwf) as [c [r [E Hc]]].
  exists c, r. split; [exact E |].
  unfold value_start. apply orb_true_iff in Hc as [Hc | Hc].
  - rewrite Hc. reflexivity.
  - apply char16_eqb_eq in Hc. subst c. reflexivity.
Qed.

Lemma value_start_facts (c : char16) :
  value_start c = true ->
  is_json_ws c = false /\ Char16.eqb c "]" = false /\ Char16.eqb c "}" = false.
Proof.
  char16_cases c ltac:(intros H; try discriminate H; repeat split).
Qed.

Lemma parse_value_number (fuel : nat) (q : Q) (rest : string) :
  Number_value q = Fin q -> terminated rest = true ->
  parse_value (S fuel) (Number_toString (Fin q) ++ rest) = Some (JNum (Fin q), rest).
Proof.
  intros Hq Hrest.
  pose proof (parse_number_Number_toString q rest Hq Hrest) as Hnum.
  destruct (Number_toString_head q Hq) as [c [r [E Hc]]].
  rewrite E in *. cbn [String.append] in *.
  assert (Hstart : forall t,
            parse_value (S fuel) (String c t)
            = match parse_number (String c t) with
              | Some (n, rest0) => Some (JNum n, rest0)
              | None => None
              end).
  { intros t. clear - Hc. char16_cases c ltac:(try discriminate Hc; reflexivity). }
  rewrite Hstart, Hnum. reflexivity.
Qed.
Lemma wf_json_JArr (elems : list json) :
  wf_json (JArr elems) <-> Forall wf_json elems.
Proof.
  simpl. induction elems as [| v r IH].
  - split; [constructor | trivial].
  - split.
    + intros [Hv Hr]. constructor; [exact Hv | apply IH, Hr].
    + intros H. inversion H; subst. split; [assumption | apply IH; assumption].
Qed.

Lemma wf_json_JObj (props : list (string * json)) :
  wf_json (JObj props) <->
  object_of_members props = JObj props /\ Forall (fun kv => wf_json (snd kv)) props.
Proof.
  simpl. apply and_iff_compat_l. induction props as [| kv r IH].
  - split; [constructor | trivial].
  - split.
    + intros [Hv Hr]. constructor; [exact Hv | apply IH, Hr].
    + intros H. inversion H; subst. split; [assumption | apply IH; assumption].
Qed.

Lemma need_JArr (elems : list json) : need (JArr elems) = S (need_elems elems).
Proof. reflexivity. Qed.

Lemma need_JObj (props : list (string * json)) : need (JObj props) = S (need_members props).
Proof. reflexivity. Qed.

Lemma JSON_stringify_JObj (props : list (string * json)) :
  JSON_stringify (JObj props) = String "{" (commas (map write_member props) ++ "}").
Proof. reflexivity. Qed.

Lemma skip_ws_value (j : json) (rest : string) :
  wf_json j -> skip_ws (JSON_stringify j ++ rest) = JSON_stringify j ++ rest.
Proof.
  intros Hwf.
  destruct (JSON_stringify_head j Hwf) as [c [r [E Hc]]]. rewrite E. simpl.
  destruct (value_start_facts c Hc) as [Hws _]. rewrite Hws. reflexivity.
Qed.

Lemma commas_cons2 (x y : string) (l : list string) :
  commas (x :: y :: l) = x ++ String "," (commas (y :: l)).
Proof. reflexivity. Qed.

Lemma parse_elems_written (elems : list json) :
  Forall reads_back elems -> elems <> [] ->
  forall fuel rest,
    (need_elems elems <= fuel)%nat ->
    parse_elems fuel (commas (map JSON_stringify elems) ++ String "]" rest)
    = Some (elems, rest).
Proof.
  induction 1 as [| v r Hv Hr IH]; intros Hne fuel rest Hfuel; [contradiction |].
  simpl in Hfuel. destruct fuel as [| fuel]; [lia |].
  destruct r as [| v' r'].
  - simpl. rewrite (Hv fuel (String "]" rest)) by (try lia; reflexivity).
    reflexivity.
  - pose proof (IH ltac:(discriminate) fuel rest ltac:(simpl in *; lia)) as IH'.
    cbn [map] in IH' |- *. rewrite commas_cons2.
    remember (commas (JSON_stringify v' :: map JSON_stringify r')) as X eqn:EX.
    rewrite append_assoc. cbn [String.append].
    cbn [parse_elems].
    rewrite (Hv fuel (String "," (X ++ String "]" rest))) by (try lia; reflexivity).
    cbn [skip_ws]. change (is_json_ws ",") with false. cbv iota.
    change (Char16.eqb "," ",") with true. cbv iota.
    rewrite IH'. reflexivity.
Qed.

Lemma parse_members_written (props : list (string * json)) :
  Forall (fun kv => reads_back (snd kv)) props -> props <> [] ->
  forall fuel rest,
    (need_members props <= fuel)%nat ->
    parse_members fuel (commas (map write_member props) ++ String "}" rest)
    = Some (props, rest).
Proof.
  induction 1 as [| [k v] r Hv Hr IH]; intros Hne fuel rest Hfuel; [contradiction |].
  simpl in Hfuel, Hv. destruct fuel as [| fuel]; [lia |].
  destruct r as [| kv' r'].
  - cbn [map commas]. unfold write_member. cbn [fst snd].
    rewrite append_assoc, QuoteJSONString_append.
    cbn [parse_members skip_ws]. change (is_json_ws dquote) with false. cbv iota.
    rewrite char16_eqb_refl, parse_chars_quote_chars.
    cbn [String.append skip_ws]. change (is_json_ws ":") with false. cbv iota.
    change (Char16.eqb ":" ":") with true. cbv iota.
    rewrite (Hv fuel (String "}" rest)) by (try lia; reflexivity).
    reflexivity.
  - pose proof (IH ltac:(discriminate) fuel rest ltac:(simpl in *; lia)) as IH'.
    cbn [map] in IH' |- *. rewrite commas_cons2.
    remember (commas (write_member kv' :: map write_member r')) as X eqn:EX.
    unfold write_member at 1. cbn [fst snd].
    rewrite !append_assoc, QuoteJSONString_append.
    cbn [parse_members skip_ws]. change (is_json_ws dquote) with false. cbv iota.
    rewrite char16_eqb_refl, parse_chars_quote_chars.
    cbn [String.append skip_ws]. change (is_json_ws ":") with false. cbv iota.
    change (Char16.eqb ":" ":") with true. cbv iota.
    rewrite (Hv fuel (String "," (X ++ String "}" rest))) by (try lia; reflexivity).
    cbn [skip_ws]. change (is_json_ws ",") with false. cbv iota.
    change (Char16.eqb "," ",") with true. cbv iota.
    rewrite IH'. reflexivity.
Qed.

Lemma JSON_stringify_JArr (elems : list json) :
  JSON_stringify (JArr elems) = String "[" (commas (map JSON_stringify elems) ++ "]").
Proof. reflexivity. Qed.

Lemma parse_value_array (fuel : nat) (c : char16) (t : string) :
  is_json_ws c = false -> Char16.eqb c "]" = false ->
  parse_value (S fuel) (String "[" (String c t))
  = match parse_elems fuel (String c t) with
    | Some (elems, rest) => Some (JArr elems, rest)
    | None => None
    end.
Proof. intros Hws Hc. simpl. rewrite Hws, Hc. reflexivity. Qed.

Lemma parse_value_object (fuel : nat) (c : char16) (t : string) :
  is_json_ws c = false -> Char16.eqb c "}" = false ->
  parse_value (S fuel) (String "{" (String c t))
  = match parse_members fuel (String c t) with
    | Some (members, rest) => Some (object_of_members members, rest)
    | None => None
    end.
Proof. intros Hws Hc. simpl. rewrite Hws, Hc. reflexivity. Qed.

(** Every well-formed value is read back from its text. *)
Lemma parse_value_written (j : json) : wf_json j -> reads_back j.
Proof.
  induction j as [| b | n | s | elems IH | props IH] using json_ind;
    intros Hwf fuel rest Hfuel Hrest.
  - destruct fuel as [| fuel]; [simpl in Hfuel; lia | reflexivity].
  - destruct fuel as [| fuel]; [simpl in Hfuel; lia | destruct b; reflexivity].
  - destruct fuel as [| fuel]; [simpl in Hfuel; lia |].
    destruct n as [| sgn | q]; try contradiction.
    apply parse_value_number; [exact Hwf | exact Hrest].
  - destruct fuel as [| fuel]; [simpl in Hfuel; lia |].
    simpl JSON_stringify. rewrite QuoteJSONString_append. simpl.
    rewrite parse_chars_quote_chars. reflexivity.
  - rewrite need_JArr in Hfuel. destruct fuel as [| fuel]; [lia |].
    apply wf_json_JArr in Hwf.
    assert (Hback : Forall reads_back elems).
    { rewrite Forall_forall in *. intros v Hin. apply IH; [exact Hin | apply Hwf, Hin]. }
    destruct elems as [| v r]; [reflexivity |].
    pose proof (parse_elems_written (v :: r) Hback ltac:(discriminate) fuel rest
                  ltac:(lia)) as Helems.
    rewrite JSON_stringify_JArr. cbn [String.append].
    rewrite append_assoc. change ("]" ++ rest) with (String "]" rest).
    destruct (JSON_stringify_head v (Forall_inv Hwf)) as [c [t [E Hc]]].
    destruct (value_start_facts c Hc) as [Hws [Hclose _]].
    assert (Hhead : exists t', commas (map JSON_stringify (v :: r))
                                 ++ String "]" rest = String c t').
    { cbn [map]. destruct (map JSON_stringify r); simpl; rewrite E; simpl; eauto. }
    destruct Hhead as [t' Et']. rewrite Et' in *.
    rewrite (parse_value_array fuel c t' Hws Hclose), Helems. reflexivity.
  - rewrite need_JObj in Hfuel. destruct fuel as [| fuel]; [lia |].
    apply wf_json_JObj in Hwf. destruct Hwf as [Hcanon Hwf].
    assert (Hback : Forall (fun kv => reads_back (snd kv)) props).
    { rewrite Forall_forall in *. intros kv Hin. apply IH; [exact Hin | apply Hwf, Hin]. }
    destruct props as [| kv r]; [reflexivity |].
    pose proof (parse_members_written (kv :: r) Hback ltac:(discriminate) fuel rest
                  ltac:(lia)) as Hmembers.
    rewrite JSON_stringify_JObj. cbn [String.append].
    rewrite append_assoc. change ("}" ++ rest) with (String "}" rest).
    assert (Hhead : exists t', commas (map write_member (kv :: r))
                                 ++ String "}" rest = String dquote t').
    { cbn [map]. unfold write_member at 1, QuoteJSONString.
      destruct (map write_member r); simpl; eauto. }
    destruct Hhead as [t' Et']. rewrite Et' in *.
    rewrite (parse_value_object fuel dquote t' eq_refl eq_refl), Hmembers, Hcanon.
    reflexivity.
Qed.

Lemma need_elems_length (elems : list json) :
  Forall (fun v => (need v <= String.length (JSON_stringify v))%nat) elems ->
  (need_elems elems <= String.length (commas (map JSON_stringify elems)) + 1)%nat.
Proof.
  induction 1 as [| v r Hv Hr IH]; [simpl; lia |].
  destruct r as [| v' r'].
  - simpl in *. lia.
  - cbn [map] in *. rewrite commas_cons2, length_append.
    cbn [need_elems fold_right String.length] in *. lia.
Qed.

Lemma need_members_length (props : list (string * json)) :
  Forall (fun kv => (need (snd kv) <= String.length (JSON_stringify (snd kv)))%nat) props ->
  (need_members props <= String.length (commas (map write_member props)) + 1)%nat.
Proof.
  induction 1 as [| kv r Hv Hr IH]; [simpl; lia |].
  assert (Hmember : (need (snd kv) <= String.length (write_member kv))%nat).
  { unfold write_member. rewrite length_append. simpl. lia. }
  destruct r as [| kv' r'].
  - simpl in *. lia.
  - cbn [map] in *. rewrite commas_cons2, length_append.
    cbn [need_members fold_right String.length] in *. lia.
Qed.

Lemma need_length (j : json) :
  wf_json j -> (need j <= String.length (JSON_stringify j))%nat.
Proof.
  induction j as [| b | n | s | elems IH | props IH] using json_ind; intros Hwf.
  - simpl. lia.
  - destruct b; simpl; lia.
  - destruct (JSON_stringify_head (JNum n) Hwf) as [c [r [E _]]].
    rewrite E. simpl. lia.
  - simpl. lia.
  - rewrite need_JArr, JSON_stringify_JArr.
    apply wf_json_JArr in Hwf.
    assert (Hall : Forall (fun v => (need v <= String.length (JSON_stringify v))%nat) elems).
    { rewrite Forall_forall in *. intros v Hin. apply IH; [exact Hin | apply Hwf, Hin]. }
    pose proof (need_elems_length elems Hall).
    cbn [String.length]. rewrite length_append. simpl. lia.
  - rewrite need_JObj, JSON_stringify_JObj.
    apply wf_json_JObj in Hwf. destruct Hwf as [_ Hwf].
    assert (Hall : Forall (fun kv => (need (snd kv)
                                      <= String.length (JSON_stringify (snd kv)))%nat) props).
    { rewrite Forall_forall in *. intros kv Hin. apply IH; [exact Hin | apply Hwf, Hin]. }
    pose proof (need_members_length props Hall).
    cbn [String.length]. rewrite length_append. simpl. lia.
Qed.

(** [JSON.parse(JSON.stringify(j))] is [j] for a well-formed [j]. *)
Lemma JSON_parse_stringify (j : json) :
  wf_json j -> JSON_parse (JSON_stringify j) = Some j.
Proof.
  intros Hwf. unfold JSON_parse.
  pose proof (parse_value_written j Hwf (S (String.length (JSON_stringify j))) EmptyString
                ltac:(pose proof (need_length j Hwf); lia) eq_refl) as H.
  rewrite append_empty_r in H. rewrite H. reflexivity.
Qed.

(** ** The reader's fuel

    [JSON_parse] gives [parse_value] more fuel than the text has
    characters.  Every step that uses fuel uses a character too, so no text
    is refused for want of fuel: what [parse_value] reads with any fuel, it
    reads with that much. *)

Lemma skip_ws_length (s : string) : (String.length (skip_ws s) <= String.length s)%nat.
Proof.
  induction s as [| c r IH]; simpl; [lia |]. destruct (is_json_ws c); simpl; lia.
Qed.

Lemma strip_prefix_length (lit s rest : string) :
  strip_prefix lit s = Some rest ->
  String.length s = (String.length lit + String.length rest)%nat.
Proof.
  revert s. induction lit as [| a lit IH]; simpl; intros s H.
  - injection H as ->. reflexivity.
  - destruct s as [| b r]; [discriminate H |].
    destruct (Char16.eqb a b); [| discriminate H].
    simpl. rewrite (IH r H). reflexivity.
Qed.

Lemma parse_chars_length_le (n : nat) (s str rest : string) :
  (String.length s <= n)%nat -> parse_chars s = Some (str, rest) ->
  (String.length rest < String.length s)%nat.
Proof.
  revert s str rest. induction n as [| n IH]; intros s str rest Hn H;
    (destruct s as [| c r]; [discriminate H |]); cbn [String.length] in Hn; [lia |].
  cbn [parse_chars] in H.
  destruct (Char16.eqb c dquote).
  { injection H as _ <-. cbn [String.length]. lia. }
  assert (Hcons : forall c' t, (String.length t <= n)%nat ->
            cons_char c' (parse_chars t) = Some (str, rest) ->
            (String.length rest < String.length t)%nat).
  { intros c' t Ht Hc. unfold cons_char in Hc.
    destruct (parse_chars t) as [[s0 rest0] |] eqn:E; [| discriminate Hc].
    injection Hc as _ <-. exact (IH t s0 rest0 Ht E). }
  destruct (Char16.eqb c "\").
  - destruct r as [| e r']; [discriminate H |]. cbn [String.length] in *.
    destruct (Char16.eqb e "u").
    + destruct r' as [| h1 [| h2 [| h3 [| h4 r'']]]]; try discriminate H.
      cbn [String.length] in *.
      destruct (hex4 h1 h2 h3 h4); [| discriminate H].
      apply Hcons in H; lia.
    + destruct (unescape e); [| discriminate H].
      apply Hcons in H; lia.
  - destruct (is_control c); [discriminate H |].
    apply Hcons in H; cbn [String.length]; lia.
Qed.

Lemma parse_chars_length (s str rest : string) :
  parse_chars s = Some (str, rest) -> (String.length rest < String.length s)%nat.
Proof. apply (parse_chars_length_le (String.length s)). lia. Qed.

Lemma DecimalDigits_length (s : string) :
  (List.length (fst (DecimalDigits s)) + String.length (snd (DecimalDigits s))
   = String.length s)%nat.
Proof.
  induction s as [| c r IH]; [reflexivity |]. cbn [DecimalDigits].
  destruct (DecimalDigit c); [| reflexivity].
  destruct (DecimalDigits r) as [ds r']. simpl in *. lia.
Qed.

Lemma point_length (r1 : string) (fp : list N) (r2 : string) :
  match r1 with
  | String "." r =>
      match DecimalDigits r with
      | ([], _) => None
      | (fp, r2) => Some (fp, r2)
      end
  | _ => Some ([], r1)
  end = Some (fp, r2) ->
  (String.length r2 <= String.length r1)%nat.
Proof.
  destruct r1 as [| c r]; [intros H; injection H as _ <-; lia |].
  pose proof (DecimalDigits_length r) as Hlen.
  char16_cases c
    ltac:(intros H;
          first [ injection H as _ <-; cbn [String.length]; lia
                | destruct (DecimalDigits r) as [l t]; destruct l;
                  [discriminate H | injection H as _ <-; simpl in *; lia] ]).
Qed.

Lemma sign_length (r : string) :
  (String.length (snd match r with
                      | String "+" r' => (false, r')
                      | String "-" r' => (true, r')
                      | _ => (false, r)
                      end) <= String.length r)%nat.
Proof.
  destruct r as [| c r']; [simpl; lia |].
  char16_cases c ltac:(simpl; lia).
Qed.

Lemma parse_unsigned_number_length (s : string) (n : number) (rest : string) :
  parse_unsigned_number s = Some (n, rest) ->
  (String.length rest < String.length s)%nat.
Proof.
  unfold parse_unsigned_number. pose proof (DecimalDigits_length s) as Hlen.
  destruct (DecimalDigits s) as [ip r1]. cbn [fst snd] in Hlen.
  assert (Hbody :
    (0 < List.length ip)%nat ->
    match
      match r1 with
      | String "." r =>
          match DecimalDigits r with
          | ([], _) => None
          | (fp, r2) => Some (fp, r2)
          end
      | _ => Some ([], r1)
      end
    with
    | None => None
    | Some (fp, r2) =>
        let exponent :=
          match r2 with
          | String c r =>
              if (Char16.eqb c "e" || Char16.eqb c "E")%bool then
                let '(eneg, r3) :=
                  match r with
                  | String "+" r' => (false, r')
                  | String "-" r' => (true, r')
                  | _ => (false, r)
                  end in
                match DecimalDigits r3 with
                | ([], _) => None
                | (ds, r4) =>
                    let e := Z.of_N (MV ds) in
                    Some (if eneg : bool then - e else e, r4)
                end
              else Some (0, r2)
          | EmptyString => Some (0, r2)
          end in
        match exponent with
        | None => None
        | Some (e, rest) => Some (Number_value (decimal_value ip fp e), rest)
        end
    end = Some (n, rest) ->
    (String.length rest < String.length s)%nat).
  { intros Hip H.
    destruct (match r1 with
              | String "." r =>
                  match DecimalDigits r with
                  | ([], _) => None
                  | (fp, r2) => Some (fp, r2)
                  end
              | _ => Some ([], r1)
              end) as [[fp r2] |] eqn:Efrac; [| discriminate H].
    apply point_length in Efrac. cbv zeta in H.
    assert (Hr2 : (String.length rest <= String.length r2)%nat); [| lia].
    destruct r2 as [| c r]; [injection H as _ <-; lia |].
    destruct (Char16.eqb c "e" || Char16.eqb c "E")%bool;
      [| injection H as _ <-; lia].
    pose proof (sign_length r) as Hsign.
    destruct (match r with
              | String "+" r' => (false, r')
              | String "-" r' => (true, r')
              | _ => (false, r)
              end) as [eneg r3].
    cbn [snd] in Hsign.
    pose proof (DecimalDigits_length r3) as Hds.
    destruct (DecimalDigits r3) as [ds r4]. cbn [fst snd] in Hds.
    destruct ds; [discriminate H |]. injection H as _ <-.
    cbn [String.length]. lia. }
  destruct ip as [| d ip']; [discriminate |].
  destruct d as [| p]; [destruct ip' as [| d' ip'']; [| discriminate] |];
    apply Hbody; simpl; lia.
Qed.

Lemma parse_number_length (s : string) (n : number) (rest : string) :
  parse_number s = Some (n, rest) -> (String.length rest < String.length s)%nat.
Proof.
  unfold parse_number. destruct s as [| c r]; [apply parse_unsigned_number_length |].
  char16_cases c
    ltac:(first [ apply parse_unsigned_number_length
                | destruct (parse_unsigned_number r) as [[n' rest'] |] eqn:E;
                  [| discriminate];
                  intros H; injection H as _ <-;
                  apply parse_unsigned_number_length in E;
                  cbn [String.length]; lia ]).
Qed.

Lemma parse_enough (fuel : nat) :
  enough parse_value fuel /\ enough parse_elems fuel /\ enough parse_members fuel.
Proof.
  induction fuel as [| f [IHv [IHe IHm]]];
    [split; [| split]; intros s r rest H; discriminate H |].
  split; [| split]; intros s r rest H.
  - cbn [parse_value] in H.
    pose proof (skip_ws_length s) as Hws.
    destruct (skip_ws s) as [| c t] eqn:Et; [discriminate H |].
    cbn [String.length] in Hws.
    assert (Hword : forall lit j,
              (0 < String.length lit)%nat ->
              expect lit j (String c t) = Some (r, rest) ->
              (String.length rest < String.length s)%nat).
    { intros lit j Hlit Hj. unfold expect in Hj.
      destruct (strip_prefix lit (String c t)) as [rest0 |] eqn:Ep; [| discriminate Hj].
      injection Hj as _ <-. apply strip_prefix_length in Ep.
      cbn [String.length] in Ep. lia. }
    destruct (Char16.eqb c "n") eqn:Hcn.
    { pose proof (Hword "null" JNull ltac:(simpl; lia) H) as Hlt. split; [exact Hlt |].
      refuel f'. cbn [parse_value]. rewrite Et. cbv iota. rewrite Hcn. exact H. }
    destruct (Char16.eqb c "t") eqn:Hct.
    { pose proof (Hword "true" (JBool true) ltac:(simpl; lia) H) as Hlt. split; [exact Hlt |].
      refuel f'. cbn [parse_value]. rewrite Et. cbv iota. rewrite Hcn, Hct. exact H. }
    destruct (Char16.eqb c "f") eqn:Hcf.
    { pose proof (Hword "false" (JBool false) ltac:(simpl; lia) H) as Hlt. split; [exact Hlt |].
      refuel f'. cbn [parse_value]. rewrite Et. cbv iota. rewrite Hcn, Hct, Hcf. exact H. }
    destruct (Char16.eqb c dquote) eqn:Hcq.
    { assert (Hlt : (String.length rest < String.length s)%nat).
      { destruct (parse_chars t) as [[str rest0] |] eqn:Ek; [| discriminate H].
        injection H as _ <-. apply parse_chars_length in Ek. lia. }
      split; [exact Hlt |].
      refuel f'. cbn [parse_value]. rewrite Et. cbv iota. rewrite Hcn, Hct, Hcf, Hcq. exact H. }
    destruct (Char16.eqb c "[") eqn:Hca.
    { pose proof (skip_ws_length t) as Hws'.
      destruct (skip_ws t) as [| c' rest0] eqn:Et'; [discriminate H |].
      cbn [String.length] in Hws'.
      destruct (Char16.eqb c' "]") eqn:Hc'.
      - injection H as <- <-.
        assert (Hlt : (String.length rest0 < String.length s)%nat) by lia.
        split; [exact Hlt |].
        refuel f'. cbn [parse_value]. rewrite Et. cbv iota.
        rewrite Hcn, Hct, Hcf, Hcq, Hca, Et'. cbv iota. rewrite Hc'. reflexivity.
      - destruct (parse_elems f t) as [[elems rest'] |] eqn:Ee; [| discriminate H].
        injection H as <- <-. destruct (IHe _ _ _ Ee) as [Hlt' Hmore].
        assert (Hlt : (String.length rest' < String.length s)%nat) by lia.
        split; [exact Hlt |].
        refuel f'. cbn [parse_value]. rewrite Et. cbv iota.
        rewrite Hcn, Hct, Hcf, Hcq, Hca, Et'. cbv iota.
        rewrite Hc', (Hmore f') by lia. reflexivity. }
    destruct (Char16.eqb c "{") eqn:Hco.
    { pose proof (skip_ws_length t) as Hws'.
      destruct (skip_ws t) as [| c' rest0] eqn:Et'; [discriminate H |].
      cbn [String.length] in Hws'.
      destruct (Char16.eqb c' "}") eqn:Hc'.
      - injection H as <- <-.
        assert (Hlt : (String.length rest0 < String.length s)%nat) by lia.
        split; [exact Hlt |].
        refuel f'. cbn [parse_value]. rewrite Et. cbv iota.
        rewrite Hcn, Hct, Hcf, Hcq, Hca, Hco, Et'. cbv iota. rewrite Hc'. reflexivity.
      - destruct (parse_members f t) as [[members rest'] |] eqn:Em; [| discriminate H].
        injection H as <- <-. destruct (IHm _ _ _ Em) as [Hlt' Hmore].
        assert (Hlt : (String.length rest' < String.length s)%nat) by lia.
        split; [exact Hlt |].
        refuel f'. cbn [parse_value]. rewrite Et. cbv iota.
        rewrite Hcn, Hct, Hcf, Hcq, Hca, Hco, Et'. cbv iota.
        rewrite Hc', (Hmore f') by lia. reflexivity. }
    assert (Hlt : (String.length rest < String.length s)%nat).
    { destruct (parse_number (String c t)) as [[n rest0] |] eqn:En; [| discriminate H].
      injection H as _ <-. apply parse_number_length in En.
      cbn [String.length] in En. lia. }
    split; [exact Hlt |].
    refuel f'. cbn [parse_value]. rewrite Et. cbv iota.
    rewrite Hcn, Hct, Hcf, Hcq, Hca, Hco. exact H.
  - cbn [parse_elems] in H.
    destruct (parse_value f s) as [[v rest1] |] eqn:Ev; [| discriminate H].
    destruct (IHv _ _ _ Ev) as [Hlt1 Hmore1].
    pose proof (skip_ws_length rest1) as Hws.
    destruct (skip_ws rest1) as [| c rest2] eqn:Et; [discriminate H |].
    cbn [String.length] in Hws.
    destruct (Char16.eqb c ",") eqn:Hcc.
    + destruct (parse_elems f rest2) as [[vs rest3] |] eqn:Ee; [| discriminate H].
      injection H as <- <-. destruct (IHe _ _ _ Ee) as [Hlt2 Hmore2].
      assert (Hlt : (String.length rest3 < String.length s)%nat) by lia.
      split; [exact Hlt |].
      refuel f'. cbn [parse_elems]. rewrite (Hmore1 f') by lia. cbv iota.
      rewrite Et. cbv iota. rewrite Hcc, (Hmore2 f') by lia. reflexivity.
    + destruct (Char16.eqb c "]") eqn:Hcb; [| discriminate H].
      injection H as <- <-.
      assert (Hlt : (String.length rest2 < String.length s)%nat) by lia.
      split; [exact Hlt |].
      refuel f'. cbn [parse_elems]. rewrite (Hmore1 f') by lia. cbv iota.
      rewrite Et. cbv iota. rewrite Hcc, Hcb. reflexivity.
  - cbn [parse_members] in H.
    pose proof (skip_ws_length s) as Hws.
    destruct (skip_ws s) as [| c t] eqn:Et; [discriminate H |].
    cbn [String.length] in Hws.
    destruct (Char16.eqb c dquote) eqn:Hcq; [| discriminate H].
    destruct (parse_chars t) as [[k rest0] |] eqn:Ek; [| discriminate H].
    pose proof (parse_chars_length _ _ _ Ek) as Hk.
    pose proof (skip_ws_length rest0) as Hws0.
    destruct (skip_ws rest0) as [| c1 rest1] eqn:Et0; [discriminate H |].
    cbn [String.length] in Hws0.
    destruct (Char16.eqb c1 ":") eqn:Hcol; [| discriminate H].
    destruct (parse_value f rest1) as [[v rest2] |] eqn:Ev; [| discriminate H].
    destruct (IHv _ _ _ Ev) as [Hlt1 Hmore1].
    pose proof (skip_ws_length rest2) as Hws2.
    destruct (skip_ws rest2) as [| c2 rest3] eqn:Et2; [discriminate H |].
    cbn [String.length] in Hws2.
    destruct (Char16.eqb c2 ",") eqn:Hcc.
    + destruct (parse_members f rest3) as [[kvs rest4] |] eqn:Em; [| discriminate H].
      injection H as <- <-. destruct (IHm _ _ _ Em) as [Hlt2 Hmore2].
      assert (Hlt : (String.length rest4 < String.length s)%nat) by lia.
      split; [exact Hlt |].
      refuel f'. cbn [parse_members]. rewrite Et. cbv iota. rewrite Hcq, Ek. cbv iota.
      rewrite Et0. cbv iota. rewrite Hcol, (Hmore1 f') by lia. cbv iota.
      rewrite Et2. cbv iota. rewrite Hcc, (Hmore2 f') by lia. reflexivity.
    + destruct (Char16.eqb c2 "}") eqn:Hcb; [| discriminate H].
      injection H as <- <-.
      assert (Hlt : (String.length rest3 < String.length s)%nat) by lia.
      split; [exact Hlt |].
      refuel f'. cbn [parse_members]. rewrite Et. cbv iota. rewrite Hcq, Ek. cbv iota.
      rewrite Et0. cbv iota. rewrite Hcol, (Hmore1 f') by lia. cbv iota.
      rewrite Et2. cbv iota. rewrite Hcc, Hcb. reflexivity.
Qed.

(** What [parse_value] reads with some fuel, [JSON_parse] reads: no text is
    refused for want of fuel. *)
Lemma JSON_parse_fuel (fuel : nat) (text : string) (j : json) (rest : string) :
  parse_value fuel text = Some (j, rest) -> skip_ws rest = EmptyString ->
  JSON_parse text = Some j.
Proof.
  intros H Hrest. destruct (parse_enough fuel) as [Hv _].
  destruct (Hv _ _ _ H) as [Hlt Hmore].
  unfold JSON_parse. rewrite (Hmore (S (String.length text))) by lia.
  rewrite Hrest. reflexivity.
Qed.

(** ** Enumeration order of own properties *)

Lemma insert_index_ascending (n : N) (k : string) (v : json) (l : Map) :
  array_index k = Some n -> ascending l -> ascending (insert_index n k v l).
Proof.
  intros Hk Hl. induction Hl as [| k' v' n' l Hk' Hhead Hl IH]; simpl.
  - econstructor; [exact Hk | exact I | constructor].
  - rewrite Hk'. destruct (N.leb_spec n n') as [Hle | Hgt].
    + econstructor; [exact Hk | exists n'; split; [exact Hk' | exact Hle] |].
      econstructor; eassumption.
    + econstructor; [exact Hk' | | exact IH].
      destruct l as [| [k'' v''] l']; simpl.
      * exists n. split; [exact Hk | lia].
      * destruct Hhead as [n'' [Hk'' Hle'']]. rewrite Hk''.
        destruct (N.leb_spec n n'').
        -- exists n. split; [exact Hk | lia].
        -- exists n''. split; [exact Hk'' | exact Hle''].
Qed.

Lemma integer_keys_ascending (props : Map) : ascending (integer_keys props).
Proof.
  induction props as [| [k v] r IH]; simpl; [constructor |].
  destruct (array_index k) eqn:Hk; [| exact IH].
  apply insert_index_ascending; assumption.
Qed.

Lemma integer_keys_fixed (l : Map) : ascending l -> integer_keys l = l.
Proof.
  induction 1 as [| k v n l Hk Hhead Hl IH]; simpl; [reflexivity |].
  rewrite Hk, IH. destruct l as [| [k' v'] l']; simpl; [reflexivity |].
  destruct Hhead as [n' [Hk' Hle]]. rewrite Hk'.
  apply N.leb_le in Hle. rewrite Hle. reflexivity.
Qed.

Lemma string_keys_ascending (l : Map) : ascending l -> string_keys l = [].
Proof.
  induction 1 as [| k v n l Hk Hhead Hl IH]; simpl; [reflexivity |].
  unfold is_array_index. rewrite Hk. simpl. exact IH.
Qed.

Lemma integer_keys_string_keys (l : Map) : integer_keys (string_keys l) = [].
Proof.
  induction l as [| [k v] r IH]; simpl; [reflexivity |].
  unfold is_array_index. destruct (array_index k) eqn:Hk; simpl; [exact IH |].
  rewrite Hk. exact IH.
Qed.

Lemma string_keys_string_keys (l : Map) : string_keys (string_keys l) = string_keys l.
Proof.
  induction l as [| [k v] r IH]; simpl; [reflexivity |].
  destruct (negb (is_array_index k)) eqn:Hk; simpl; [| exact IH].
  rewrite Hk. f_equal. exact IH.
Qed.

Lemma integer_keys_app (a b : Map) :
  integer_keys b = [] -> integer_keys (a ++ b)%list = integer_keys a.
Proof.
  intros Hb. induction a as [| [k v] r IH]; simpl; [exact Hb |].
  rewrite IH. reflexivity.
Qed.

Lemma OrdinaryOwnPropertyKeys_idempotent (props : Map) :
  OrdinaryOwnPropertyKeys (OrdinaryOwnPropertyKeys props) = OrdinaryOwnPropertyKeys props.
Proof.
  unfold OrdinaryOwnPropertyKeys at 1 3.
  unfold OrdinaryOwnPropertyKeys.
  rewrite integer_keys_app by apply integer_keys_string_keys.
  rewrite (integer_keys_fixed _ (integer_keys_ascending props)).
  unfold string_keys at 1. rewrite filter_app. fold (string_keys (integer_keys props)).
  fold (string_keys (string_keys props)).
  rewrite (string_keys_ascending _ (integer_keys_ascending props)).
  rewrite string_keys_string_keys. reflexivity.
Qed.

Lemma insert_index_Permutation (n : N) (k : string) (v : json) (l : Map) :
  Permutation (insert_index n k v l) ((k, v) :: l).
Proof.
  induction l as [| [k' v'] r IH]; simpl; [reflexivity |].
  destruct (array_index k'); [| reflexivity].
  destruct (n <=? n0)%N; [reflexivity |].
  rewrite IH. apply perm_swap.
Qed.

Lemma OrdinaryOwnPropertyKeys_Permutation (props : Map) :
  Permutation (OrdinaryOwnPropertyKeys props) props.
Proof.
  unfold OrdinaryOwnPropertyKeys.
  induction props as [| [k v] r IH]; simpl; [reflexivity |].
  unfold is_array_index. destruct (array_index k); simpl.
  - rewrite insert_index_Permutation. simpl. constructor. exact IH.
  - rewrite <- Permutation_middle. constructor. exact IH.
Qed.


(** The properties of an object with distinct keys, read in enumeration
    order, are what [JSON.parse] rebuilds from them. *)
Lemma object_of_members_enumerated (props : Map) :
  Map_wf props ->
  object_of_members (OrdinaryOwnPropertyKeys props) = JObj (OrdinaryOwnPropertyKeys props).
Proof.
  intros Hwf. unfold object_of_members, CreateDataProperty.
  rewrite (fold_Map_set_fresh (OrdinaryOwnPropertyKeys props) []).
  - simpl. rewrite OrdinaryOwnPropertyKeys_idempotent. reflexivity.
  - simpl. apply (Map_wf_Permutation props); [| exact Hwf].
    symmetry. apply OrdinaryOwnPropertyKeys_Permutation.
Qed.

(** ** Muting *)

Lemma mutePlayer_run (player : Player.t) (w : World) :
  let m' := Map_set (Player.conn player) (snapshot player) (muteMap w) in
  mutePlayer player w
  = (Return tt, with_event (Persist (serializeMuteMap m')) (with_muteMap m' w)).
Proof. reflexivity. Qed.

(** Muting alice again leaves her first; she does not move behind carol. *)
Lemma remute_moved_to_end_fails :
  Map_has (Player.conn alice) (muteMap room_two_muted) = true /\
  ~ moved_to_end (Player.conn alice)
      (Map_keys (muteMap room_two_muted))
      (Map_keys (muteMap (snd (mutePlayer alice room_two_muted)))).
Proof.
  split; [reflexivity |].
  unfold moved_to_end. vm_compute. discriminate.
Qed.

(** C7, amended. Muting a connection string that is already in the mute
    map replaces its entry where it stands: the iteration order of the keys
    is unchanged, the key now maps to the new player object, it is still
    present, and it occurs once. *)
Theorem remute_keeps_position (w : World) (player : Player.t) :
  Map_has (Player.conn player) (muteMap w) = true ->
  Map_wf (muteMap w) ->
  let w' := snd (mutePlayer player w) in
  Map_keys (muteMap w') = Map_keys (muteMap w) /\
  Map_get (Player.conn player) (muteMap w') = Some (snapshot player) /\
  Map_has (Player.conn player) (muteMap w') = true /\
  count_occ string_dec (Map_keys (muteMap w')) (Player.conn player) = 1%nat.
Proof.
  intros Hin Hwf w'. subst w'. rewrite mutePlayer_run. simpl.
  assert (Hkeys : Map_keys (Map_set (Player.conn player) (snapshot player) (muteMap w))
                  = Map_keys (muteMap w))
    by (apply Map_keys_set_present, Hin).
  repeat split.
  - exact Hkeys.
  - apply Map_get_set_same.
  - unfold Map_has. rewrite Map_get_set_same. reflexivity.
  - rewrite Hkeys. apply NoDup_count_occ'; [exact Hwf | apply Map_has_In, Hin].
Qed.

Lemma remute_keeps_position_witness :
  Map_keys (muteMap (snd (mutePlayer alice room_two_muted)))
  = [Player.conn alice; Player.conn carol].
Proof.
  apply (remute_keeps_position room_two_muted alice).
  - reflexivity.
  - unfold Map_wf. simpl. repeat constructor; simpl; intuition discriminate.
Defined.

Lemma mute_protected_run (w : World) (actor target : Player.t) (id : value) :
  isPlayerAllowedToRunCommand actor w = (Return true, w) ->
  getPlayer (parseId id) w = (Return (Some target), w) ->
  isPlayerProtected (Player.id target) w = (Return true, w) ->
  onCommand1_mute actor [id] w
  = (Return tt,
     with_event (Announce [Lit "This player has immunity for mutes."]
                          (Some (Player.id actor)) red) w).
Proof.
  intros Hok Hfound Hprot. unfold onCommand1_mute.
  rewrite (bind_Return _ _ _ _ _ Hok). simpl.
  rewrite (bind_Return _ _ _ _ _ Hfound).
  rewrite (bind_Return _ _ _ _ _ Hprot). reflexivity.
Qed.

(** The protected target of a refused mute can be in the mute map afterwards. *)
Lemma mute_protected_has_false_fails :
  isPlayerAllowedToRunCommand bob room_promoted = (Return true, room_promoted) /\
  getPlayer (parseId (VStr "#7")) room_promoted = (Return (Some carol), room_promoted) /\
  isPlayerProtected (Player.id carol) room_promoted = (Return true, room_promoted) /\
  isMuted carol (snd (onCommand1_mute bob [VStr "#7"] room_promoted))
  <> (Return false, snd (onCommand1_mute bob [VStr "#7"] room_promoted)).
Proof.
  repeat split. vm_compute. discriminate.
Qed.

(** C3, amended. When an admitted actor runs the mute command on a player
    who is in the room and protected, the actor is sent the immunity message
    and the mute map is left as it was: the target is not added, and is
    absent afterwards whenever it was absent before. *)
Theorem mute_protected_is_refused (w : World) (actor target : Player.t) (id : value) :
  isPlayerAllowedToRunCommand actor w = (Return true, w) ->
  getPlayer (parseId id) w = (Return (Some target), w) ->
  isPlayerProtected (Player.id target) w = (Return true, w) ->
  let w' := snd (onCommand1_mute actor [id] w) in
  trace w' = (trace w ++ [Announce [Lit "This player has immunity for mutes."]
                                   (Some (Player.id actor)) red])%list /\
  muteMap w' = muteMap w /\
  (Map_has (Player.conn target) (muteMap w) = false ->
   isMuted target w' = (Return false, w')).
Proof.
  intros Hok Hfound Hprot w'. subst w'.
  rewrite (mute_protected_run w actor target id Hok Hfound Hprot). simpl.
  repeat split.
  intros Habsent. unfold isMuted, getMuteMap, bind, ret. simpl.
  rewrite Habsent. reflexivity.
Qed.

Lemma mute_protected_is_refused_witness :
  let w' := snd (onCommand1_mute alice [VStr "#5"] (mkWorld [] [alice; bob] default_config
                   (Some (mkRoles (fun _ role => String.eqb role "admin"))) [])) in
  trace w' = [Announce [Lit "This player has immunity for mutes."] (Some 3) red] /\
  muteMap w' = [] /\
  isMuted bob w' = (Return false, w').
Proof.
  pose proof (mute_protected_is_refused
                (mkWorld [] [alice; bob] default_config
                   (Some (mkRoles (fun _ role => String.eqb role "admin"))) [])
                alice bob (VStr "#5") eq_refl eq_refl eq_refl) as [Htrace [Hmap Hhas]].
  split; [exact Htrace | split; [exact Hmap | exact (Hhas eq_refl)]].
Defined.

(** ** Unmuting *)

Lemma of_Z_eqb (a b : Z) : number_eqb (of_Z a) (of_Z b) = (a =? b).
Proof.
  unfold number_eqb, of_Z, Qeq_bool, inject_Z. simpl.
  rewrite !Z.mul_1_r. reflexivity.
Qed.

Lemma removeMute_loop_miss (keys : list string) (i : nat) (v : value) (w : World) :
  (forall j, (j < List.length keys)%nat -> counter_strict_eq (i + j) v = false) ->
  removeMute_loop keys i v w = (Return None, w).
Proof.
  revert i. induction keys as [| key rest IH]; intros i Hmiss; simpl.
  - reflexivity.
  - pose proof (Hmiss 0%nat) as H0. rewrite Nat.add_0_r in H0.
    rewrite H0 by (simpl; lia).
    apply IH. intros j Hj.
    replace (S i + j)%nat with (i + S j)%nat by lia.
    apply Hmiss. simpl. lia.
Qed.

Lemma removeMute_loop_hit (keys : list string) (i j : nat) (key : string)
      (v : value) (w : World) :
  (forall j', (j' < j)%nat -> counter_strict_eq (i + j') v = false) ->
  counter_strict_eq (i + j) v = true ->
  nth_error keys j = Some key ->
  removeMute_loop keys i v w = removed_at key w.
Proof.
  revert i j. induction keys as [| k rest IH]; intros i j Hbefore Hat Hnth.
  - destruct j; discriminate.
  - destruct j as [| j]; simpl in *.
    + injection Hnth as ->. rewrite Nat.add_0_r in Hat. rewrite Hat. reflexivity.
    + pose proof (Hbefore 0%nat) as H0. rewrite Nat.add_0_r in H0.
      rewrite H0 by lia.
      apply (IH (S i) j).
      * intros j' Hj'. replace (S i + j')%nat with (i + S j')%nat by lia.
        apply Hbefore. lia.
      * replace (S i + j)%nat with (i + S j)%nat by lia. exact Hat.
      * exact Hnth.
Qed.

Lemma removeMute_number (n : number) (w : World) :
  isNaN n = false ->
  removeMute (VNum n) w = removeMute_loop (Map_keys (muteMap w)) 0 (VNum n) w.
Proof.
  intros Hn. unfold removeMute. simpl. rewrite Hn. reflexivity.
Qed.

Lemma removeMute_index_hit (w : World) (i : nat) (k : string) (v : json) :
  Map_wf (muteMap w) ->
  nth_error (muteMap w) i = Some (k, v) ->
  let m' := (firstn i (muteMap w) ++ skipn (S i) (muteMap w))%list in
  removeMute (VNum (of_Z (Z.of_nat i))) w
  = (Return (Some v), with_event (Persist (serializeMuteMap m')) (with_muteMap m' w)).
Proof.
  intros Hwf Hnth m'. rewrite removeMute_number by reflexivity.
  rewrite (removeMute_loop_hit (Map_keys (muteMap w)) 0 i k).
  - unfold removed_at. rewrite (Map_get_nth _ _ _ _ Hwf Hnth).
    rewrite (Map_delete_nth _ _ _ _ Hwf Hnth). reflexivity.
  - intros j' Hj'. unfold counter_strict_eq. rewrite of_Z_eqb. apply Z.eqb_neq. lia.
  - unfold counter_strict_eq. rewrite of_Z_eqb. apply Z.eqb_refl.
  - unfold Map_keys. rewrite nth_error_map, Hnth. reflexivity.
Qed.

Lemma removeMute_number_miss (n : number) (w : World) :
  (forall j, (j < Map_size (muteMap w))%nat -> number_eqb (of_Z (Z.of_nat j)) n = false) ->
  removeMute (VNum n) w = (Return None, w).
Proof.
  intros Hmiss. destruct (isNaN n) eqn:Hn.
  - unfold removeMute. simpl. rewrite Hn. reflexivity.
  - rewrite removeMute_number by exact Hn.
    apply removeMute_loop_miss. intros j Hj. unfold counter_strict_eq. simpl (0 + j)%nat.
    apply Hmiss.
    unfold Map_keys in Hj. rewrite length_map in Hj. exact Hj.
Qed.

(** C8. Called with the number i, [removeMute] removes and returns the
    entry at position i of the current iteration order (counting from 0),
    and persists; called with a number that is out of range, not an integer,
    infinite or [NaN], it returns [null] and changes nothing.  With entries
    A, B, C in that order, removing at 1 returns B and leaves A, C; removing
    at 1 again returns C. *)
Theorem removeMute_by_index (w : World) :
  Map_wf (muteMap w) ->
  (forall i k v,
      nth_error (muteMap w) i = Some (k, v) ->
      let m' := (firstn i (muteMap w) ++ skipn (S i) (muteMap w))%list in
      removeMute (VNum (of_Z (Z.of_nat i))) w
      = (Return (Some v), with_event (Persist (serializeMuteMap m')) (with_muteMap m' w))) /\
  (forall z, z < 0 \/ Z.of_nat (Map_size (muteMap w)) <= z ->
             removeMute (VNum (of_Z z)) w = (Return None, w)) /\
  (forall q, (forall z, ~ Qeq q (inject_Z z)) ->
             removeMute (VNum (Fin q)) w = (Return None, w)) /\
  (forall n, (n = NaN \/ exists s, n = Infinity s) ->
             removeMute (VNum n) w = (Return None, w)) /\
  (forall a b c,
      muteMap w = [a; b; c] ->
      let w1 := snd (removeMute (VNum (of_Z 1)) w) in
      fst (removeMute (VNum (of_Z 1)) w) = Return (Some (snd b)) /\
      muteMap w1 = [a; c] /\
      fst (removeMute (VNum (of_Z 1)) w1) = Return (Some (snd c)) /\
      muteMap (snd (removeMute (VNum (of_Z 1)) w1)) = [a]).
Proof.
  intros Hwf. split; [| split; [| split; [| split]]].
  - intros i k v Hnth. exact (removeMute_index_hit w i k v Hwf Hnth).
  - intros z Hz. apply removeMute_number_miss. intros j Hj.
    rewrite of_Z_eqb. apply Z.eqb_neq. lia.
  - intros q Hq. apply removeMute_number_miss. intros j _.
    simpl. destruct (Qeq_bool (inject_Z (Z.of_nat j)) q) eqn:E; [| reflexivity].
    apply Qeq_bool_iff in E. exfalso. apply (Hq (Z.of_nat j)). symmetry. exact E.
  - intros n [-> | [s ->]]; apply removeMute_number_miss; intros; reflexivity.
  - intros [ka va] [kb vb] [kc vc] Hm.
    pose proof (removeMute_index_hit w 1 kb vb Hwf) as H1.
    rewrite Hm in H1. specialize (H1 eq_refl). simpl in H1.
    change (Z.of_nat 1) with 1 in H1. rewrite H1. cbn [fst snd].
    set (w1 := with_event _ _).
    assert (Hwf1 : Map_wf (muteMap w1)).
    { unfold Map_wf in *. rewrite Hm in Hwf. simpl in *.
      inversion Hwf as [| ? ? Ha Hbc]; subst. inversion Hbc as [| ? ? Hb Hc]; subst.
      constructor; [simpl in *; tauto | exact Hc]. }
    pose proof (removeMute_index_hit w1 1 kc vc Hwf1 eq_refl) as H2.
    change (Z.of_nat 1) with 1 in H2. rewrite H2. cbn [fst snd].
    repeat split.
Qed.

Lemma room_three_muted_wf : Map_wf (muteMap room_three_muted).
Proof.
  unfold Map_wf. simpl. repeat constructor; simpl; intuition discriminate.
Defined.

Lemma removeMute_by_index_witness :
  let w1 := snd (removeMute (VNum (of_Z 1)) room_three_muted) in
  fst (removeMute (VNum (of_Z 1)) room_three_muted) = Return (Some (snapshot bob)) /\
  Map_keys (muteMap w1) = [Player.conn alice; Player.conn carol] /\
  fst (removeMute (VNum (of_Z 1)) w1) = Return (Some (snapshot carol)) /\
  removeMute (VNum (of_Z 3)) room_three_muted = (Return None, room_three_muted).
Proof.
  pose proof (removeMute_by_index room_three_muted room_three_muted_wf)
    as [_ [Hout [_ [_ Habc]]]].
  specialize (Habc _ _ _ eq_refl). cbv zeta in Habc.
  destruct Habc as [Hb [Hm1 [Hc _]]].
  cbv zeta. split; [| split; [| split]].
  - exact Hb.
  - rewrite Hm1. reflexivity.
  - exact Hc.
  - apply Hout. right. simpl. lia.
Defined.

Lemma removeMute_loop_string (keys : list string) (i : nat) (s : string) (w : World) :
  removeMute_loop keys i (VStr s) w = (Return None, w).
Proof.
  apply removeMute_loop_miss. intros j _. reflexivity.
Qed.

Lemma removeMute_plain_string (s : string) (w : World) :
  startsWith s "#" = false -> removeMute (VStr s) w = (Return None, w).
Proof.
  intros Hs. unfold removeMute, is_hash_string. rewrite Hs. cbn [ToNumber].
  destruct (isNaN (StringToNumber s)); [reflexivity |].
  unfold bind, getMuteMap. apply removeMute_loop_string.
Qed.

(** C5. For a string argument that does not start with "#", numeric or
    not, [removeMute] returns [null] and leaves the world as it was: the
    loop compares its numeric counter with the string by [===].  So the
    unmute command, run by an admitted actor with such an argument, removes
    nothing and answers with the could-not-unmute message. *)
Theorem unmute_string_index_never_matches (w : World) (s : string) :
  startsWith s "#" = false ->
  removeMute (VStr s) w = (Return None, w) /\
  (forall actor,
      isPlayerAllowedToRunCommand actor w = (Return true, w) ->
      onCommand1_unmute actor [VStr s] w
      = (Return tt,
         with_event (Announce (could_not_unmute (VStr s)) (Some (Player.id actor)) red) w) /\
      muteMap (snd (onCommand1_unmute actor [VStr s] w)) = muteMap w).
Proof.
  intros Hs.
  pose proof (removeMute_plain_string s w Hs) as Hnull.
  split; [exact Hnull |].
  intros actor Hok.
  assert (Hrun : onCommand1_unmute actor [VStr s] w
                 = (Return tt,
                    with_event (Announce (could_not_unmute (VStr s))
                                         (Some (Player.id actor)) red) w)).
  { unfold onCommand1_unmute.
    rewrite (bind_Return _ _ _ _ _ Hok). simpl.
    rewrite (bind_Return _ _ _ _ _ Hnull). reflexivity. }
  split; [exact Hrun |].
  rewrite Hrun. reflexivity.
Qed.

Lemma unmute_string_index_never_matches_witness :
  removeMute (VStr "1") room_three_muted = (Return None, room_three_muted) /\
  onCommand1_unmute bob [VStr "1"] room_three_muted
  = (Return tt,
     with_event (Announce (could_not_unmute (VStr "1")) (Some 5) red) room_three_muted).
Proof.
  pose proof (unmute_string_index_never_matches room_three_muted "1" eq_refl)
    as [Hnull Hcommand].
  split; [exact Hnull |].
  exact (proj1 (Hcommand bob eq_refl)).
Defined.

(** [removeMute] leaves the mute map alone or deletes one key. *)
Lemma removeMute_loop_store (keys : list string) (i : nat) (v : value) (w : World) :
  muteMap (snd (removeMute_loop keys i v w)) = muteMap w \/
  exists k, muteMap (snd (removeMute_loop keys i v w)) = Map_delete k (muteMap w).
Proof.
  revert i. induction keys as [| key rest IH]; intros i; simpl; [left; reflexivity |].
  destruct (counter_strict_eq i v); [right; exists key; reflexivity | apply IH].
Qed.

Lemma removeMute_store (v : value) (w : World) :
  muteMap (snd (removeMute v w)) = muteMap w \/
  exists k, muteMap (snd (removeMute v w)) = Map_delete k (muteMap w).
Proof.
  unfold removeMute. destruct (is_hash_string v).
  - unfold bind, getPlayer, getPlayerList, getMuteMap, ret. simpl.
    destruct (match parseId v with
              | VNum n => find (fun p => number_eqb n (of_Z (Player.id p))) (playerList w)
              | _ => None
              end) as [p |]; [| left; reflexivity].
    destruct (Map_has (Player.conn p) (muteMap w)); simpl;
      [right; exists (Player.conn p); reflexivity | left; reflexivity].
  - destruct (isNaN (ToNumber v)); [left; reflexivity |].
    unfold bind, getMuteMap. apply removeMute_loop_store.
Qed.

(** ** Persisting and restoring the mute map *)

Lemma fold_object_set (l acc : Map) :
  fold_left (fun o kv => object_set (fst kv) (snd kv) o) l acc
  = fold_left (fun o kv => Map_set (fst kv) (snd kv) o) (filter not_proto l) acc.
Proof.
  revert acc. induction l as [| [k v] r IH]; intros acc; simpl; [reflexivity |].
  unfold object_set at 2, not_proto at 1, CreateDataProperty. simpl.
  destruct (String.eqb k "__proto__"); simpl; apply IH.
Qed.

Lemma filter_not_proto_absent (m : Map) :
  Map_has "__proto__" m = false -> filter not_proto m = m.
Proof.
  unfold Map_has. induction m as [| [k v] r IH]; simpl; [reflexivity |].
  unfold not_proto at 1. simpl.
  destruct (String.eqb k "__proto__"); simpl; [discriminate |].
  intros H. f_equal. exact (IH H).
Qed.

(** What comes back from the persisted form: the entries whose key is
    not [__proto__], array-index keys first. *)
Lemma deserialize_serialize (m : Map) :
  Map_wf m ->
  Forall (fun kv => wf_json (snd kv)) m ->
  deserializeMuteMap (serializeMuteMap m)
  = Some (OrdinaryOwnPropertyKeys (filter not_proto m)).
Proof.
  intros Hwf Hvalues.
  unfold serializeMuteMap, deserializeMuteMap.
  rewrite fold_object_set.
  pose proof (Map_wf_filter not_proto m Hwf) as Hwf_kept.
  rewrite (fold_Map_set_fresh (filter not_proto m) []) by exact Hwf_kept.
  simpl app.
  set (kept := filter not_proto m) in *.
  pose proof (OrdinaryOwnPropertyKeys_Permutation kept) as Hperm.
  assert (Hwf_enum : Map_wf (OrdinaryOwnPropertyKeys kept)).
  { apply (Map_wf_Permutation kept); [symmetry; exact Hperm | exact Hwf_kept]. }
  rewrite JSON_parse_stringify.
  - simpl getOwnPropertyNames. cbv iota.
    rewrite (fold_Map_set_fresh (OrdinaryOwnPropertyKeys kept) []) by exact Hwf_enum.
    reflexivity.
  - apply wf_json_JObj. split; [apply object_of_members_enumerated, Hwf_kept |].
    rewrite Forall_forall in *. intros kv Hin.
    apply Hvalues. apply (Permutation_in _ Hperm) in Hin.
    unfold kept in Hin. apply filter_In in Hin as [Hin _]. exact Hin.
Qed.

(** The snapshot of a player object with JSON-representable attributes
    is a JSON-representable value. *)
Lemma wf_json_snapshot (p : Player.t) : Player.representable p -> wf_json (snapshot p).
Proof.
  destruct p as [i n t a pos au c]. unfold Player.representable. simpl.
  intros [Hid [Hteam Hpos]].
  destruct pos as [[x y] |]; simpl; repeat split; try reflexivity; try assumption;
    destruct Hpos; assumption.
Qed.

(** Ids and team numbers up to 2^53 - 1 in magnitude are doubles. *)
Lemma representable_safe (p : Player.t) :
  safe_integer (Player.id p) -> safe_integer (Player.team p) ->
  Player.position p = None -> Player.representable p.
Proof.
  intros Hid Hteam Hpos. unfold Player.representable, JSON_number, of_Z.
  rewrite Hpos, !Number_value_integer by assumption. repeat split.
Qed.

Lemma holds_representable_set (p : Player.t) (m : Map) :
  Player.representable p -> holds_representable m ->
  holds_representable (Map_set (Player.conn p) (snapshot p) m).
Proof.
  unfold holds_representable. intros Hp.
  induction 1 as [| [k v] r Hv Hr IH]; simpl.
  - constructor; [exists p; split; [reflexivity | exact Hp] | constructor].
  - destruct (String.eqb k (Player.conn p)).
    + constructor; [exists p; split; [reflexivity | exact Hp] | exact Hr].
    + constructor; [exact Hv | exact IH].
Qed.

Lemma holds_representable_delete (k : string) (m : Map) :
  holds_representable m -> holds_representable (Map_delete k m).
Proof.
  unfold holds_representable. induction 1 as [| [k' v] r Hv Hr IH]; simpl; [constructor |].
  destruct (String.eqb k' k); [exact Hr | constructor; [exact Hv | exact IH]].
Qed.

Lemma reachable_store (w : World) :
  reachable w -> Map_wf (muteMap w) /\ holds_representable (muteMap w).
Proof.
  induction 1 as [w Hempty | w p Hreach [Hwf Hsnap] Hp | w v Hreach [Hwf Hsnap]].
  - rewrite Hempty. split; constructor.
  - rewrite mutePlayer_run. simpl.
    split; [apply Map_wf_set, Hwf | apply holds_representable_set; assumption].
  - destruct (removeMute_store v w) as [-> | [k ->]].
    + split; assumption.
    + split; [apply Map_wf_delete, Hwf | apply holds_representable_delete, Hsnap].
Qed.

Lemma holds_representable_wf (m : Map) :
  holds_representable m -> Forall (fun kv => wf_json (snd kv)) m.
Proof.
  unfold holds_representable. intros H. rewrite Forall_forall in *.
  intros kv Hin. destruct (H kv Hin) as [p [-> Hp]]. apply wf_json_snapshot, Hp.
Qed.


Lemma alice_representable : Player.representable alice.
Proof. repeat split; vm_compute; reflexivity. Qed.

Lemma bob_representable : Player.representable bob.
Proof. repeat split; vm_compute; reflexivity. Qed.

Lemma carol_representable : Player.representable carol.
Proof. repeat split; vm_compute; reflexivity. Qed.




(** C10. The restore hook called with [undefined] returns without touching
    anything: the mute map holds the same entries in the same order. *)
Theorem restore_undefined_keeps_store (w : World) :
  handleRestoreData None w = (Return tt, w) /\
  muteMap (snd (handleRestoreData None w)) = muteMap w.
Proof. split; reflexivity. Qed.

(** ** Write-through on mutation *)

(** The add and the two removals end with a call to the persistence host. *)
Lemma mutePlayer_persists (player : Player.t) (w : World) :
  exists data, trace (snd (mutePlayer player w)) = (trace w ++ [Persist data])%list.
Proof. eexists. reflexivity. Qed.

Lemma clearmutes_run (w : World) (actor : Player.t) :
  isPlayerAllowedToRunCommand actor w = (Return true, w) ->
  onCommand0_clearmutes actor w
  = (Return tt, with_event (Announce [Lit "All mutes cleared!"] None green)
                           (with_muteMap [] w)).
Proof.
  intros Hok. unfold onCommand0_clearmutes.
  rewrite (bind_Return _ _ _ _ _ Hok). reflexivity.
Qed.

(** C6, at the failing input. bob, an admin, runs [!clearmutes] while two
    players are muted: the mute map is emptied, the room is told so, and the
    persistence host is not called. *)
Theorem clearmutes_omits_persist :
  let w' := snd (onCommand0_clearmutes bob room_two_muted) in
  muteMap room_two_muted <> [] /\
  muteMap w' = [] /\
  trace w' = [Announce [Lit "All mutes cleared!"] None green] /\
  existsb is_Persist (trace w') = false.
Proof.
  simpl. repeat split. discriminate.
Qed.

(** ** Authorization gate *)

(** C9. An actor the gate refuses can run none of the four commands: each
    returns at once, the trace gets no entry and the mute map (the whole
    world, in fact) stays as it was. *)
Theorem denied_commands_do_nothing (w : World) (actor : Player.t) (args : list value) :
  isPlayerAllowedToRunCommand actor w = (Return false, w) ->
  onCommand1_mute actor args w = (Return tt, w) /\
  onCommand1_unmute actor args w = (Return tt, w) /\
  onCommand0_clearmutes actor w = (Return tt, w) /\
  onCommand0_mutelist actor w = (Return tt, w).
Proof.
  intros Hdenied.
  unfold onCommand1_mute, onCommand1_unmute, onCommand0_clearmutes, onCommand0_mutelist.
  repeat split; rewrite (bind_Return _ _ _ _ _ Hdenied); reflexivity.
Qed.

Lemma denied_commands_do_nothing_witness :
  isPlayerAllowedToRunCommand alice room_player_only = (Return false, room_player_only) /\
  onCommand0_clearmutes alice room_player_only = (Return tt, room_player_only) /\
  onCommand1_mute alice [VStr "#7"] room_player_only = (Return tt, room_player_only).
Proof.
  split; [reflexivity |].
  pose proof (denied_commands_do_nothing room_player_only alice [VStr "#7"] eq_refl)
    as [Hmute [_ [Hclear _]]].
  split; assumption.
Defined.

(** ** Chat policy *)

Lemma isPlayerTeamCaptain_first_listed (player : Player.t) (w : World) :
  first_listed player w -> isPlayerTeamCaptain player w = (Return true, w).
Proof.
  unfold first_listed, first_of_team. intros H. run.
  destruct H as [[c [Hc Hid]] | [c [Hc Hid]]]; rewrite Hc.
  - apply Z.eqb_eq in Hid. rewrite Hid. reflexivity.
  - apply Z.eqb_eq in Hid. rewrite Hid. rewrite orb_true_r. reflexivity.
Qed.

(** C1. On a chat event: a sender whose connection string is not in the
    mute map gets the message through and nothing is announced; a sender in
    the map, with [allowTalkingWhenCaptain] off, is answered [false] and is
    sent the configured mute message privately, captain or not; a sender in
    the map who is first listed in the red or the blue team, with the option
    on, gets the message through. *)
Theorem chat_policy (w : World) (player : Player.t) :
  (Map_has (Player.conn player) (muteMap w) = false ->
   handlePlayerChat player w = (Return VUndefined, w)) /\
  (Map_has (Player.conn player) (muteMap w) = true ->
   allowTalkingWhenCaptain (config w) = false ->
   handlePlayerChat player w
   = (Return (VBool false),
      with_event (Announce [Lit (muteMessage (config w))] (Some (Player.id player)) red) w)) /\
  (Map_has (Player.conn player) (muteMap w) = true ->
   allowTalkingWhenCaptain (config w) = true ->
   first_listed player w ->
   handlePlayerChat player w = (Return VUndefined, w)).
Proof.
  split; [| split].
  - intros Hnot. run. rewrite Hnot. reflexivity.
  - intros Hin Hoff. run. rewrite Hin, Hoff. reflexivity.
  - intros Hin Hon Hcap.
    unfold handlePlayerChat, isMuted, getMuteMap, getConfig, bind, ret. simpl.
    rewrite Hin, Hon.
    rewrite (isPlayerTeamCaptain_first_listed player w Hcap). reflexivity.
Qed.

Lemma chat_policy_witness :
  handlePlayerChat alice (room_chat false) = (Return VUndefined, room_chat false) /\
  handlePlayerChat carol (room_chat false)
  = (Return (VBool false),
     with_event (Announce [Lit "muted!"] (Some 7) red) (room_chat false)) /\
  handlePlayerChat carol (room_chat true) = (Return VUndefined, room_chat true).
Proof.
  split; [| split].
  - apply (proj1 (chat_policy (room_chat false) alice)). reflexivity.
  - apply (proj1 (proj2 (chat_policy (room_chat false) carol))); reflexivity.
  - apply (proj2 (proj2 (chat_policy (room_chat true) carol))); try reflexivity.
    right. exists carol. split; reflexivity.
Defined.

(** * Further properties *)

(** ** Admin failover *)

Lemma updateAdmins_cases (w : World) :
  updateAdmins w
  = match filter guest (playerList w) with
    | [] => (Return tt, w)
    | first :: _ =>
        match find (fun player => Player.admin player) (filter guest (playerList w)) with
        | Some _ => (Return tt, w)
        | None => setPlayerAdmin (Player.id first) true w
        end
    end.
Proof.
  unfold updateAdmins, bind, getPlayerList, ret. simpl.
  fold guest. destruct (filter guest (playerList w)) as [| first rest]; [reflexivity |].
  cbn [List.length Nat.eqb].
  destruct (find (fun player => Player.admin player) (first :: rest)); reflexivity.
Qed.

Lemma updateAdmins_admin_after (w : World) :
  (exists p, In p (playerList w) /\ Player.id p <> 0) ->
  fst (updateAdmins w) = Return tt /\
  exists a, In a (playerList (snd (updateAdmins w))) /\
            Player.id a <> 0 /\ Player.admin a = true.
Proof.
  intros [p [Hin Hid]]. rewrite updateAdmins_cases.
  assert (Hguest : In p (filter guest (playerList w))).
  { apply filter_In. split; [exact Hin |]. unfold guest.
    apply negb_true_iff, Z.eqb_neq, Hid. }
  destruct (filter guest (playerList w)) as [| first rest] eqn:Eg; [contradiction |].
  destruct (find (fun player => Player.admin player) (first :: rest)) as [a |] eqn:Ef.
  - split; [reflexivity |]. apply find_some in Ef as [Ha Hadmin].
    rewrite <- Eg in Ha. apply filter_In in Ha as [Ha Hg].
    exists a. repeat split; try assumption.
    unfold guest in Hg. apply negb_true_iff, Z.eqb_neq in Hg. exact Hg.
  - split; [reflexivity |].
    assert (Hfirst : In first (filter guest (playerList w))) by (rewrite Eg; left; reflexivity).
    apply filter_In in Hfirst as [Hfirst Hg].
    exists (set_admin true first). simpl. split; [| split].
    + apply in_map_iff. exists first. rewrite Z.eqb_refl. split; [reflexivity | exact Hfirst].
    + unfold guest in Hg. apply negb_true_iff, Z.eqb_neq in Hg. exact Hg.
    + reflexivity.
Qed.

(** X1. After [updateAdmins], a room that has a player other than the
    host has an admin among those players; the call never throws, whoever
    is in the room. *)
Theorem updateAdmins_ensures_admin (w : World) :
  fst (updateAdmins w) = Return tt /\
  ((exists p, In p (playerList w) /\ Player.id p <> 0) ->
   exists a, In a (playerList (snd (updateAdmins w))) /\
             Player.id a <> 0 /\ Player.admin a = true).
Proof.
  split.
  - rewrite updateAdmins_cases.
    destruct (filter guest (playerList w)); [reflexivity |].
    destruct (find _ _); reflexivity.
  - intros Hguest. apply (updateAdmins_admin_after w Hguest).
Qed.

Lemma updateAdmins_ensures_admin_witness :
  exists a, In a (playerList (snd (updateAdmins room_no_admin))) /\
            Player.id a <> 0 /\ Player.admin a = true.
Proof.
  apply (proj2 (updateAdmins_ensures_admin room_no_admin)).
  exists alice. split; [simpl; tauto | discriminate].
Defined.

Lemma updateAdmins_unchanged (w : World) :
  (forall p, In p (playerList w) -> Player.id p = 0) \/
  (exists a, In a (playerList w) /\ Player.id a <> 0 /\ Player.admin a = true) ->
  updateAdmins w = (Return tt, w).
Proof.
  intros H. rewrite updateAdmins_cases.
  destruct (filter guest (playerList w)) as [| first rest] eqn:Eg; [reflexivity |].
  destruct H as [Hhost | [a [Hin [Hid Hadmin]]]].
  - assert (Hfirst : In first (filter guest (playerList w))) by (rewrite Eg; left; reflexivity).
    apply filter_In in Hfirst as [Hfirst Hg].
    unfold guest in Hg. apply negb_true_iff, Z.eqb_neq in Hg.
    exfalso. apply Hg, Hhost, Hfirst.
  - destruct (find (fun player => Player.admin player) (first :: rest)) eqn:Ef;
      [reflexivity |].
    exfalso. rewrite <- Eg in Ef.
    assert (Hnone : Player.admin a = false).
    { apply (find_none _ _ Ef a). apply filter_In. split; [exact Hin |].
      unfold guest. apply negb_true_iff, Z.eqb_neq, Hid. }
    congruence.
Qed.

(** X2. [updateAdmins] changes nothing when the room holds nobody but the
    host (an empty room included), and nothing when one of the other players
    is already an admin: it promotes nobody while an admin is present. *)
Theorem updateAdmins_leaves_alone (w : World) :
  ((forall p, In p (playerList w) -> Player.id p = 0) ->
   updateAdmins w = (Return tt, w)) /\
  ((exists a, In a (playerList w) /\ Player.id a <> 0 /\ Player.admin a = true) ->
   updateAdmins w = (Return tt, w)).
Proof.
  split; intros H; apply updateAdmins_unchanged; [left | right]; exact H.
Qed.

Lemma updateAdmins_leaves_alone_witness :
  updateAdmins room0 = (Return tt, room0) /\
  updateAdmins (with_playerList [host] room0) = (Return tt, with_playerList [host] room0).
Proof.
  split.
  - apply (proj2 (updateAdmins_leaves_alone room0)). exists bob.
    split; [simpl; tauto | split; [discriminate | reflexivity]].
  - apply (proj1 (updateAdmins_leaves_alone (with_playerList [host] room0))).
    intros p [<- | []]. reflexivity.
Defined.

Lemma promote_kept_or_promoted (playerID : Z) (players : list Player.t) :
  Forall2 kept_or_promoted players
    (map (fun p => if Player.id p =? playerID then set_admin true p else p) players).
Proof.
  induction players as [| p r IH]; simpl; constructor; [| exact IH].
  unfold kept_or_promoted. destruct (Player.id p =? playerID); [right | left]; reflexivity.
Qed.

(** X3. [updateAdmins] never removes, reorders or demotes anyone and never
    touches the mute map, the configuration or the trace: each player is as
    before or has been made admin.  When the other players have distinct ids
    and none of them is admin, the one made admin is the first of them in the
    list, and every other player is untouched. *)
Theorem updateAdmins_promotes_first_only (w : World) :
  let w' := snd (updateAdmins w) in
  Forall2 kept_or_promoted (playerList w) (playerList w') /\
  muteMap w' = muteMap w /\ config w' = config w /\ roles w' = roles w /\
  trace w' = trace w /\
  (forall first,
      find guest (playerList w) = Some first ->
      (forall p, In p (playerList w) -> guest p = true -> Player.admin p = false) ->
      NoDup (map Player.id (playerList w)) ->
      playerList w'
      = map (fun p => if Player.id p =? Player.id first then set_admin true p else p)
            (playerList w) /\
      In (set_admin true first) (playerList w') /\
      forall p, In p (playerList w) -> p <> first -> In p (playerList w')).
Proof.
  cbv zeta. rewrite updateAdmins_cases.
  destruct (filter guest (playerList w)) as [| head rest] eqn:Eg.
  - simpl. split; [| split; [reflexivity | split; [reflexivity | split; [reflexivity | split; [reflexivity |]]]]].
    + clear. induction (playerList w); constructor; [left; reflexivity | assumption].
    + intros first Hfind _ _. exfalso.
      apply find_some in Hfind as [Hin Hg].
      assert (Hf : In first (filter guest (playerList w))) by (apply filter_In; split; assumption).
      rewrite Eg in Hf. exact Hf.
  - assert (Hhead : find guest (playerList w) = Some head).
    { clear - Eg. induction (playerList w) as [| p r IH]; simpl in *; [discriminate |].
      destruct (guest p); [injection Eg as -> _; reflexivity | exact (IH Eg)]. }
    destruct (find (fun player => Player.admin player) (head :: rest)) as [a |] eqn:Ef.
    + simpl. split; [| split; [reflexivity | split; [reflexivity | split; [reflexivity | split; [reflexivity |]]]]].
      * clear. induction (playerList w); constructor; [left; reflexivity | assumption].
      * intros first _ Hnone _. exfalso.
        apply find_some in Ef as [Ha Hadmin]. rewrite <- Eg in Ha.
        apply filter_In in Ha as [Ha Hg]. rewrite (Hnone a Ha Hg) in Hadmin. discriminate.
    + simpl. split; [apply promote_kept_or_promoted |].
      split; [reflexivity |]. split; [reflexivity |]. split; [reflexivity |].
      split; [reflexivity |].
      intros first Hfind _ Hnd. rewrite Hhead in Hfind. injection Hfind as ->.
      apply find_some in Hhead as [Hfirst _].
      split; [reflexivity | split].
      * apply in_map_iff. exists first. rewrite Z.eqb_refl. split; [reflexivity | exact Hfirst].
      * intros p Hin Hne.
        apply in_map_iff. exists p. split; [| exact Hin].
        destruct (Z.eqb_spec (Player.id p) (Player.id first)) as [Hid |]; [| reflexivity].
        exfalso. apply Hne.
        clear - Hin Hfirst Hid Hnd.
        induction (playerList w) as [| q r IH]; simpl in *; [contradiction |].
        inversion Hnd as [| ? ? Hnotin Hnd']; subst.
        destruct Hin as [-> | Hin], Hfirst as [-> | Hfirst]; try reflexivity.
        -- exfalso. apply Hnotin. rewrite Hid. apply in_map, Hfirst.
        -- exfalso. apply Hnotin. rewrite <- Hid. apply in_map, Hin.
        -- apply IH; assumption.
Qed.

Lemma updateAdmins_promotes_first_only_witness :
  playerList (snd (updateAdmins room_no_admin)) = [host; set_admin true alice; dave].
Proof.
  destruct (updateAdmins_promotes_first_only room_no_admin) as [_ [_ [_ [_ [_ Hfirst]]]]].
  destruct (Hfirst alice) as [Hlist _].
  - reflexivity.
  - intros p [<- | [<- | [<- | []]]]; intros H; try reflexivity; discriminate H.
  - simpl. repeat constructor; simpl; intuition discriminate.
  - rewrite Hlist. reflexivity.
Defined.

(** X4. Running [updateAdmins] again right after it ran changes nothing
    more; so the join and leave handlers, which only call it, can fire any
    number of times. *)
Theorem updateAdmins_idempotent (w : World) (player : Player.t) :
  updateAdmins (snd (updateAdmins w)) = (Return tt, snd (updateAdmins w)) /\
  onPlayerLeave player (snd (onPlayerJoin player w)) = (Return tt, snd (updateAdmins w)).
Proof.
  assert (H : updateAdmins (snd (updateAdmins w)) = (Return tt, snd (updateAdmins w))).
  { destruct (filter guest (playerList w)) as [| first rest] eqn:Eg.
    - rewrite (updateAdmins_cases w), Eg. simpl.
      rewrite (updateAdmins_cases w), Eg. reflexivity.
    - apply updateAdmins_unchanged. right.
      apply updateAdmins_admin_after. exists first.
      assert (Hf : In first (filter guest (playerList w))) by (rewrite Eg; left; reflexivity).
      apply filter_In in Hf as [Hin Hg]. split; [exact Hin |].
      unfold guest in Hg. apply negb_true_iff, Z.eqb_neq in Hg. exact Hg. }
  split; [exact H | exact H].
Qed.

(** ** Reading the room *)

Lemma isPlayerAllowedToRunCommand_reads (actor : Player.t) (w : World) :
  exists b, isPlayerAllowedToRunCommand actor w = (Return b, w).
Proof.
  unfold isPlayerAllowedToRunCommand, bind, getPlugin_roles, getConfig, ret.
  destruct (roles w); eexists; reflexivity.
Qed.

Lemma isPlayerAllowedToRunCommand_same_room (actor : Player.t) (w w' : World) (b : bool) :
  roles w' = roles w -> config w' = config w ->
  isPlayerAllowedToRunCommand actor w = (Return b, w) ->
  isPlayerAllowedToRunCommand actor w' = (Return b, w').
Proof.
  intros Hr Hc.
  unfold isPlayerAllowedToRunCommand, bind, getPlugin_roles, getConfig, ret. cbv beta.
  rewrite Hr. destruct (roles w); cbv beta; rewrite ?Hc; intros [= <-]; reflexivity.
Qed.

Lemma getPlayer_same_room (v : value) (w w' : World) (found : option Player.t) :
  playerList w' = playerList w ->
  getPlayer v w = (Return found, w) -> getPlayer v w' = (Return found, w').
Proof.
  intros Hp. unfold getPlayer, bind, getPlayerList, ret. cbv beta.
  rewrite Hp. intros [= <-]. reflexivity.
Qed.

Lemma getPlayer_found (v : value) (w : World) (p : Player.t) :
  getPlayer v w = (Return (Some p), w) -> In p (playerList w).
Proof.
  unfold getPlayer, bind, getPlayerList, ret. intros [= H].
  destruct v; try discriminate H. apply find_some in H as [Hin _]. exact Hin.
Qed.

Lemma isPlayerProtected_same_room (playerId : Z) (w w' : World) (b : bool) :
  roles w' = roles w -> config w' = config w ->
  isPlayerProtected playerId w = (Return b, w) ->
  isPlayerProtected playerId w' = (Return b, w').
Proof.
  intros Hr Hc.
  unfold isPlayerProtected, bind, getConfig, getPlugin_roles, ret. cbv beta.
  rewrite Hc. destruct (protectedRoles (config w)) as [rs |];
    [| intros [= <-]; reflexivity].
  cbv beta. rewrite Hr. generalize (roles w) as r. intros r.
  induction rs as [| role rest IH]; simpl; [intros [= <-]; reflexivity |].
  destruct r as [r' |]; [| discriminate].
  destruct (hasPlayerRole r' playerId role); [intros [= <-]; reflexivity | exact IH].
Qed.

(** ** Facts about deleting from a [Map] *)

Lemma Map_has_delete_same (k : string) (m : Map) :
  Map_wf m -> Map_has k (Map_delete k m) = false.
Proof.
  intros Hwf. destruct (Map_has k (Map_delete k m)) eqn:E; [| reflexivity].
  exfalso. apply Map_has_In in E.
  unfold Map_wf, Map_keys in *.
  induction m as [| [k' v] r IH]; simpl in *; [contradiction |].
  inversion Hwf as [| ? ? Hnotin Hwf']; subst.
  destruct (string_eqb_spec k' k) as [-> | Hne]; [contradiction |].
  simpl in E. destruct E as [-> | E]; [congruence | exact (IH Hwf' E)].
Qed.

Lemma Map_has_delete_other (k k0 : string) (m : Map) :
  k0 <> k -> Map_has k0 (Map_delete k m) = Map_has k0 m.
Proof.
  intros Hne. unfold Map_has. induction m as [| [k' v] r IH]; simpl; [reflexivity |].
  destruct (string_eqb_spec k' k) as [-> | Hk]; simpl.
  - destruct (string_eqb_spec k k0); [congruence | reflexivity].
  - destruct (String.eqb k' k0); [reflexivity | exact IH].
Qed.

Lemma Map_size_delete (k : string) (m : Map) :
  Map_has k m = true -> S (Map_size (Map_delete k m)) = Map_size m.
Proof.
  unfold Map_has, Map_size. induction m as [| [k' v] r IH]; simpl; [discriminate |].
  destruct (String.eqb k' k); [reflexivity |]. intros H. simpl. f_equal. exact (IH H).
Qed.

Lemma Map_delete_set_fresh (k : string) (v : json) (m : Map) :
  Map_has k m = false -> Map_delete k (Map_set k v m) = m.
Proof.
  unfold Map_has. induction m as [| [k' v'] r IH]; simpl.
  - rewrite string_eqb_refl. reflexivity.
  - destruct (String.eqb k' k) eqn:E; [discriminate |].
    intros H. simpl. rewrite E. f_equal. exact (IH H).
Qed.

Lemma Map_has_set_same (k : string) (v : json) (m : Map) :
  Map_has k (Map_set k v m) = true.
Proof. unfold Map_has. rewrite Map_get_set_same. reflexivity. Qed.

Lemma Map_has_set_other (k k0 : string) (v : json) (m : Map) :
  k0 <> k -> Map_has k0 (Map_set k v m) = Map_has k0 m.
Proof. intros Hne. unfold Map_has. rewrite Map_get_set_other by exact Hne. reflexivity. Qed.

(** ** The mute command *)

Lemma mute_command_run (w : World) (actor target : Player.t) (id : value) :
  isPlayerAllowedToRunCommand actor w = (Return true, w) ->
  getPlayer (parseId id) w = (Return (Some target), w) ->
  isPlayerProtected (Player.id target) w = (Return false, w) ->
  let m' := Map_set (Player.conn target) (snapshot target) (muteMap w) in
  onCommand1_mute actor [id] w
  = (Return tt,
     with_event (Announce [Lit "You have been muted."] (Some (Player.id target)) red)
       (with_event (Announce [Lit "Player "; Lit (Player.name target); Lit " muted."]
                             (Some (Player.id actor)) green)
          (with_event (Persist (serializeMuteMap m')) (with_muteMap m' w)))).
Proof.
  intros Hok Hfound Hfree. unfold onCommand1_mute.
  rewrite (bind_Return _ _ _ _ _ Hok). simpl.
  rewrite (bind_Return _ _ _ _ _ Hfound).
  rewrite (bind_Return _ _ _ _ _ Hfree). reflexivity.
Qed.

(** X5. When an admitted actor mutes a player who is in the room and not
    protected, the player's connection string is put in the mute map with
    the player object, the new map is persisted, the actor is told the name
    and the player is told privately, in that order; afterwards every player
    with that connection string counts as muted, and entries under other
    keys are as before. *)
Theorem mute_command_mutes (w : World) (actor target : Player.t) (id : value) :
  isPlayerAllowedToRunCommand actor w = (Return true, w) ->
  getPlayer (parseId id) w = (Return (Some target), w) ->
  isPlayerProtected (Player.id target) w = (Return false, w) ->
  let w' := snd (onCommand1_mute actor [id] w) in
  fst (onCommand1_mute actor [id] w) = Return tt /\
  Map_get (Player.conn target) (muteMap w') = Some (snapshot target) /\
  trace w'
  = (trace w ++ [Persist (serializeMuteMap (muteMap w'));
                 Announce [Lit "Player "; Lit (Player.name target); Lit " muted."]
                          (Some (Player.id actor)) green;
                 Announce [Lit "You have been muted."] (Some (Player.id target)) red])%list /\
  (forall q, Player.conn q = Player.conn target -> isMuted q w' = (Return true, w')) /\
  (forall k, k <> Player.conn target -> Map_get k (muteMap w') = Map_get k (muteMap w)).
Proof.
  intros Hok Hfound Hfree w'. subst w'.
  rewrite (mute_command_run w actor target id Hok Hfound Hfree). simpl.
  split; [reflexivity |]. split; [apply Map_get_set_same |].
  split; [rewrite <- !List.app_assoc; reflexivity |]. split.
  - intros q Hq. unfold isMuted, bind, getMuteMap, ret. simpl.
    rewrite Hq, Map_has_set_same. reflexivity.
  - intros k Hk. apply Map_get_set_other, Hk.
Qed.

Lemma mute_command_mutes_witness :
  isMuted alice (snd (onCommand1_mute bob [VStr "#3"] room0))
  = (Return true, snd (onCommand1_mute bob [VStr "#3"] room0)).
Proof.
  pose proof (mute_command_mutes room0 bob alice (VStr "#3") eq_refl eq_refl eq_refl)
    as [_ [_ [_ [Hmuted _]]]].
  exact (Hmuted alice eq_refl).
Defined.

(** X6. Mute, then chat: with [allowTalkingWhenCaptain] off, the next chat
    message of a player just muted by the command is suppressed and the
    player is sent the configured mute message. *)
Theorem mute_then_chat_is_suppressed (w : World) (actor target : Player.t) (id : value) :
  isPlayerAllowedToRunCommand actor w = (Return true, w) ->
  getPlayer (parseId id) w = (Return (Some target), w) ->
  isPlayerProtected (Player.id target) w = (Return false, w) ->
  allowTalkingWhenCaptain (config w) = false ->
  let w' := snd (onCommand1_mute actor [id] w) in
  handlePlayerChat target w'
  = (Return (VBool false),
     with_event (Announce [Lit (muteMessage (config w))] (Some (Player.id target)) red) w').
Proof.
  intros Hok Hfound Hfree Hoff w'. subst w'.
  rewrite (mute_command_run w actor target id Hok Hfound Hfree). cbn [snd].
  remember (with_event _ _) as w1 eqn:E1.
  assert (Hc : config w1 = config w) by (subst w1; reflexivity).
  assert (Hin : Map_has (Player.conn target) (muteMap w1) = true)
    by (subst w1; simpl; apply Map_has_set_same).
  clear E1. run. rewrite Hin, Hc, Hoff. simpl. rewrite Hc. reflexivity.
Qed.

Lemma mute_then_chat_is_suppressed_witness :
  fst (handlePlayerChat alice (snd (onCommand1_mute bob [VStr "#3"] room0)))
  = Return (VBool false).
Proof.
  rewrite (mute_then_chat_is_suppressed room0 bob alice (VStr "#3")
             eq_refl eq_refl eq_refl eq_refl).
  reflexivity.
Defined.

(** X7. When the argument is no valid identifier, or no player in the
    room has that id, the mute command of an admitted actor only tells the
    actor so, quoting the argument, and leaves the mute map as it was. *)
Theorem mute_command_unknown_target (w : World) (actor : Player.t) (id : value) :
  isPlayerAllowedToRunCommand actor w = (Return true, w) ->
  parseId id = VNull \/ getPlayer (parseId id) w = (Return None, w) ->
  onCommand1_mute actor [id] w
  = (Return tt,
     with_event (Announce [Lit "No player with id "; Sub id; Lit "."]
                          (Some (Player.id actor)) red) w).
Proof.
  intros Hok Hnone.
  assert (Hmiss : getPlayer (parseId id) w = (Return None, w)).
  { destruct Hnone as [-> | H]; [reflexivity | exact H]. }
  unfold onCommand1_mute.
  rewrite (bind_Return _ _ _ _ _ Hok). simpl.
  rewrite (bind_Return _ _ _ _ _ Hmiss). reflexivity.
Qed.

Lemma mute_command_unknown_target_witness :
  muteMap (snd (onCommand1_mute bob [VStr "carol"] room_two_muted)) = muteMap room_two_muted /\
  muteMap (snd (onCommand1_mute bob [VStr "#4"] room_two_muted)) = muteMap room_two_muted.
Proof.
  split.
  - rewrite (mute_command_unknown_target room_two_muted bob (VStr "carol") eq_refl
               (or_introl eq_refl)). reflexivity.
  - rewrite (mute_command_unknown_target room_two_muted bob (VStr "#4") eq_refl
               (or_intror eq_refl)). reflexivity.
Defined.

(** ** The unmute command *)

Lemma removeMute_hash_run (arg : value) (w : World) (found : option Player.t) :
  is_hash_string arg = true ->
  getPlayer (parseId arg) w = (Return found, w) ->
  removeMute arg w
  = match found with
    | None => (Return None, w)
    | Some p =>
        if Map_has (Player.conn p) (muteMap w)
        then
          let m' := Map_delete (Player.conn p) (muteMap w) in
          (Return (Some (snapshot p)),
           with_event (Persist (serializeMuteMap m')) (with_muteMap m' w))
        else (Return None, w)
    end.
Proof.
  intros Hhash Hfound. unfold removeMute. rewrite Hhash.
  rewrite (bind_Return _ _ _ _ _ Hfound).
  unfold bind, getMuteMap, ret. destruct found as [p |]; [| reflexivity].
  destruct (Map_has (Player.conn p) (muteMap w)); reflexivity.
Qed.

Lemma unmute_command_after_removal (w : World) (actor p : Player.t) (arg : value)
      (m' : Map) (data : string) :
  isPlayerAllowedToRunCommand actor w = (Return true, w) ->
  removeMute arg w
  = (Return (Some (snapshot p)), with_event (Persist data) (with_muteMap m' w)) ->
  let w' := snd (onCommand1_unmute actor [arg] w) in
  fst (onCommand1_unmute actor [arg] w) = Return tt /\
  muteMap w' = m' /\
  playerList w' = playerList w /\ config w' = config w /\ roles w' = roles w /\
  trace w'
  = (trace w
     ++ [Persist data;
         Announce [Lit "Player "; Lit (Player.name p); Lit " unmuted."]
                  (Some (Player.id actor)) green]
     ++ told_unmuted p (playerList w))%list.
Proof.
  intros Hok Hrem. cbv zeta. unfold onCommand1_unmute.
  rewrite (bind_Return _ _ _ _ _ Hok). simpl.
  rewrite (bind_Return _ _ _ _ _ Hrem).
  unfold told_unmuted, bind, sendAnnouncement, emit, findPlayerInRoomWithConn,
    getPlayerList, ret. simpl.
  destruct (find (fun q => String.eqb (Player.conn q) (Player.conn p)) (playerList w));
    simpl; rewrite <- ?List.app_assoc; repeat split; reflexivity.
Qed.

(** X8. Unmuting by "#id": when an admitted actor names a player who is in
    the room and whose connection string is in the mute map, that key is
    deleted, the new map is persisted, the actor is told the name and a
    player in the room with that connection string is told privately;
    afterwards the named player no longer counts as muted. *)
Theorem unmute_by_id_unmutes (w : World) (actor p : Player.t) (arg : value) :
  isPlayerAllowedToRunCommand actor w = (Return true, w) ->
  is_hash_string arg = true ->
  getPlayer (parseId arg) w = (Return (Some p), w) ->
  Map_has (Player.conn p) (muteMap w) = true ->
  Map_wf (muteMap w) ->
  let w' := snd (onCommand1_unmute actor [arg] w) in
  muteMap w' = Map_delete (Player.conn p) (muteMap w) /\
  isMuted p w' = (Return false, w') /\
  exists q,
    In q (playerList w) /\ Player.conn q = Player.conn p /\
    trace w'
    = (trace w ++ [Persist (serializeMuteMap (muteMap w'));
                   Announce [Lit "Player "; Lit (Player.name p); Lit " unmuted."]
                            (Some (Player.id actor)) green;
                   Announce [Lit "You have been unmuted."] (Some (Player.id q)) green])%list.
Proof.
  intros Hok Hhash Hfound Hin Hwf w'.
  pose proof (removeMute_hash_run arg w (Some p) Hhash Hfound) as Hrem.
  cbv beta iota zeta in Hrem. rewrite Hin in Hrem.
  destruct (unmute_command_after_removal w actor p arg _ _ Hok Hrem)
    as [_ [Hmap [_ [_ [_ Htrace]]]]].
  fold w' in Hmap, Htrace.
  split; [exact Hmap | split].
  - unfold isMuted, bind, getMuteMap, ret. rewrite Hmap.
    rewrite (Map_has_delete_same _ _ Hwf). reflexivity.
  - unfold told_unmuted in Htrace.
    destruct (find (fun q => String.eqb (Player.conn q) (Player.conn p)) (playerList w))
      as [q |] eqn:Ef.
    + apply find_some in Ef as [Hq Hconn]. apply string_eqb_eq in Hconn.
      exists q. split; [exact Hq | split; [exact Hconn |]].
      rewrite Htrace, Hmap. reflexivity.
    + exfalso. pose proof (getPlayer_found _ _ _ Hfound) as Hp.
      pose proof (find_none _ _ Ef p Hp) as Hnone. simpl in Hnone.
      rewrite string_eqb_refl in Hnone. discriminate Hnone.
Qed.

Lemma unmute_by_id_unmutes_witness :
  isMuted carol (snd (onCommand1_unmute bob [VStr "#7"] room_three_muted))
  = (Return false, snd (onCommand1_unmute bob [VStr "#7"] room_three_muted)).
Proof.
  apply (unmute_by_id_unmutes room_three_muted bob carol (VStr "#7"));
    try reflexivity.
  exact room_three_muted_wf.
Defined.

(** X9. Unmuting by "#id" fails when nobody in the room has that id (the
    muted player has left, say) and when the named player's connection
    string is not in the mute map: the actor gets the could-not-unmute
    message and nothing else changes. *)
Theorem unmute_by_id_not_possible (w : World) (actor : Player.t) (arg : value) :
  isPlayerAllowedToRunCommand actor w = (Return true, w) ->
  is_hash_string arg = true ->
  getPlayer (parseId arg) w = (Return None, w) \/
  (exists p, getPlayer (parseId arg) w = (Return (Some p), w) /\
             Map_has (Player.conn p) (muteMap w) = false) ->
  onCommand1_unmute actor [arg] w
  = (Return tt,
     with_event (Announce (could_not_unmute arg) (Some (Player.id actor)) red) w).
Proof.
  intros Hok Hhash Hcase.
  assert (Hrem : removeMute arg w = (Return None, w)).
  { destruct Hcase as [Hnone | [p [Hfound Hfree]]].
    - rewrite (removeMute_hash_run arg w None Hhash Hnone). reflexivity.
    - rewrite (removeMute_hash_run arg w (Some p) Hhash Hfound), Hfree. reflexivity. }
  unfold onCommand1_unmute.
  rewrite (bind_Return _ _ _ _ _ Hok). simpl.
  rewrite (bind_Return _ _ _ _ _ Hrem). reflexivity.
Qed.

Lemma unmute_by_id_not_possible_witness :
  muteMap (snd (onCommand1_unmute bob [VStr "#8"] room_dave_left))
  = muteMap room_dave_left /\
  muteMap (snd (onCommand1_unmute bob [VStr "#3"] room_dave_left))
  = muteMap room_dave_left.
Proof.
  split.
  - rewrite (unmute_by_id_not_possible room_dave_left bob (VStr "#8") eq_refl eq_refl
               (or_introl eq_refl)).
    reflexivity.
  - rewrite (unmute_by_id_not_possible room_dave_left bob (VStr "#3") eq_refl eq_refl
               (or_intror (ex_intro _ alice (conj eq_refl eq_refl)))).
    reflexivity.
Defined.

(** X10. Mute, then unmute by the same "#id": when the player was not
    muted before, the mute map is back to what it was. *)
Theorem mute_then_unmute_restores (w : World) (actor target : Player.t) (arg : value) :
  isPlayerAllowedToRunCommand actor w = (Return true, w) ->
  is_hash_string arg = true ->
  getPlayer (parseId arg) w = (Return (Some target), w) ->
  isPlayerProtected (Player.id target) w = (Return false, w) ->
  Map_has (Player.conn target) (muteMap w) = false ->
  muteMap (snd (onCommand1_unmute actor [arg] (snd (onCommand1_mute actor [arg] w))))
  = muteMap w.
Proof.
  intros Hok Hhash Hfound Hfree Hnew.
  rewrite (mute_command_run w actor target arg Hok Hfound Hfree). cbn [snd].
  remember (with_event _ _) as w1 eqn:E1.
  assert (Hmap : muteMap w1 = Map_set (Player.conn target) (snapshot target) (muteMap w))
    by (subst w1; reflexivity).
  assert (Hok1 : isPlayerAllowedToRunCommand actor w1 = (Return true, w1))
    by (apply (isPlayerAllowedToRunCommand_same_room actor w w1); subst w1; auto).
  assert (Hfound1 : getPlayer (parseId arg) w1 = (Return (Some target), w1))
    by (apply (getPlayer_same_room _ w w1); subst w1; auto).
  clear E1.
  pose proof (removeMute_hash_run arg w1 (Some target) Hhash Hfound1) as Hrem.
  cbv beta iota zeta in Hrem. rewrite Hmap, Map_has_set_same in Hrem.
  destruct (unmute_command_after_removal w1 actor target arg _ _ Hok1 Hrem)
    as [_ [Hafter _]].
  rewrite Hafter. apply Map_delete_set_fresh, Hnew.
Qed.

Lemma mute_then_unmute_restores_witness :
  muteMap (snd (onCommand1_unmute bob [VStr "#3"]
                  (snd (onCommand1_mute bob [VStr "#3"] room_dave_left))))
  = muteMap room_dave_left.
Proof.
  apply (mute_then_unmute_restores room_dave_left bob alice (VStr "#3")); reflexivity.
Defined.

Lemma removeMute_loop_outcome (keys : list string) (i : nat) (v : value) (w : World) :
  removeMute_loop keys i v w = (Return None, w) \/
  exists key, In key keys /\ removeMute_loop keys i v w = removed_at key w.
Proof.
  revert i. induction keys as [| key rest IH]; intros i; simpl; [left; reflexivity |].
  destruct (counter_strict_eq i v).
  - right. exists key. split; [left; reflexivity | reflexivity].
  - destruct (IH (S i)) as [H | [k [Hin H]]]; [left; exact H |].
    right. exists k. split; [right; exact Hin | exact H].
Qed.

Lemma removeMute_outcome (arg : value) (w : World) :
  removeMute arg w = (Return None, w) \/
  exists k removed,
    Map_has k (muteMap w) = true /\
    removeMute arg w
    = (Return (Some removed),
       with_event (Persist (serializeMuteMap (Map_delete k (muteMap w))))
                  (with_muteMap (Map_delete k (muteMap w)) w)) /\
    (Map_get k (muteMap w) = Some removed \/
     exists p, In p (playerList w) /\ Player.conn p = k /\ removed = snapshot p).
Proof.
  destruct (is_hash_string arg) eqn:Hhash.
  - unfold removeMute. rewrite Hhash.
    unfold bind, getPlayer, getPlayerList, getMuteMap, ret. simpl.
    destruct (match parseId arg with
              | VNum n => find (fun p => number_eqb n (of_Z (Player.id p))) (playerList w)
              | _ => None
              end) as [p |] eqn:Efound; [| left; reflexivity].
    destruct (Map_has (Player.conn p) (muteMap w)) eqn:Hin; [| left; reflexivity].
    right. exists (Player.conn p), (snapshot p). simpl.
    split; [exact Hin | split; [reflexivity |]].
    right. exists p. split; [| split; reflexivity].
    destruct (parseId arg); try discriminate Efound.
    apply find_some in Efound as [Hp _]. exact Hp.
  - unfold removeMute. rewrite Hhash.
    destruct (isNaN (ToNumber arg)); [left; reflexivity |].
    unfold bind, getMuteMap.
    destruct (removeMute_loop_outcome (Map_keys (muteMap w)) 0 arg w)
      as [H | [key [Hin H]]]; [left; exact H |].
    apply Map_has_In in Hin.
    right. unfold Map_has in Hin.
    destruct (Map_get key (muteMap w)) as [v |] eqn:Eg; [| discriminate Hin].
    exists key, v. split; [unfold Map_has; rewrite Eg; reflexivity |].
    split; [| left; exact Eg].
    rewrite H. unfold removed_at. rewrite Eg. reflexivity.
Qed.

(** X11. Whatever its argument, [removeMute] on a mute map with distinct
    keys does one of two things.  It returns [null] and changes nothing at
    all (nothing is persisted); or it deletes exactly one key that was in the
    mute map and persists the map so shortened: the map is then one entry
    shorter, the deleted key is gone and every other key is still there.
    What it returns in the second case is the value that was stored under the
    key, or the object of a player in the room whose connection string is
    the key; so it is [null] only if [null] was what the map held, and the
    caller then takes the removal for a failure. *)
Theorem removeMute_removes_one_or_nothing (arg : value) (w : World) :
  Map_wf (muteMap w) ->
  removeMute arg w = (Return None, w) \/
  exists k removed,
    Map_has k (muteMap w) = true /\
    removeMute arg w
    = (Return (Some removed),
       with_event (Persist (serializeMuteMap (Map_delete k (muteMap w))))
                  (with_muteMap (Map_delete k (muteMap w)) w)) /\
    (Map_get k (muteMap w) = Some removed \/
     exists p, In p (playerList w) /\ Player.conn p = k /\ removed = snapshot p) /\
    (removed = JNull -> Map_get k (muteMap w) = Some JNull) /\
    S (Map_size (Map_delete k (muteMap w))) = Map_size (muteMap w) /\
    Map_has k (Map_delete k (muteMap w)) = false /\
    (forall k0, k0 <> k -> Map_has k0 (Map_delete k (muteMap w)) = Map_has k0 (muteMap w)).
Proof.
  intros Hwf.
  destruct (removeMute_outcome arg w) as [H | [k [removed [Hin [H Hfrom]]]]];
    [left; exact H |].
  right. exists k, removed.
  split; [exact Hin |]. split; [exact H |]. split; [exact Hfrom |].
  split; [| split; [apply Map_size_delete, Hin | split]].
  - intros ->. destruct Hfrom as [Hget | [p [_ [_ Hp]]]]; [exact Hget | discriminate Hp].
  - apply Map_has_delete_same, Hwf.
  - intros k0 Hk0. apply Map_has_delete_other, Hk0.
Qed.

Lemma removeMute_removes_one_or_nothing_witness :
  removeMute (VNum (of_Z 0)) room_null_entry = (Return None, room_null_entry) \/
  exists k removed,
    Map_has k (muteMap room_null_entry) = true /\
    removeMute (VNum (of_Z 0)) room_null_entry
    = (Return (Some removed),
       with_event (Persist (serializeMuteMap (Map_delete k (muteMap room_null_entry))))
                  (with_muteMap (Map_delete k (muteMap room_null_entry)) room_null_entry)) /\
    (Map_get k (muteMap room_null_entry) = Some removed \/
     exists p, In p (playerList room_null_entry) /\ Player.conn p = k /\
               removed = snapshot p) /\
    (removed = JNull -> Map_get k (muteMap room_null_entry) = Some JNull) /\
    S (Map_size (Map_delete k (muteMap room_null_entry))) = Map_size (muteMap room_null_entry) /\
    Map_has k (Map_delete k (muteMap room_null_entry)) = false /\
    (forall k0, k0 <> k ->
                Map_has k0 (Map_delete k (muteMap room_null_entry))
                = Map_has k0 (muteMap room_null_entry)).
Proof.
  apply (removeMute_removes_one_or_nothing (VNum (of_Z 0)) room_null_entry).
  unfold Map_wf. simpl. repeat constructor. simpl. tauto.
Defined.

(** X12. Unmuting by number: when an admitted actor passes the number i
    and the entry at position i is the snapshot of a player, the entry is
    removed and persisted and the actor is told the name; the private notice
    goes to the first player in the room with the entry's connection string,
    whatever that player's id is now, and to nobody when no such player is
    in the room. *)
Theorem unmute_by_index_notifies (w : World) (actor p : Player.t) (i : nat) (k : string) :
  isPlayerAllowedToRunCommand actor w = (Return true, w) ->
  Map_wf (muteMap w) ->
  nth_error (muteMap w) i = Some (k, snapshot p) ->
  let w' := snd (onCommand1_unmute actor [VNum (of_Z (Z.of_nat i))] w) in
  muteMap w' = (firstn i (muteMap w) ++ skipn (S i) (muteMap w))%list /\
  trace w'
  = (trace w
     ++ [Persist (serializeMuteMap (muteMap w'));
         Announce [Lit "Player "; Lit (Player.name p); Lit " unmuted."]
                  (Some (Player.id actor)) green]
     ++ told_unmuted p (playerList w))%list.
Proof.
  intros Hok Hwf Hnth w'.
  pose proof (removeMute_index_hit w i k (snapshot p) Hwf Hnth) as Hrem.
  cbv zeta in Hrem.
  destruct (unmute_command_after_removal w actor p _ _ _ Hok Hrem)
    as [_ [Hmap [_ [_ [_ Htrace]]]]].
  fold w' in Hmap, Htrace. split; [exact Hmap |].
  rewrite Htrace, Hmap. reflexivity.
Qed.

Lemma unmute_by_index_notifies_witness :
  trace (snd (onCommand1_unmute bob [VNum (of_Z 0)] room_dave_back))
  = [Persist (serializeMuteMap []);
     Announce [Lit "Player "; Lit "dave"; Lit " unmuted."] (Some 5) green;
     Announce [Lit "You have been unmuted."] (Some 11) green].
Proof.
  destruct (unmute_by_index_notifies room_dave_back bob dave 0 (Player.conn dave))
    as [Hmap Htrace].
  - reflexivity.
  - unfold Map_wf. simpl. repeat constructor. simpl. tauto.
  - reflexivity.
  - change (Z.of_nat 0) with 0 in Htrace, Hmap. rewrite Htrace, Hmap. reflexivity.
Defined.

(** ** The clearmutes and mutelist commands *)

Lemma snapshot_name (p : Player.t) :
  ToString (get_property (snapshot p) "name") = Some (Player.name p).
Proof. reflexivity. Qed.

Lemma mutelist_lines_named (values : list json) (j : nat) :
  (forall v, In v values -> exists p, v = snapshot p) ->
  exists lines,
    mutelist_lines j values = Some lines /\
    List.length lines = List.length values /\
    forall i p, nth_error values i = Some (snapshot p) ->
                nth_error lines i
                = Some (numeral (Z.of_nat (j + i)) ++ " - " ++ Player.name p).
Proof.
  revert j. induction values as [| v rest IH]; intros j Hsnap.
  - exists []. split; [reflexivity | split; [reflexivity |]].
    intros i p H. destruct i; discriminate H.
  - destruct (IH (S j)) as [lines [Hlines [Hlen Hnth]]].
    { intros v' Hv. apply Hsnap. right. exact Hv. }
    destruct (Hsnap v (or_introl eq_refl)) as [q ->].
    exists ((numeral (Z.of_nat j) ++ " - " ++ Player.name q) :: lines).
    split; [| split].
    + cbn [mutelist_lines]. rewrite Hlines.
      change (match snapshot q with
              | JNull => None
              | _ =>
                  match ToString (get_property (snapshot q) "name") with
                  | Some name => Some ((numeral (Z.of_nat j) ++ " - " ++ name) :: lines)
                  | None => None
                  end
              end = Some ((numeral (Z.of_nat j) ++ " - " ++ Player.name q) :: lines)).
      rewrite snapshot_name. reflexivity.
    + simpl. rewrite Hlen. reflexivity.
    + intros i p H. destruct i as [| i]; cbn [nth_error] in H |- *.
      * assert (Hpq : snapshot q = snapshot p) by congruence.
        apply (f_equal (fun v => ToString (get_property v "name"))) in Hpq.
        rewrite !snapshot_name in Hpq. injection Hpq as Hname.
        rewrite Nat.add_0_r, Hname. reflexivity.
      * rewrite (Hnth i p H). replace (S j + i)%nat with (j + S i)%nat by lia. reflexivity.
Qed.

Lemma mutelist_lines_null (values : list json) (j : nat) :
  In JNull values -> mutelist_lines j values = None.
Proof.
  revert j. induction values as [| p rest IH]; intros j Hin; [contradiction |].
  simpl. destruct Hin as [-> | Hin]; [reflexivity |].
  rewrite (IH (S j) Hin).
  destruct p; try reflexivity; destruct (ToString _); reflexivity.
Qed.

Lemma mutelist_empty_run (w : World) (actor : Player.t) :
  isPlayerAllowedToRunCommand actor w = (Return true, w) ->
  muteMap w = [] ->
  onCommand0_mutelist actor w
  = (Return tt,
     with_event (Announce [Lit "No muted players."] (Some (Player.id actor)) red) w).
Proof.
  intros Hok Hempty. unfold onCommand0_mutelist.
  rewrite (bind_Return _ _ _ _ _ Hok). simpl.
  unfold bind, getMuteMap. rewrite Hempty. reflexivity.
Qed.

Lemma mutelist_run (w : World) (actor : Player.t) :
  isPlayerAllowedToRunCommand actor w = (Return true, w) ->
  muteMap w <> [] ->
  onCommand0_mutelist actor w
  = match mutelist_lines 0 (Map_values (muteMap w)) with
    | Some mutelist =>
        (Return tt,
         with_event (LongAnnounce [Lit (String.concat newline mutelist)]
                                  (Player.id actor) green)
           (with_event (Announce [Lit "MUTE_NUMBER - PLAYER"] (Some (Player.id actor)) green) w))
    | None =>
        (Throw,
         with_event (Announce [Lit "MUTE_NUMBER - PLAYER"] (Some (Player.id actor)) green) w)
    end.
Proof.
  intros Hok Hne. unfold onCommand0_mutelist.
  rewrite (bind_Return _ _ _ _ _ Hok). cbn [negb].
  unfold bind, getMuteMap, sendAnnouncement, emit, throw.
  destruct (muteMap w) as [| kv r] eqn:Em; [contradiction |].
  cbn [Map_size List.length Nat.eqb].
  remember (mutelist_lines 0 (Map_values (kv :: r))) as ml eqn:El.
  destruct ml; reflexivity.
Qed.

(** X13. [!clearmutes] by an admitted actor empties the mute map, so no
    player counts as muted any more, and tells the whole room; a [!mutelist]
    that follows answers "No muted players." to whoever asks. *)
Theorem clearmutes_unmutes_everyone (w : World) (actor : Player.t) :
  isPlayerAllowedToRunCommand actor w = (Return true, w) ->
  let w' := snd (onCommand0_clearmutes actor w) in
  (forall p, isMuted p w' = (Return false, w')) /\
  trace w' = (trace w ++ [Announce [Lit "All mutes cleared!"] None green])%list /\
  (forall asker,
      isPlayerAllowedToRunCommand asker w = (Return true, w) ->
      onCommand0_mutelist asker w'
      = (Return tt,
         with_event (Announce [Lit "No muted players."] (Some (Player.id asker)) red) w')).
Proof.
  intros Hok w'. subst w'. rewrite (clearmutes_run w actor Hok). cbn [snd].
  split; [intros p; reflexivity | split; [reflexivity |]].
  intros asker Hasker. apply mutelist_empty_run; [| reflexivity].
  apply (isPlayerAllowedToRunCommand_same_room asker w); [reflexivity | reflexivity | exact Hasker].
Qed.

Lemma clearmutes_unmutes_everyone_witness :
  isMuted carol (snd (onCommand0_clearmutes bob room_three_muted))
  = (Return false, snd (onCommand0_clearmutes bob room_three_muted)).
Proof.
  exact (proj1 (clearmutes_unmutes_everyone room_three_muted bob eq_refl) carol).
Defined.

(** X14. [!mutelist] by an admitted actor, on a mute map that holds
    player snapshots, changes nothing in the map and sends the actor a header
    and then one long announcement with one line per entry; the line at
    position i reads "i - name", and i is the number with which [removeMute]
    removes that very entry. *)
Theorem mutelist_numbers_match_removeMute (w : World) (actor : Player.t) :
  isPlayerAllowedToRunCommand actor w = (Return true, w) ->
  muteMap w <> [] ->
  holds_snapshots (muteMap w) ->
  Map_wf (muteMap w) ->
  exists lines,
    onCommand0_mutelist actor w
    = (Return tt,
       with_event (LongAnnounce [Lit (String.concat newline lines)] (Player.id actor) green)
         (with_event (Announce [Lit "MUTE_NUMBER - PLAYER"] (Some (Player.id actor)) green) w)) /\
    List.length lines = Map_size (muteMap w) /\
    forall i k p,
      nth_error (muteMap w) i = Some (k, snapshot p) ->
      nth_error lines i = Some (numeral (Z.of_nat i) ++ " - " ++ Player.name p) /\
      fst (removeMute (VNum (of_Z (Z.of_nat i))) w) = Return (Some (snapshot p)).
Proof.
  intros Hok Hne Hsnap Hwf.
  destruct (mutelist_lines_named (Map_values (muteMap w)) 0) as [lines [Hlines [Hlen Hnth]]].
  { intros v Hv. unfold Map_values in Hv. apply in_map_iff in Hv as [kv [<- Hkv]].
    unfold holds_snapshots in Hsnap. rewrite Forall_forall in Hsnap.
    destruct (Hsnap kv Hkv) as [p ->]. exists p. reflexivity. }
  exists lines. split; [| split].
  - rewrite (mutelist_run w actor Hok Hne), Hlines. reflexivity.
  - rewrite Hlen. unfold Map_values, Map_size. apply length_map.
  - intros i k p Hi. split.
    + rewrite (Hnth i p).
      * reflexivity.
      * unfold Map_values. rewrite nth_error_map, Hi. reflexivity.
    + rewrite (removeMute_index_hit w i k (snapshot p) Hwf Hi). reflexivity.
Qed.

Lemma mutelist_numbers_match_removeMute_witness :
  exists lines,
    trace (snd (onCommand0_mutelist bob room_three_muted))
    = [Announce [Lit "MUTE_NUMBER - PLAYER"] (Some 5) green;
       LongAnnounce [Lit (String.concat newline lines)] 5 green] /\
    nth_error lines 2 = Some "2 - carol".
Proof.
  destruct (mutelist_numbers_match_removeMute room_three_muted bob eq_refl)
    as [lines [Hrun [_ Hnth]]].
  - discriminate.
  - unfold holds_snapshots. simpl.
    repeat constructor; [exists alice | exists bob | exists carol]; reflexivity.
  - exact room_three_muted_wf.
  - exists lines. split; [rewrite Hrun; reflexivity |].
    exact (proj1 (Hnth 2%nat (Player.conn carol) carol eq_refl)).
Defined.

(** X15. When an entry of the mute map holds [null], as a restored blob
    can make it, [!mutelist] by an admitted actor sends the header and then
    throws while reading the entry's name: no list is sent. *)
Theorem mutelist_throws_on_null_entry (w : World) (actor : Player.t) :
  isPlayerAllowedToRunCommand actor w = (Return true, w) ->
  In JNull (Map_values (muteMap w)) ->
  onCommand0_mutelist actor w
  = (Throw,
     with_event (Announce [Lit "MUTE_NUMBER - PLAYER"] (Some (Player.id actor)) green) w).
Proof.
  intros Hok Hnull.
  assert (Hne : muteMap w <> []).
  { intros E. rewrite E in Hnull. exact Hnull. }
  rewrite (mutelist_run w actor Hok Hne), (mutelist_lines_null _ 0 Hnull). reflexivity.
Qed.

Lemma mutelist_throws_on_null_entry_witness :
  muteMap (snd (handleRestoreData
                  (Some (JSON_stringify (JObj [(Player.conn alice, JNull)]))) room0))
  = muteMap room_null_entry /\
  fst (onCommand0_mutelist bob room_null_entry) = Throw.
Proof.
  split; [vm_compute; reflexivity |].
  rewrite (mutelist_throws_on_null_entry room_null_entry bob eq_refl (or_introl eq_refl)).
  reflexivity.
Defined.

(** ** Protection and the captain exception *)

Lemma isPlayerProtected_loop_some (r : Roles) (playerId : Z) (protected : list string)
      (w : World) :
  isPlayerProtected_loop (Some r) playerId protected w
  = (Return (existsb (hasPlayerRole r playerId) protected), w).
Proof.
  induction protected as [| role rest IH]; simpl; [reflexivity |].
  destruct (hasPlayerRole r playerId role); [reflexivity | exact IH].
Qed.

(** X16. [isPlayerProtected] answers whether the player holds one of the
    configured protected roles; it answers no when the option is not an
    array or is an empty array, whatever roles the player holds; and it
    throws, without changing anything, when the option names a role but the
    roles plugin is missing. *)
Theorem isPlayerProtected_outcomes (w : World) (playerId : Z) :
  (protectedRoles (config w) = None \/ protectedRoles (config w) = Some [] ->
   isPlayerProtected playerId w = (Return false, w)) /\
  (forall r protected,
      protectedRoles (config w) = Some protected -> roles w = Some r ->
      isPlayerProtected playerId w
      = (Return (existsb (hasPlayerRole r playerId) protected), w)) /\
  (forall role rest,
      protectedRoles (config w) = Some (role :: rest) -> roles w = None ->
      isPlayerProtected playerId w = (Throw, w)).
Proof.
  unfold isPlayerProtected, bind, getConfig, getPlugin_roles, ret.
  split; [| split].
  - intros [-> | ->]; reflexivity.
  - intros r protected -> ->. apply isPlayerProtected_loop_some.
  - intros role rest -> ->. reflexivity.
Qed.

Lemma isPlayerProtected_outcomes_witness :
  isPlayerProtected 5 room0 = (Return true, room0) /\
  isPlayerProtected 3 room0 = (Return false, room0) /\
  isPlayerProtected 7 (room_chat false) = (Return false, room_chat false) /\
  isPlayerProtected 3 (mkWorld [] [alice] default_config None []) 
  = (Throw, mkWorld [] [alice] default_config None []).
Proof.
  split; [| split; [| split]].
  - rewrite (proj1 (proj2 (isPlayerProtected_outcomes room0 5)) room_roles
               ["host"; "admin"] eq_refl eq_refl). reflexivity.
  - rewrite (proj1 (proj2 (isPlayerProtected_outcomes room0 3)) room_roles
               ["host"; "admin"] eq_refl eq_refl). reflexivity.
  - apply (proj1 (isPlayerProtected_outcomes (room_chat false) 7)). left. reflexivity.
  - apply (proj2 (proj2 (isPlayerProtected_outcomes
                           (mkWorld [] [alice] default_config None []) 3))
             "host" ["admin"]); reflexivity.
Defined.

Lemma isPlayerTeamCaptain_not_first_listed (player : Player.t) (w : World) :
  ~ first_listed player w -> isPlayerTeamCaptain player w = (Return false, w).
Proof.
  unfold first_listed, first_of_team. intros Hnot. run.
  destruct (find (fun p => Player.team p =? 1) (playerList w)) as [c1 |] eqn:E1.
  - destruct (Z.eqb_spec (Player.id c1) (Player.id player)) as [Hid | _].
    + exfalso. apply Hnot. left. exists c1. split; [reflexivity | exact Hid].
    + destruct (find (fun p => Player.team p =? 2) (playerList w)) as [c2 |] eqn:E2;
        [| reflexivity].
      destruct (Z.eqb_spec (Player.id c2) (Player.id player)) as [Hid | _]; [| reflexivity].
      exfalso. apply Hnot. right. exists c2. split; [reflexivity | exact Hid].
  - destruct (find (fun p => Player.team p =? 2) (playerList w)) as [c2 |] eqn:E2;
      [| reflexivity].
    destruct (Z.eqb_spec (Player.id c2) (Player.id player)) as [Hid | _]; [| reflexivity].
    exfalso. apply Hnot. right. exists c2. split; [reflexivity | exact Hid].
Qed.

(** X17. The captain exception is positional: with
    [allowTalkingWhenCaptain] on, a muted sender who is not the first listed
    player of the red team nor of the blue team (a spectator, or a second
    player of a team) is still suppressed and sent the mute message. *)
Theorem chat_muted_non_captain_is_suppressed (w : World) (player : Player.t) :
  Map_has (Player.conn player) (muteMap w) = true ->
  allowTalkingWhenCaptain (config w) = true ->
  ~ first_listed player w ->
  handlePlayerChat player w
  = (Return (VBool false),
     with_event (Announce [Lit (muteMessage (config w))] (Some (Player.id player)) red) w).
Proof.
  intros Hin Hon Hnot.
  unfold handlePlayerChat, isMuted, getMuteMap, getConfig, bind, ret. simpl.
  rewrite Hin, Hon.
  rewrite (isPlayerTeamCaptain_not_first_listed player w Hnot). reflexivity.
Qed.

Lemma chat_muted_non_captain_is_suppressed_witness :
  fst (handlePlayerChat carol
         (mkWorld [(Player.conn carol, snapshot carol)] [alice; bob; carol]
                  (mkConfig "muted!" None [] true) None []))
  = Return (VBool false).
Proof.
  rewrite (chat_muted_non_captain_is_suppressed
             (mkWorld [(Player.conn carol, snapshot carol)] [alice; bob; carol]
                      (mkConfig "muted!" None [] true) None []) carol eq_refl eq_refl).
  - reflexivity.
  - intros [[c [Hc Hid]] | [c [Hc Hid]]]; vm_compute in Hc;
      injection Hc as <-; discriminate Hid.
Defined.

(** ** The handlers' footprint *)

Lemma isPlayerTeamCaptain_reads (player : Player.t) (w : World) :
  snd (isPlayerTeamCaptain player w) = w.
Proof.
  unfold isPlayerTeamCaptain, bind, getPlayerList, ret. cbv beta zeta.
  destruct (_ || _)%bool; reflexivity.
Qed.

Lemma grows_refl (w : World) : grows w w.
Proof.
  unfold grows. repeat split; try reflexivity; [| tauto].
  exists []. rewrite List.app_nil_r. reflexivity.
Qed.

Lemma grows_trans (w1 w2 w3 : World) : grows w1 w2 -> grows w2 w3 -> grows w1 w3.
Proof.
  unfold grows.
  intros [Hp1 [Hc1 [Hr1 [[e1 Ht1] Hwf1]]]] [Hp2 [Hc2 [Hr2 [[e2 Ht2] Hwf2]]]].
  repeat split; try congruence; [| tauto].
  exists (e1 ++ e2)%list. rewrite Ht2, Ht1, List.app_assoc. reflexivity.
Qed.

Lemma grows_event (e : event) (w : World) : grows w (with_event e w).
Proof.
  unfold grows. simpl. repeat split; [| tauto]. exists [e]. reflexivity.
Qed.

Lemma grows_muteMap (m : Map) (w : World) : Map_wf m -> grows w (with_muteMap m w).
Proof.
  intros Hm. unfold grows. simpl. repeat split; [| tauto].
  exists []. rewrite List.app_nil_r. reflexivity.
Qed.

Lemma orderly_ret {A} (a : A) : orderly (ret a).
Proof. intros w. apply grows_refl. Qed.

Lemma orderly_throw {A} : orderly (@throw A).
Proof. intros w. apply grows_refl. Qed.

Lemma orderly_bind {A B} (c : M A) (k : A -> M B) :
  orderly c -> (forall a, orderly (k a)) -> orderly (bind c k).
Proof.
  intros Hc Hk w. unfold bind. specialize (Hc w).
  destruct (c w) as [[a |] w1]; simpl in *; [| exact Hc].
  apply (grows_trans w w1); [exact Hc | apply Hk].
Qed.

Lemma orderly_reads {A} (c : M A) : (forall w, snd (c w) = w) -> orderly c.
Proof. intros H w. rewrite H. apply grows_refl. Qed.

Lemma orderly_emit (e : event) : orderly (emit e).
Proof. intros w. apply grows_event. Qed.

Lemma orderly_isPlayerAllowedToRunCommand (actor : Player.t) :
  orderly (isPlayerAllowedToRunCommand actor).
Proof.
  apply orderly_reads. intros w.
  destruct (isPlayerAllowedToRunCommand_reads actor w) as [b ->]. reflexivity.
Qed.

Lemma orderly_isPlayerProtected (playerId : Z) : orderly (isPlayerProtected playerId).
Proof.
  apply orderly_reads. intros w.
  unfold isPlayerProtected, bind, getConfig, getPlugin_roles, ret.
  destruct (protectedRoles (config w)) as [rs |]; [| reflexivity].
  generalize (roles w). intros r.
  induction rs as [| role rest IH]; simpl; [reflexivity |].
  destruct r as [r' |]; [| reflexivity].
  destruct (hasPlayerRole r' playerId role); [reflexivity | exact IH].
Qed.

Lemma orderly_mutePlayer (player : Player.t) : orderly (mutePlayer player).
Proof.
  intros w. rewrite mutePlayer_run. cbn [snd].
  unfold grows. simpl. repeat split.
  - eexists. reflexivity.
  - apply Map_wf_set.
Qed.

Lemma orderly_removeMute (arg : value) : orderly (removeMute arg).
Proof.
  intros w. destruct (removeMute_outcome arg w) as [-> | [k [removed [_ [-> _]]]]].
  - apply grows_refl.
  - unfold grows. simpl. repeat split.
    + eexists. reflexivity.
    + apply Map_wf_delete.
Qed.

Lemma deserializeMuteMap_wf (data : string) (m : Map) :
  deserializeMuteMap data = Some m -> Map_wf m.
Proof.
  unfold deserializeMuteMap.
  destruct (JSON_parse data) as [obj |]; [| discriminate].
  destruct (getOwnPropertyNames obj) as [entries |]; [| discriminate].
  intros [= <-].
  assert (H : forall acc, Map_wf acc ->
            Map_wf (fold_left (fun d kv => Map_set (fst kv) (snd kv) d) entries acc)).
  { induction entries as [| kv r IH]; intros acc Hacc; simpl; [exact Hacc |].
    apply IH, Map_wf_set, Hacc. }
  apply H. constructor.
Qed.

Lemma orderly_handleRestoreData (data : option string) : orderly (handleRestoreData data).
Proof.
  intros w. unfold handleRestoreData. destruct data as [blob |]; [| apply grows_refl].
  destruct (deserializeMuteMap blob) as [m |] eqn:E; [| apply grows_refl].
  apply grows_muteMap. apply (deserializeMuteMap_wf blob m E).
Qed.

(** X18. No command, chat event, persist or restore request ever changes
    the room's player list, the configuration or the roles plugin, or takes
    anything back from the trace; the keys of the mute map stay distinct;
    and the chat handler, [!mutelist] and the persist hook leave the mute
    map exactly as it was. *)
Theorem handlers_footprint (actor player : Player.t) (args : list value)
        (data : option string) :
  orderly (onCommand1_mute actor args) /\
  orderly (onCommand1_unmute actor args) /\
  orderly (onCommand0_clearmutes actor) /\
  orderly (onCommand0_mutelist actor) /\
  orderly (handlePlayerChat player) /\
  orderly (handleRestoreData data) /\
  orderly handlePersistData /\
  (forall w, muteMap (snd (handlePlayerChat player w)) = muteMap w) /\
  (forall w, muteMap (snd (onCommand0_mutelist actor w)) = muteMap w) /\
  (forall w, snd (handlePersistData w) = w).
Proof.
  assert (Hsend : forall msg target color, orderly (sendAnnouncement msg target color))
    by (intros; apply orderly_emit).
  assert (Hget : orderly getMuteMap) by (apply orderly_reads; reflexivity).
  assert (Hplayer : forall v, orderly (getPlayer v)) by (intros; apply orderly_reads; reflexivity).
  assert (Hcfg : forall A (f : Config -> A), orderly (getConfig f))
    by (intros; apply orderly_reads; reflexivity).
  assert (Hchat : orderly (handlePlayerChat player)).
  { unfold handlePlayerChat. apply orderly_bind; [apply orderly_reads; reflexivity |].
    intros [|]; [| apply orderly_ret].
    apply orderly_bind; [apply Hcfg |]. intros allow.
    apply orderly_bind.
    - destruct allow; [apply orderly_reads, isPlayerTeamCaptain_reads | apply orderly_ret].
    - intros [|]; [apply orderly_ret |].
      apply orderly_bind; [apply Hcfg |]. intros msg.
      apply orderly_bind; [apply Hsend | intros; apply orderly_ret]. }
  assert (Hlist : orderly (onCommand0_mutelist actor)).
  { unfold onCommand0_mutelist.
    apply orderly_bind; [apply orderly_isPlayerAllowedToRunCommand |].
    intros [|]; [| apply orderly_ret]. cbn [negb].
    apply orderly_bind; [apply Hget |]. intros m.
    destruct (Map_size m =? 0)%nat; [apply Hsend |].
    apply orderly_bind; [apply Hsend |]. intros _.
    destruct (mutelist_lines 0 (Map_values m)); [apply orderly_emit | apply orderly_throw]. }
  assert (Hmute : orderly (onCommand1_mute actor args)).
  { unfold onCommand1_mute.
    apply orderly_bind; [apply orderly_isPlayerAllowedToRunCommand |].
    intros [|]; [| apply orderly_ret]. cbn [negb].
    apply orderly_bind; [apply Hplayer |].
    intros [target |]; [| apply Hsend].
    apply orderly_bind; [apply orderly_isPlayerProtected |].
    intros [|]; [apply Hsend |].
    apply orderly_bind; [apply orderly_mutePlayer |]. intros _.
    apply orderly_bind; [apply Hsend | intros; apply Hsend]. }
  assert (Hunmute : orderly (onCommand1_unmute actor args)).
  { unfold onCommand1_unmute.
    apply orderly_bind; [apply orderly_isPlayerAllowedToRunCommand |].
    intros [|]; [| apply orderly_ret]. cbn [negb].
    apply orderly_bind; [apply orderly_removeMute |]. intros unmutedPlayer.
    destruct (negb (truthy unmutedPlayer)); [apply Hsend |].
    destruct (ToString _); [| apply orderly_throw].
    apply orderly_bind; [apply Hsend |]. intros _.
    apply orderly_bind; [apply orderly_reads; reflexivity |].
    intros [p |]; [apply Hsend | apply orderly_ret]. }
  assert (Hclear : orderly (onCommand0_clearmutes actor)).
  { unfold onCommand0_clearmutes.
    apply orderly_bind; [apply orderly_isPlayerAllowedToRunCommand |].
    intros [|]; [| apply orderly_ret]. cbn [negb].
    apply orderly_bind; [apply Hget |]. intros m.
    apply orderly_bind; [| intros; apply Hsend].
    intros w. apply grows_muteMap. constructor. }
  split; [exact Hmute |]. split; [exact Hunmute |]. split; [exact Hclear |].
  split; [exact Hlist |]. split; [exact Hchat |].
  split; [apply orderly_handleRestoreData |].
  split; [apply orderly_reads; reflexivity |].
  split; [| split].
  - intros w. unfold handlePlayerChat, isMuted, bind, getMuteMap, getConfig, ret,
      sendAnnouncement, emit. cbv beta.
    destruct (Map_has (Player.conn player) (muteMap w)); [| reflexivity].
    destruct (allowTalkingWhenCaptain (config w)); [| reflexivity].
    pose proof (isPlayerTeamCaptain_reads player w) as Hcap.
    destruct (isPlayerTeamCaptain player w) as [[[|] |] w1]; simpl in *; subst w1;
      reflexivity.
  - intros w. unfold onCommand0_mutelist.
    destruct (isPlayerAllowedToRunCommand_reads actor w) as [b Hb].
    rewrite (bind_Return _ _ _ _ _ Hb).
    destruct b; [| reflexivity]. cbn [negb].
    unfold bind, getMuteMap, sendAnnouncement, emit, throw.
    destruct (Map_size (muteMap w) =? 0)%nat; [reflexivity |].
    cbn [fst snd]. remember (mutelist_lines 0 _) as ml. destruct ml; reflexivity.
  - intros w. reflexivity.
Qed.

(** ** Restoring *)

Lemma numeral_read (n : nat) :
  MV (fst (DecimalDigits (numeral (Z.of_nat n)))) = N.of_nat n.
Proof.
  destruct (numeral_digits (Z.of_nat n)) as [ds [Hds [_ [Hval [_ ->]]]]].
  destruct (Z.ltb_spec (Z.of_nat n) 0) as [Hneg |]; [lia |].
  rewrite (DecimalDigits_write_digits_end ds Hds). simpl. rewrite Hval. lia.
Qed.

Lemma numeral_head_digit (n : nat) :
  starts_with_digit (numeral (Z.of_nat n)) = true.
Proof.
  destruct (numeral_digits (Z.of_nat n)) as [ds [Hds [Hne [_ [_ ->]]]]].
  destruct (Z.ltb_spec (Z.of_nat n) 0) as [Hneg |]; [lia |].
  destruct ds as [| d r]; [contradiction |]. inversion Hds; subst.
  cbn [write_digits starts_with_digit]. apply is_digit_digit_char. assumption.
Qed.

Lemma indexed_keys (i : nat) (elems : list json) (k : string) :
  In k (Map_keys (indexed i elems)) ->
  exists j, (i <= j)%nat /\ k = numeral (Z.of_nat j).
Proof.
  revert i. induction elems as [| v r IH]; intros i; simpl; [contradiction |].
  intros [<- | Hin]; [exists i; split; [lia | reflexivity] |].
  destruct (IH (S i) Hin) as [j [Hj ->]]. exists j. split; [lia | reflexivity].
Qed.

(** The own properties of an array: its indices, then [length]. *)
Lemma array_properties_wf (elems : list json) :
  Map_wf (indexed 0 elems
            ++ [("length", JNum (of_Z (Z.of_nat (List.length elems))))])%list.
Proof.
  unfold Map_wf, Map_keys. rewrite map_app. simpl.
  assert (Hidx : forall i, NoDup (map fst (indexed i elems))).
  { induction elems as [| v r IH]; intros i; simpl; constructor; [| apply IH].
    intros Hin. destruct (indexed_keys (S i) r _ Hin) as [j [Hj E]].
    apply (f_equal (fun s => MV (fst (DecimalDigits s)))) in E.
    rewrite !numeral_read in E. lia. }
  apply NoDup_app; [apply Hidx | repeat constructor; simpl; tauto |].
  intros k Hin [<- | []].
  destruct (indexed_keys 0 elems _ Hin) as [j [_ E]].
  pose proof (numeral_head_digit j) as Hd. rewrite <- E in Hd. discriminate Hd.
Qed.

(** X19. The restore hook does not look at what the blob denotes.  The text
    of a number or of a boolean empties the mute map; the text [null] makes
    the hook throw and leaves the world as it was; the text of an array of n
    values gives a mute map with the keys 0 to n-1 and [length], which holds
    n, so the connection string "length" counts as muted after the blob "[]"
    is restored.  Whatever the blob, the hook either throws and leaves the
    world as it was, or puts in place of the mute map a map with distinct keys
    that the blob alone determines. *)
Theorem restore_takes_any_json (w : World) :
  (forall n, JSON_number n ->
             handleRestoreData (Some (JSON_stringify (JNum n))) w
             = (Return tt, with_muteMap [] w)) /\
  (forall b, handleRestoreData (Some (JSON_stringify (JBool b))) w
             = (Return tt, with_muteMap [] w)) /\
  handleRestoreData (Some (JSON_stringify JNull)) w = (Throw, w) /\
  (forall elems,
      Forall wf_json elems ->
      handleRestoreData (Some (JSON_stringify (JArr elems))) w
      = (Return tt,
         with_muteMap (indexed 0 elems
                         ++ [("length", JNum (of_Z (Z.of_nat (List.length elems))))])%list w)) /\
  (forall blob,
      handleRestoreData (Some blob) w = (Throw, w) \/
      exists m, Map_wf m /\
                forall w', handleRestoreData (Some blob) w' = (Return tt, with_muteMap m w')).
Proof.
  split; [| split; [| split; [| split]]].
  - intros n Hn. unfold handleRestoreData, deserializeMuteMap.
    rewrite (JSON_parse_stringify (JNum n) Hn). reflexivity.
  - intros b. destruct b; reflexivity.
  - reflexivity.
  - intros elems Hwf. unfold handleRestoreData, deserializeMuteMap.
    rewrite (JSON_parse_stringify (JArr elems)) by (apply wf_json_JArr, Hwf).
    cbn [getOwnPropertyNames].
    rewrite (fold_Map_set_fresh _ []) by apply array_properties_wf.
    reflexivity.
  - intros blob. unfold handleRestoreData.
    destruct (deserializeMuteMap blob) as [m |] eqn:E; [| left; reflexivity].
    right. exists m. split; [apply (deserializeMuteMap_wf blob m E) | reflexivity].
Qed.

Lemma restore_takes_any_json_witness :
  handleRestoreData (Some (JSON_stringify (JNum (Fin (3 # 2))))) room_two_muted
  = (Return tt, with_muteMap [] room_two_muted) /\
  handleRestoreData (Some (JSON_stringify (JArr []))) room_two_muted
  = (Return tt, with_muteMap [("length", JNum (of_Z 0))] room_two_muted).
Proof.
  destruct (restore_takes_any_json room_two_muted) as [Hnum [_ [_ [Harr _]]]].
  split.
  - apply Hnum. reflexivity.
  - apply (Harr []). constructor.
Defined.

Lemma filter_not_proto_kept (m : Map) :
  filter not_proto (OrdinaryOwnPropertyKeys (filter not_proto m))
  = OrdinaryOwnPropertyKeys (filter not_proto m).
Proof.
  assert (Hall : forall kv, In kv (OrdinaryOwnPropertyKeys (filter not_proto m)) ->
                            not_proto kv = true).
  { intros kv Hin.
    apply (Permutation_in _ (OrdinaryOwnPropertyKeys_Permutation _)) in Hin.
    apply filter_In in Hin as [_ H]. exact H. }
  induction (OrdinaryOwnPropertyKeys (filter not_proto m)) as [| kv r IH]; [reflexivity |].
  simpl. rewrite (Hall kv (or_introl eq_refl)). f_equal.
  apply IH. intros kv' Hin. apply Hall. right. exact Hin.
Qed.

(** X20. Persisting and then restoring a mute map with distinct keys and
    JSON-representable values (finite doubles, any strings, arrays and
    objects of such) gives back its entries other than [__proto__], those
    whose key is an array index first, in ascending index order, and the
    others after them in their former order; every index shown by
    [!mutelist] can therefore change over a restart.  Persisting and
    restoring the result once more gives the very same map. *)
Theorem persist_restore_settles (m : Map) :
  Map_wf m ->
  Forall (fun kv => wf_json (snd kv)) m ->
  let kept := filter not_proto m in
  let restored := (integer_keys kept ++ string_keys kept)%list in
  deserializeMuteMap (serializeMuteMap m) = Some restored /\
  ascending (integer_keys kept) /\
  deserializeMuteMap (serializeMuteMap restored) = Some restored.
Proof.
  intros Hwf Hvalues kept restored.
  change restored with (OrdinaryOwnPropertyKeys kept).
  pose proof (OrdinaryOwnPropertyKeys_Permutation kept) as Hperm.
  split; [exact (deserialize_serialize m Hwf Hvalues) |].
  split; [apply integer_keys_ascending |].
  rewrite deserialize_serialize.
  - unfold kept. rewrite filter_not_proto_kept.
    rewrite OrdinaryOwnPropertyKeys_idempotent. reflexivity.
  - apply (Map_wf_Permutation kept); [symmetry; exact Hperm |].
    apply Map_wf_filter, Hwf.
  - rewrite Forall_forall in *. intros kv Hin. apply Hvalues.
    apply (Permutation_in _ Hperm) in Hin.
    unfold kept in Hin. apply filter_In in Hin as [Hin _]. exact Hin.
Qed.

Lemma persist_restore_settles_witness :
  deserializeMuteMap (serializeMuteMap (muteMap room_three_muted))
  = Some [(Player.conn bob, snapshot bob); (Player.conn carol, snapshot carol);
          (Player.conn alice, snapshot alice)].
Proof.
  destruct (persist_restore_settles (muteMap room_three_muted)) as [Hback _].
  - exact room_three_muted_wf.
  - simpl. constructor; [apply wf_json_snapshot, alice_representable |].
    constructor; [apply wf_json_snapshot, bob_representable |].
    constructor; [apply wf_json_snapshot, carol_representable | constructor].
  - rewrite Hback. reflexivity.
Defined.

(** X21. Mutes survive a restart: when the data handed out by the persist
    hook, for a mute map reached by mute and unmute operations on player
    objects with JSON-representable attributes and with no [__proto__] key,
    is given to the restore hook of any world, the restore
    succeeds and every player is muted afterwards exactly if the player was
    muted when the data was taken. *)
Theorem restart_keeps_mutes (w fresh : World) :
  reachable w ->
  Map_has "__proto__" (muteMap w) = false ->
  exists data,
    handlePersistData w = (Return data, w) /\
    fst (handleRestoreData (Some data) fresh) = Return tt /\
    forall p, fst (isMuted p (snd (handleRestoreData (Some data) fresh)))
              = fst (isMuted p w).
Proof.
  intros Hreach Hproto.
  exists (serializeMuteMap (muteMap w)). split; [reflexivity |].
  destruct (reachable_store w Hreach) as [Hwf Hsnap].
  pose proof (holds_representable_wf _ Hsnap) as Hvalues.
  pose proof (deserialize_serialize (muteMap w) Hwf Hvalues) as Hback.
  rewrite (filter_not_proto_absent _ Hproto) in Hback.
  unfold handleRestoreData. rewrite Hback. cbn [fst snd].
  split; [reflexivity |].
  intros p.
  assert (Hget : Map_get (Player.conn p) (muteMap w)
                 = Map_get (Player.conn p) (OrdinaryOwnPropertyKeys (muteMap w))).
  { apply (Map_get_Permutation _ _ _ Hwf).
    symmetry. apply OrdinaryOwnPropertyKeys_Permutation. }
  unfold isMuted, bind, getMuteMap, ret, Map_has. simpl.
  rewrite Hget. reflexivity.
Qed.

Lemma restart_keeps_mutes_witness :
  exists data,
    handlePersistData (snd (mutePlayer carol room0))
    = (Return data, snd (mutePlayer carol room0)) /\
    fst (isMuted carol (snd (handleRestoreData (Some data) room_no_admin))) = Return true /\
    fst (isMuted alice (snd (handleRestoreData (Some data) room_no_admin))) = Return false.
Proof.
  destruct (restart_keeps_mutes (snd (mutePlayer carol room0)) room_no_admin)
    as [data [Hdata [_ Hsame]]].
  - apply reachable_mute; [apply reachable_start; reflexivity | exact carol_representable].
  - reflexivity.
  - exists data. split; [exact Hdata |]. rewrite !Hsame. split; reflexivity.
Defined.
